(** * KoPL: typed values, knowledge-base index, primitives and dependency inference

    A shallow embedding of [kopl/util.py], [kopl/data.py] and [kopl/kopl.py].

    Conventions of the embedding.
    - A Python [str] is a [string]; its characters are the code points below 256.
    - A Python [int] is a [Z]; a Python [float] is a binary64 [float].
    - A raised exception is the [Raise] result carrying the exception class.
    - A [dict] whose iteration order is observable is an association list in
      insertion order; a [dict] or [defaultdict] that is only read by key is a
      [gmap]; a [set] is a [gset], listed by [elements] when Python lists it. *)

From Stdlib Require Import ZArith List String Ascii Lia.
From Stdlib Require Import Floats.PrimFloat Numbers.Cyclic.Int63.Uint63.
From stdpp Require Import base gmap sets list strings.
From Equations Require Import Equations.

Open Scope Z_scope.

Set Warnings "-clear-no-such-hyp".

(** ** Exceptions and results *)

Inductive exn : Type :=
| TypeError
| KeyError
| ValueError
| IndexError
| OverflowError
| AssertionError
| Exception_.

Inductive result (A : Type) : Type :=
| Ok (a : A)
| Raise (e : exn).
Arguments Ok {A} a.
Arguments Raise {A} e.

Definition rbind {A B} (r : result A) (k : A → result B) : result B :=
  match r with
  | Ok a => k a
  | Raise e => Raise e
  end.

Notation "'let?' x ':=' r 'in' k" := (rbind r (fun x => k))
  (at level 10, x pattern, r at level 100, k at level 200).

(** ** Typed values ([util.py], class [ValueClass]) *)

(** [datetime.date]: ordered as the triple (year, month, day). *)
Record date : Type := Date { year : Z; month : Z; day : Z }.

Definition date_eqb (a b : date) : bool :=
  (year a =? year b) && (month a =? month b) && (day a =? day b).

Definition date_ltb (a b : date) : bool :=
  (year a <? year b)
  || ((year a =? year b)
      && ((month a <? month b) || ((month a =? month b) && (day a <? day b)))).

(** The four values of the [type] field. *)
Inductive VType : Type := TString | TQuantity | TDate | TYear.

Global Instance VType_eq_dec : EqDecision VType.
Proof. solve_decision. Defined.

(** A [ValueClass] object: the [type] field is the constructor, [value] and
    [unit] are its arguments. *)
Inductive ValueClass : Type :=
| VString (value : string)
| VQuantity (value : float) (unit : string)
| VYear (value : Z)
| VDate (value : date).

Definition vtype (v : ValueClass) : VType :=
  match v with
  | VString _ => TString
  | VQuantity _ _ => TQuantity
  | VYear _ => TYear
  | VDate _ => TDate
  end.

Definition isTime (v : ValueClass) : bool :=
  match v with
  | VYear _ | VDate _ => true
  | _ => false
  end.

Definition can_compare (self other : ValueClass) : bool :=
  match self with
  | VString _ => match other with VString _ => true | _ => false end
  | VQuantity _ u =>
      match other with
      | VQuantity _ u' => String.eqb u' u
      | _ => false
      end
  | _ => match other with VYear _ | VDate _ => true | _ => false end
  end.

Definition convert_to_year (self : ValueClass) : ValueClass :=
  match self with
  | VYear _ => self
  | VDate d => VYear (year d)
  | _ => self
  end.

Definition contains (self other : ValueClass) : bool :=
  match self, other with
  | VDate d, VYear n => year d =? n
  | VYear n, VDate d => year d =? n
  | _, _ => false
  end.

(** [ValueClass.__eq__] *)
Definition __eq__ (self other : ValueClass) : bool :=
  if negb (can_compare self other) then false
  else
    match self, other with
    | VString s, VString s' => String.eqb s s'
    | VQuantity x _, VQuantity x' _ => PrimFloat.eqb x x'
    | VYear n, VYear n' => n =? n'
    | VDate d, VDate d' => date_eqb d d'
    | _, _ => false
    end.

(** [ValueClass.__lt__] *)
Definition __lt__ (self other : ValueClass) : result bool :=
  if negb (can_compare self other) then Raise AssertionError
  else
    match self with
    | VString _ => Raise Exception_
    | VQuantity x _ =>
        match other with
        | VQuantity x' _ => Ok (PrimFloat.ltb x x')
        | _ => Ok false
        end
    | VYear n =>
        match other with
        | VYear n' => Ok (n <? n')
        | VDate d' => Ok (n <? year d')
        | _ => Ok false
        end
    | VDate d =>
        match other with
        | VYear n' => Ok (year d <? n')
        | VDate d' => Ok (date_ltb d d')
        | _ => Ok false
        end
    end.

(** Python's [>] on [str]: lexicographic on code points. *)
Definition str_gt (a b : string) : bool :=
  match String.compare a b with
  | Gt => true
  | _ => false
  end.

(** [ValueClass.__gt__] *)
Definition __gt__ (self other : ValueClass) : bool :=
  match self, other with
  | VString s, VString s' => str_gt s s'
  | VQuantity x u, VQuantity x' u' =>
      if String.eqb u u' then PrimFloat.ltb x' x else false
  | VYear n, VYear n' => n >? n'
  | VDate d, VDate d' => date_ltb d' d
  | VDate d, VYear n' => year d >? n'
  | VYear n, VDate d' => n >? year d'
  | _, _ => false
  end.

(** [comp(a, b, op)] *)
Definition comp (a b : ValueClass) (op : string) : result bool :=
  if isTime b && String.eqb op "=" then Ok (contains b a)
  else if isTime b && String.eqb op "!=" then Ok (negb (contains b a))
  else if String.eqb op "=" then Ok (__eq__ a b)
  else if String.eqb op "<" then __lt__ a b
  else if String.eqb op ">" then Ok (__gt__ a b)
  else if String.eqb op "!=" then Ok (negb (__eq__ a b))
  else Raise TypeError.

(** ** Strings: the [str] methods the engine uses *)

Definition char_in (c : ascii) (s : string) : bool :=
  existsb (Ascii.eqb c) (list_ascii_of_string s).

(** [s.find(c)] for a one-character [c]; [None] stands for -1. *)
Fixpoint find_char (c : ascii) (s : string) : option nat :=
  match s with
  | EmptyString => None
  | String a s' =>
      if Ascii.eqb a c then Some O
      else match find_char c s' with
           | Some i => Some (S i)
           | None => None
           end
  end.

(** [s.rfind(c)] for a one-character [c]. *)
Fixpoint rfind_char (c : ascii) (s : string) : option nat :=
  match s with
  | EmptyString => None
  | String a s' =>
      match rfind_char c s' with
      | Some i => Some (S i)
      | None => if Ascii.eqb a c then Some O else None
      end
  end.

(** [s[i:j]] for indices within [0, len(s)]. *)
Definition slice (i j : nat) (s : string) : string := substring i (j - i) s.

(** [s[i:]] *)
Definition slice_from (i : nat) (s : string) : string :=
  substring i (String.length s - i) s.

(** The characters [str.split()] treats as white space (code points < 256). *)
Definition is_space (c : ascii) : bool :=
  let n := nat_of_ascii c in
  ((9 <=? n) && (n <=? 13) || (28 <=? n) && (n <=? 32)
   || (n =? 133) || (n =? 160))%nat.

(** [s.split()]: the maximal runs of characters that are not white space.
    [cur] is the run being read, in reverse. *)
Fixpoint split_ws_aux (cur : list ascii) (s : string) : list string :=
  let flush := match cur with
               | [] => []
               | _ => [string_of_list_ascii (rev cur)]
               end in
  match s with
  | EmptyString => flush
  | String a s' =>
      if is_space a then flush ++ split_ws_aux [] s'
      else split_ws_aux (a :: cur) s'
  end.

Definition split_ws (s : string) : list string := split_ws_aux [] s.

(** [sep.join(l)] *)
Fixpoint join (sep : string) (l : list string) : string :=
  match l with
  | [] => EmptyString
  | [x] => x
  | x :: rest => x +:+ sep +:+ join sep rest
  end.

(** [datetime.date(y, m, d)]: [OverflowError] outside the C [int] range,
    [ValueError] outside the calendar. *)
Definition is_leap (y : Z) : bool :=
  (y mod 4 =? 0) && (negb (y mod 100 =? 0) || (y mod 400 =? 0)).

Definition days_in_month (y m : Z) : Z :=
  if m =? 2 then (if is_leap y then 29 else 28)
  else if (m =? 4) || (m =? 6) || (m =? 9) || (m =? 11) then 30
  else 31.

Definition fits_c_int (n : Z) : bool := (-2147483648 <=? n) && (n <=? 2147483647).

Definition mk_date (y m d : Z) : result date :=
  if negb (fits_c_int y && fits_c_int m && fits_c_int d) then Raise OverflowError
  else if negb ((1 <=? y) && (y <=? 9999)) then Raise ValueError
  else if negb ((1 <=? m) && (m <=? 12)) then Raise ValueError
  else if negb ((1 <=? d) && (d <=? days_in_month y m)) then Raise ValueError
  else Ok (Date y m d).

(** ** Knowledge-base records ([data.py])

    The records are parametric in the type [V] of values: the raw JSON value
    before construction parses it, a [ValueClass] afterwards. A [qualifiers]
    dict is listed in insertion order, as [.items()] yields it. *)

Record Attribute (V : Type) : Type := mkAttribute {
  a_key : string;
  a_value : V;
  a_qualifiers : list (string * list V);
}.
Arguments mkAttribute {V}.
Arguments a_key {V}.
Arguments a_value {V}.
Arguments a_qualifiers {V}.

Record Relation (V : Type) : Type := mkRelation {
  r_relation : string;
  r_direction : string;
  r_object : string;
  r_qualifiers : list (string * list V);
}.
Arguments mkRelation {V}.
Arguments r_relation {V}.
Arguments r_direction {V}.
Arguments r_object {V}.
Arguments r_qualifiers {V}.

Record Entity (V : Type) : Type := mkEntity {
  e_name : string;
  e_attributes : list (Attribute V);
  e_relations : list (Relation V);
  e_isA : list string;
}.
Arguments mkEntity {V}.
Arguments e_name {V}.
Arguments e_attributes {V}.
Arguments e_relations {V}.
Arguments e_isA {V}.

(** An insertion-ordered [dict] with [str] keys. *)
Definition odict (A : Type) : Type := list (string * A).

Fixpoint dict_get {A} (k : string) (d : odict A) : option A :=
  match d with
  | [] => None
  | (k', a) :: d' => if String.eqb k' k then Some a else dict_get k d'
  end.

Definition dict_mem {A} (k : string) (d : odict A) : bool :=
  match dict_get k d with Some _ => true | None => false end.

(** [d[k] = a]: an existing key keeps its place. *)
Fixpoint dict_set {A} (k : string) (a : A) (d : odict A) : odict A :=
  match d with
  | [] => [(k, a)]
  | (k', a') :: d' =>
      if String.eqb k' k then (k, a) :: d' else (k', a') :: dict_set k a d'
  end.

Definition dict_keys {A} (d : odict A) : list string := map fst d.

(** The entity store [self.entities]. *)
Definition Store (V : Type) : Type := odict (Entity V).

(** *** Ancestry ([get_direct_concepts], [get_all_concepts]) *)

Definition mem_str (x : string) (l : list string) : bool :=
  existsb (String.eqb x) l.

Definition get_direct_concepts {V} (ents : Store V) (ent_id : string) : list string :=
  match dict_get ent_id ents with
  | Some info =>
      filter (fun i => dict_mem i ents && negb (String.eqb i ent_id)) (e_isA info)
  | None => []
  end.

(** Termination of the [while not q.empty()] loop: every iteration either
    shortens the queue or moves a stored entity into [ancestors], after
    which its [isA] list is never enqueued again. *)
Definition isa_weight {V} (ents : Store V) (ancestors : gset string) : nat :=
  list_sum (map (fun p : string * Entity V =>
                   if decide (fst p ∈ ancestors) then O
                   else S (length (e_isA (snd p)))) ents).

Definition bfs_measure {V} (ents : Store V) (q : list string)
    (ancestors : gset string) : nat :=
  (length q + isa_weight ents ancestors)%nat.

Lemma isa_weight_mono {V} (ents : Store V) ancestors x :
  (isa_weight ents ({[x]} ∪ ancestors) <= isa_weight ents ancestors)%nat.
Proof.
  unfold isa_weight. induction ents as [|[k e] ents IH]; simpl; [lia|].
  repeat case_decide; try lia. set_solver.
Qed.

Lemma isa_weight_expand {V} (ents : Store V) ancestors x info :
  dict_get x ents = Some info → x ∉ ancestors →
  (S (length (e_isA info)) + isa_weight ents ({[x]} ∪ ancestors)
   <= isa_weight ents ancestors)%nat.
Proof.
  unfold isa_weight. induction ents as [|[k e] ents IH]; simpl; [discriminate|].
  intros Hg Hx. destruct (String.eqb_spec k x) as [->|Hne].
  - inversion Hg; subst.
    pose proof (isa_weight_mono ents ancestors x) as Hm. unfold isa_weight in Hm.
    repeat case_decide; try lia; set_solver.
  - specialize (IH Hg Hx). repeat case_decide; try lia. set_solver.
Qed.

Definition inspect {A} (a : A) : {b | a = b} := exist _ a eq_refl.

(** The loop of [get_all_concepts]: [q] is the queue, front first. *)
Equations? bfs_loop {V} (ents : Store V) (q : list string)
    (ancestors : gset string) : gset string
  by wf (bfs_measure ents q ancestors) lt :=
  bfs_loop ents [] ancestors := ancestors;
  bfs_loop ents (con_id :: q') ancestors with inspect (dict_get con_id ents) := {
    | exist _ (Some info) Hg with decide (con_id ∈ ancestors) := {
        | left _ := bfs_loop ents q' ancestors;
        | right Hn := bfs_loop ents (q' ++ e_isA info) ({[con_id]} ∪ ancestors) };
    | exist _ None Hg := bfs_loop ents q' ancestors }.
Proof.
  all: unfold bfs_measure; simpl; try lia.
  rewrite length_app. pose proof (isa_weight_expand _ _ _ _ Hg Hn). lia.
Qed.

Definition get_all_concepts_set {V} (ents : Store V) (ent_id : string) : gset string :=
  bfs_loop ents (get_direct_concepts ents ent_id) ∅.

Definition get_all_concepts {V} (ents : Store V) (ent_id : string) : list string :=
  elements (get_all_concepts_set ents ent_id).

(** *** The raw input ([kb["concepts"]], [kb["entities"]])

    A raw value is the JSON record [{type, value[, unit]}]: the payload of a
    [quantity] is the number [float(value["value"])], the payload of a [date]
    or [year] is the text [str(value["value"])]. *)

Inductive RawValue : Type :=
| RawString (value : string)
| RawQuantity (value : float) (unit : string)
| RawDate (value : string)
| RawYear (value : string).

(** [value["type"]] *)
Definition raw_type (v : RawValue) : VType :=
  match v with
  | RawString _ => TString
  | RawQuantity _ _ => TQuantity
  | RawDate _ => TDate
  | RawYear _ => TYear
  end.

Record RawConcept : Type := mkRawConcept {
  c_name : string;
  c_subclassOf : list string;
}.

(** A raw entity is an [Entity RawValue] whose [e_isA] is [instanceOf]. *)
Record RawKB : Type := mkRawKB {
  kb_concepts : odict RawConcept;
  kb_entities : odict (Entity RawValue);
}.

(** Step 1 of [KB.__init__]: concepts, then entities, enter the store. *)
Definition merge_concepts (kb : RawKB) : Store RawValue :=
  let ents :=
    fold_left (fun ents (p : string * RawConcept) =>
                 dict_set (fst p) (mkEntity (c_name (snd p)) [] [] (c_subclassOf (snd p))) ents)
              (kb_concepts kb) [] in
  fold_left (fun ents (p : string * Entity RawValue) => dict_set (fst p) (snd p) ents)
            (kb_entities kb) ents.

(** Equality of raw records, as [==] on the JSON dicts: a [qualifiers] dict
    compares without regard to key order. *)
Definition raw_value_eqb (a b : RawValue) : bool :=
  match a, b with
  | RawString s, RawString s' => String.eqb s s'
  | RawQuantity x u, RawQuantity x' u' => PrimFloat.eqb x x' && String.eqb u u'
  | RawDate s, RawDate s' => String.eqb s s'
  | RawYear s, RawYear s' => String.eqb s s'
  | _, _ => false
  end.

Fixpoint list_eqb {A} (eqb : A → A → bool) (l l' : list A) : bool :=
  match l, l' with
  | [], [] => true
  | x :: r, x' :: r' => eqb x x' && list_eqb eqb r r'
  | _, _ => false
  end.

Definition quals_eqb (q q' : odict (list RawValue)) : bool :=
  (length q =? length q')%nat
  && forallb (fun p : string * list RawValue =>
                match dict_get (fst p) q' with
                | Some vs' => list_eqb raw_value_eqb (snd p) vs'
                | None => false
                end) q.

Definition relation_eqb (r r' : Relation RawValue) : bool :=
  String.eqb (r_relation r) (r_relation r')
  && String.eqb (r_direction r) (r_direction r')
  && String.eqb (r_object r) (r_object r')
  && quals_eqb (r_qualifiers r) (r_qualifiers r').

(** [self.entities[obj_id]["relations"].append(rel)] unless already there. *)
Definition add_mirror (obj_id : string) (rel : Relation RawValue)
    (ents : Store RawValue) : Store RawValue :=
  match dict_get obj_id ents with
  | Some info =>
      if existsb (relation_eqb rel) (e_relations info) then ents
      else dict_set obj_id
             (mkEntity (e_name info) (e_attributes info)
                       (e_relations info ++ [rel]) (e_isA info)) ents
  | None => ents
  end.

Definition mirror_of (eid : string) (rel_info : Relation RawValue) : Relation RawValue :=
  mkRelation (r_relation rel_info)
             (if String.eqb (r_direction rel_info) "backward" then "forward" else "backward")
             eid
             (r_qualifiers rel_info).

(** Step 2: relations whose object is a concept are mirrored onto the
    concept. The relation list iterated is the entity's own; concept and
    entity identifiers are distinct in the input, so it is never the list
    appended to. *)
Definition mirror_relations (kb : RawKB) (ents : Store RawValue) : Store RawValue :=
  fold_left
    (fun ents (p : string * Entity RawValue) =>
       fold_left
         (fun ents rel_info =>
            let obj_id := r_object rel_info in
            if dict_mem obj_id (kb_concepts kb)
            then add_mirror obj_id (mirror_of (fst p) rel_info) ents
            else ents)
         (e_relations (snd p)) ents)
    (kb_entities kb) ents.

(** Step 3: the name index and the concept index. *)
Definition dd_list_append `{Countable K} {A} (k : K) (a : A)
    (m : gmap K (list A)) : gmap K (list A) :=
  <[k := default [] (m !! k) ++ [a]]> m.

Definition dd_set_add `{Countable K} (k : K) (a : string)
    (m : gmap K (gset string)) : gmap K (gset string) :=
  <[k := {[a]} ∪ default ∅ (m !! k)]> m.

Definition index_step {V} (ents : Store V)
    (st : gmap string (list string) * gmap string (gset string))
    (p : string * Entity V) : gmap string (list string) * gmap string (gset string) :=
  let ent_id := fst p in
  (dd_list_append (e_name (snd p)) ent_id (fst st),
   fold_left (fun c2e c => dd_set_add c ent_id c2e) (get_all_concepts ents ent_id) (snd st)).

Definition build_name_concept_index {V} (ents : Store V)
  : gmap string (list string) * gmap string (gset string) :=
  fold_left (index_step ents) ents (∅, ∅).

(** [{k: list(v) for k, v in self.concept_to_entity.items()}] *)
Definition build_concept_to_entity {V} (ents : Store V) : gmap string (list string) :=
  elements <$> snd (build_name_concept_index ents).

(** Step 4: one pass over the store fills the key types and the inverted
    indices. *)
Record ScanState : Type := mkScanState {
  s_key_type : gmap string VType;
  s_attribute_inv_index : gmap string (gmap string (list nat));
  s_relation_inv_index : gmap (string * string) (gmap string (list nat));
  s_forward_relation_index : gmap (string * string) (list nat);
}.

Definition empty_scan : ScanState := mkScanState ∅ ∅ ∅ ∅.

(** [index[k][ent_id].append(idx)] on a [defaultdict] of [defaultdict(list)]. *)
Definition inv_append `{Countable K} (k : K) (ent_id : string) (idx : nat)
    (m : gmap K (gmap string (list nat))) : gmap K (gmap string (list nat)) :=
  <[k := dd_list_append ent_id idx (default ∅ (m !! k))]> m.

(** [for qk in quals: for qv in quals[qk]: self.key_type[qk] = qv["type"]] *)
Definition scan_qualifiers (quals : odict (list RawValue))
    (kt : gmap string VType) : gmap string VType :=
  fold_left (fun kt (p : string * list RawValue) =>
               fold_left (fun kt qv => <[fst p := raw_type qv]> kt) (snd p) kt)
            quals kt.

Definition scan_attribute (ent_id : string) (idx : nat)
    (attr_info : Attribute RawValue) (st : ScanState) : ScanState :=
  let kt := <[a_key attr_info := raw_type (a_value attr_info)]> (s_key_type st) in
  mkScanState (scan_qualifiers (a_qualifiers attr_info) kt)
              (inv_append (a_key attr_info) ent_id idx (s_attribute_inv_index st))
              (s_relation_inv_index st)
              (s_forward_relation_index st).

Definition scan_relation (ent_id : string) (idx : nat)
    (rel_info : Relation RawValue) (st : ScanState) : ScanState :=
  mkScanState (scan_qualifiers (r_qualifiers rel_info) (s_key_type st))
              (s_attribute_inv_index st)
              (inv_append (r_relation rel_info, r_direction rel_info) ent_id idx
                          (s_relation_inv_index st))
              (if String.eqb (r_direction rel_info) "forward"
               then dd_list_append (ent_id, r_object rel_info) idx
                                   (s_forward_relation_index st)
               else s_forward_relation_index st).

(** [for idx, x in enumerate(l)], counting from [idx]. *)
Fixpoint for_enumerate {A St} (body : nat → A → St → St) (idx : nat) (l : list A)
    (st : St) : St :=
  match l with
  | [] => st
  | x :: l' => for_enumerate body (S idx) l' (body idx x st)
  end.

Definition scan_entity (st : ScanState) (p : string * Entity RawValue) : ScanState :=
  let st := for_enumerate (scan_attribute (fst p)) O (e_attributes (snd p)) st in
  for_enumerate (scan_relation (fst p)) O (e_relations (snd p)) st.

Definition scan_store (ents : Store RawValue) : ScanState :=
  fold_left scan_entity ents empty_scan.

(** [{k: v if v != "year" else "date" for k, v in self.key_type.items()}] *)
Definition normalise_type (v : VType) : VType :=
  match v with
  | TYear => TDate
  | _ => v
  end.

Definition build_key_type (ents : Store RawValue) : gmap string VType :=
  normalise_type <$> s_key_type (scan_store ents).

(** The values observed for the keys, in the order the pass meets them:
    each attribute's value, then its qualifier values, then the qualifier
    values of the relations. *)
Definition qualifier_observations (quals : odict (list RawValue)) : list (string * VType) :=
  flat_map (fun p : string * list RawValue => map (fun qv => (fst p, raw_type qv)) (snd p)) quals.

Definition entity_observations (info : Entity RawValue) : list (string * VType) :=
  flat_map (fun a => (a_key a, raw_type (a_value a)) :: qualifier_observations (a_qualifiers a))
           (e_attributes info)
  ++ flat_map (fun r => qualifier_observations (r_qualifiers r)) (e_relations info).

Definition observations (ents : Store RawValue) : list (string * VType) :=
  flat_map (fun p : string * Entity RawValue => entity_observations (snd p)) ents.

(** The types observed for the key [k], oldest first. *)
Definition observed_types (k : string) (ents : Store RawValue) : list VType :=
  map snd (filter (fun p : string * VType => String.eqb (fst p) k) (observations ents)).

(** *** The constructed knowledge base

    The fields the primitives read. [name_to_id] and the three inverted
    indices are [defaultdict]s; [concept_to_entity] and [key_type] are plain
    dicts. The fields no primitive reads ([concepts], [attribute_keys],
    [relations], the [entity_set_*] lists and the seen-value statistics) are
    left out. *)
Record KB : Type := mkKB {
  entities : Store ValueClass;
  name_to_id : gmap string (list string);
  concept_to_entity : gmap string (list string);
  key_type : gmap string VType;
  attribute_inv_index : gmap string (gmap string (list nat));
  relation_inv_index : gmap (string * string) (gmap string (list nat));
  forward_relation_index : gmap (string * string) (list nat);
}.

Definition set_name_to_id (m : gmap string (list string)) (kb : KB) : KB :=
  mkKB (entities kb) m (concept_to_entity kb) (key_type kb)
       (attribute_inv_index kb) (relation_inv_index kb) (forward_relation_index kb).

Definition set_attribute_inv_index (m : gmap string (gmap string (list nat))) (kb : KB) : KB :=
  mkKB (entities kb) (name_to_id kb) (concept_to_entity kb) (key_type kb)
       m (relation_inv_index kb) (forward_relation_index kb).

Definition set_relation_inv_index (m : gmap (string * string) (gmap string (list nat)))
    (kb : KB) : KB :=
  mkKB (entities kb) (name_to_id kb) (concept_to_entity kb) (key_type kb)
       (attribute_inv_index kb) m (forward_relation_index kb).

Definition set_forward_relation_index (m : gmap (string * string) (list nat)) (kb : KB) : KB :=
  mkKB (entities kb) (name_to_id kb) (concept_to_entity kb) (key_type kb)
       (attribute_inv_index kb) (relation_inv_index kb) m.

(** ** The engine ([kopl.py])

    A primitive runs against the knowledge base it may change: indexing a
    [defaultdict] with a missing key stores the default under that key. A
    computation returns its result, or the exception raised, together with
    the knowledge base as it is left. *)

Definition M (A : Type) : Type := KB → result A * KB.

Definition ret {A} (a : A) : M A := fun kb => (Ok a, kb).

Definition lift {A} (r : result A) : M A := fun kb => (r, kb).

Definition bind {A B} (m : M A) (k : A → M B) : M B :=
  fun kb =>
    match m kb with
    | (Ok a, kb') => k a kb'
    | (Raise e, kb') => (Raise e, kb')
    end.

Notation "'let!' x ':=' m 'in' k" := (bind m (fun x => k))
  (at level 10, x pattern, m at level 100, k at level 200).

(** [for x in l: st = body(x, st)] *)
Fixpoint for_each {A St} (l : list A) (body : A → St → M St) (st : St) : M St :=
  match l with
  | [] => ret st
  | x :: l' => let! st' := body x st in for_each l' body st'
  end.

(** [m[k]] on a [defaultdict]. *)
Definition dd_get `{Countable K} {A} (dflt : A) (k : K) (m : gmap K A) : A * gmap K A :=
  match m !! k with
  | Some v => (v, m)
  | None => (dflt, <[k := dflt]> m)
  end.

(** [m[k][ent_id]] on a [defaultdict] of [defaultdict(list)]. *)
Definition dd_get2 `{Countable K} (k : K) (ent_id : string)
    (m : gmap K (gmap string (list nat))) : list nat * gmap K (gmap string (list nat)) :=
  let '(inner, m1) := dd_get ∅ k m in
  let '(positions, inner') := dd_get [] ent_id inner in
  (positions, <[k := inner']> m1).

(** [self.kb.name_to_id[name]] *)
Definition name_to_id_at (name : string) : M (list string) :=
  fun kb =>
    let '(ids, m) := dd_get [] name (name_to_id kb) in
    (Ok ids, set_name_to_id m kb).

(** [self.kb.attribute_inv_index[key].keys()] *)
Definition attribute_inv_index_keys (key : string) : M (gset string) :=
  fun kb =>
    let '(inner, m) := dd_get ∅ key (attribute_inv_index kb) in
    (Ok (dom inner), set_attribute_inv_index m kb).

(** [self.kb.attribute_inv_index[key][ent_id]] *)
Definition attribute_inv_index_at (key ent_id : string) : M (list nat) :=
  fun kb =>
    let '(positions, m) := dd_get2 key ent_id (attribute_inv_index kb) in
    (Ok positions, set_attribute_inv_index m kb).

(** [self.kb.relation_inv_index[(relation, direction)].keys()] *)
Definition relation_inv_index_keys (key : string * string) : M (gset string) :=
  fun kb =>
    let '(inner, m) := dd_get ∅ key (relation_inv_index kb) in
    (Ok (dom inner), set_relation_inv_index m kb).

(** [self.kb.relation_inv_index[(relation, direction)][ent_id]] *)
Definition relation_inv_index_at (key : string * string) (ent_id : string) : M (list nat) :=
  fun kb =>
    let '(positions, m) := dd_get2 key ent_id (relation_inv_index kb) in
    (Ok positions, set_relation_inv_index m kb).

(** [self.kb.forward_relation_index[(s, t)]] *)
Definition forward_relation_index_at (key : string * string) : M (list nat) :=
  fun kb =>
    let '(positions, m) := dd_get [] key (forward_relation_index kb) in
    (Ok positions, set_forward_relation_index m kb).

(** [self.kb.entities[ent_id]] *)
Definition entity_at (ent_id : string) : M (Entity ValueClass) :=
  fun kb =>
    match dict_get ent_id (entities kb) with
    | Some info => (Ok info, kb)
    | None => (Raise KeyError, kb)
    end.

(** [l[idx]] for [idx >= 0] *)
Definition list_at {A} (l : list A) (idx : nat) : result A :=
  match nth_error l idx with
  | Some x => Ok x
  | None => Raise IndexError
  end.

(** [self.kb.entities[ent_id]["attributes"][idx]] *)
Definition attribute_at (ent_id : string) (idx : nat) : M (Attribute ValueClass) :=
  let! info := entity_at ent_id in lift (list_at (e_attributes info) idx).

(** [self.kb.entities[ent_id]["relations"][idx]] *)
Definition relation_at (ent_id : string) (idx : nat) : M (Relation ValueClass) :=
  let! info := entity_at ent_id in lift (list_at (e_relations info) idx).

(** A fact: the attribute or relation record carried beside an entity id. *)
Inductive Fact : Type :=
| FAttr (attr_info : Attribute ValueClass)
| FRel (rel_info : Relation ValueClass).

(** [f["qualifiers"]] *)
Definition fact_qualifiers (f : Fact) : odict (list ValueClass) :=
  match f with
  | FAttr a => a_qualifiers a
  | FRel r => r_qualifiers r
  end.

(** [(entity_ids, facts)], with [facts] possibly [None]. *)
Definition EntityTuple : Type := list string * option (list Fact).

Definition FindAll : M EntityTuple :=
  fun kb => (Ok (dict_keys (entities kb), None), kb).

Definition Find (name : string) : M EntityTuple :=
  let! entity_ids := name_to_id_at name in
  ret (entity_ids, None).

Definition FilterConcept (entities : EntityTuple) (concept_name : string) : M EntityTuple :=
  let entity_ids := fst entities in
  let! concept_ids := name_to_id_at concept_name in
  fun kb =>
    let entity_ids_2 :=
      flat_map (fun i => default [] (concept_to_entity kb !! i)) concept_ids in
    (Ok (elements ((list_to_set entity_ids : gset string) ∩ list_to_set entity_ids_2), None),
     kb).

Definition Relate (entities : EntityTuple) (relation direction : string) : M EntityTuple :=
  let entity_ids := fst entities in
  let! keys := relation_inv_index_keys (relation, direction) in
  let entity_ids_set := elements ((list_to_set entity_ids : gset string) ∩ keys) in
  let! res :=
    for_each entity_ids_set
      (fun ent_id res =>
         let! positions := relation_inv_index_at (relation, direction) ent_id in
         for_each positions
           (fun idx (res : list string * list Fact) =>
              let! rel_info := relation_at ent_id idx in
              ret (fst res ++ [r_object rel_info], snd res ++ [FRel rel_info]))
           res)
      ([], []) in
  ret (fst res, Some (snd res)).

Definition And (l_entities r_entities : EntityTuple) : EntityTuple :=
  (elements ((list_to_set (fst l_entities) : gset string) ∩ list_to_set (fst r_entities)),
   None).

Definition Or (l_entities r_entities : EntityTuple) : EntityTuple :=
  (elements ((list_to_set (fst l_entities) : gset string) ∪ list_to_set (fst r_entities)),
   None).

Definition QueryName (entities : EntityTuple) : M (list string) :=
  for_each (fst entities)
    (fun entity_id res =>
       let! info := entity_at entity_id in
       ret (res ++ [e_name info]))
    [].

Definition Count (entities : EntityTuple) : Z :=
  Z.of_nat (length (fst entities)).

(** [(ent_id, attr_info["value"])] for every attribute of [entity_ids]
    stored under [key], appended to [candidates]. *)
Definition collect_candidates (entity_ids : list string) (key : string)
    (candidates : list (string * ValueClass)) : M (list (string * ValueClass)) :=
  for_each entity_ids
    (fun ent_id candidates =>
       let! positions := attribute_inv_index_at key ent_id in
       for_each positions
         (fun idx candidates =>
            let! attr_info := attribute_at ent_id idx in
            ret (candidates ++ [(ent_id, a_value attr_info)]))
         candidates)
    candidates.

Definition is_quantity (v : ValueClass) : bool :=
  match v with VQuantity _ _ => true | _ => false end.

(** [x.unit]: [None] on a value that is not a quantity. *)
Definition unit_of (v : ValueClass) : option string :=
  match v with VQuantity _ u => Some u | _ => None end.

(** [unit_cnt[u] += 1] on a [defaultdict(int)], keys in first-seen order. *)
Fixpoint count_incr (u : option string) (cnt : list (option string * nat))
  : list (option string * nat) :=
  match cnt with
  | [] => [(u, 1%nat)]
  | (u', n) :: cnt' =>
      if decide (u' = u) then (u', S n) :: cnt' else (u', n) :: count_incr u cnt'
  end.

(** [Counter(unit_cnt).most_common()[0][0]]: the first-seen key among those
    of the largest count. *)
Fixpoint most_common_first (cnt : list (option string * nat))
  : option (option string * nat) :=
  match cnt with
  | [] => None
  | (u, n) :: cnt' =>
      match most_common_first cnt' with
      | Some (u', n') => if (n <? n')%nat then Some (u', n') else Some (u, n)
      | None => Some (u, n)
      end
  end.

Definition common_unit_of (candidates : list (string * ValueClass))
  : result (option string) :=
  let unit_cnt := fold_left (fun cnt x => count_incr (unit_of (snd x)) cnt) candidates [] in
  match most_common_first unit_cnt with
  | Some (u, _) => Ok u
  | None => Raise IndexError
  end.

(** [sorted(candidates, key=lambda x: x[1])], as a stable insertion sort
    on [__lt__]. *)
Fixpoint sorted_insert (x : string * ValueClass) (l : list (string * ValueClass))
  : result (list (string * ValueClass)) :=
  match l with
  | [] => Ok [x]
  | y :: l' =>
      let? b := __lt__ (snd x) (snd y) in
      if b then Ok (x :: y :: l')
      else let? r := sorted_insert x l' in Ok (y :: r)
  end.

Fixpoint sorted_by_value (l acc : list (string * ValueClass))
  : result (list (string * ValueClass)) :=
  match l with
  | [] => Ok acc
  | x :: l' => let? acc' := sorted_insert x acc in sorted_by_value l' acc'
  end.

(** The quantity candidates of the most common unit, sorted. *)
Definition rank_candidates (candidates : list (string * ValueClass))
  : result (list (string * ValueClass) * list (string * ValueClass)) :=
  let candidates := filter (fun x => is_quantity (snd x)) candidates in
  let? common_unit := common_unit_of candidates in
  let candidates :=
    filter (fun x => bool_decide (unit_of (snd x) = common_unit)) candidates in
  let? sort := sorted_by_value candidates [] in
  Ok (candidates, sort).

Definition SelectBetween (l_entities r_entities : EntityTuple) (key op : string)
  : M string :=
  let! candidates := collect_candidates (fst l_entities) key [] in
  let! candidates := collect_candidates (fst r_entities) key candidates in
  let! ranked := lift (rank_candidates candidates) in
  let sort := snd ranked in
  let! x := lift (if String.eqb op "less" then list_at sort 0
                  else list_at sort (length sort - 1)) in
  let! info := entity_at (fst x) in
  ret (e_name info).

Definition SelectAmong (entities : EntityTuple) (key op : string) : M (list string) :=
  let entity_ids_set := elements (list_to_set (fst entities) : gset string) in
  let! candidates := collect_candidates entity_ids_set key [] in
  let! ranked := lift (rank_candidates candidates) in
  let sort := snd ranked in
  let! x := lift (if String.eqb op "smallest" then list_at sort 0
                  else list_at sort (length sort - 1)) in
  let! names :=
    for_each (fst ranked)
      (fun iv names =>
         if __eq__ (snd iv) (snd x)
         then let! info := entity_at (fst iv) in ret (names ++ [e_name info])
         else ret names)
      [] in
  ret (elements (list_to_set names : gset string)).

Definition QueryAttr (entities : EntityTuple) (key : string) : M (list ValueClass) :=
  for_each (fst entities)
    (fun ent_id res =>
       let! positions := attribute_inv_index_at key ent_id in
       for_each positions
         (fun idx res =>
            let! attr_info := attribute_at ent_id idx in
            ret (res ++ [a_value attr_info]))
         res)
    [].

(** [for qk, qvs in quals.items(): if qk == qkey: res += qvs] *)
Definition qualifier_values (quals : odict (list ValueClass)) (qkey : string)
  : list ValueClass :=
  flat_map (fun p : string * list ValueClass =>
              if String.eqb (fst p) qkey then snd p else []) quals.

Definition QueryRelation (s_entities t_entities : EntityTuple) : M (list string) :=
  for_each (fst s_entities)
    (fun entity_id_1 res =>
       for_each (fst t_entities)
         (fun entity_id_2 res =>
            let! positions := forward_relation_index_at (entity_id_1, entity_id_2) in
            for_each positions
              (fun idx res =>
                 let! rel_info := relation_at entity_id_1 idx in
                 ret (res ++ [r_relation rel_info]))
              res)
         res)
    [].

Definition QueryRelationQualifier (s_entities t_entities : EntityTuple)
    (relation qkey : string) : M (list ValueClass) :=
  for_each (fst s_entities)
    (fun entity_id_1 res =>
       for_each (fst t_entities)
         (fun entity_id_2 res =>
            let! positions := forward_relation_index_at (entity_id_1, entity_id_2) in
            for_each positions
              (fun idx res =>
                 let! rel_info := relation_at entity_id_1 idx in
                 if String.eqb (r_relation rel_info) relation
                 then ret (res ++ qualifier_values (r_qualifiers rel_info) qkey)
                 else ret res)
              res)
         res)
    [].

(** *** Literals

    Python's [int(s)] and [float(s)] on a [str] are taken as given; [None]
    stands for the [ValueError] they raise. *)

Section Parsing.

Variable py_int : string → option Z.
Variable py_float : string → option float.

Definition int_of (s : string) : result Z :=
  match py_int s with
  | Some n => Ok n
  | None => Raise ValueError
  end.

Definition float_of (s : string) : result float :=
  match py_float s with
  | Some x => Ok x
  | None => Raise ValueError
  end.

(** The temporal branch shared by [_parse_key_value] and [_parse_value]:
    a date when a separator is present, a year otherwise. *)
Definition parse_time (value : string) : result ValueClass :=
  if char_in "/"%char value
     || (char_in "-"%char value
         && negb (match value with
                  | String c _ => Ascii.eqb "-"%char c
                  | EmptyString => false
                  end))
  then
    let split_char := if char_in "/"%char value then "/"%char else "-"%char in
    match find_char split_char value, rfind_char split_char value with
    | Some p1, Some p2 =>
        let? y := int_of (slice 0 p1 value) in
        let? m := int_of (slice (S p1) p2 value) in
        let? d := int_of (slice_from (S p2) value) in
        let? dt := mk_date y m d in
        Ok (VDate dt)
    | _, _ => Raise ValueError
    end
  else
    let? n := int_of value in Ok (VYear n).

Definition _parse_key_value (kb : KB) (key : option string) (value : string)
    (typ : option VType) : result ValueClass :=
  let? typ :=
    match typ with
    | Some t => Ok t
    | None =>
        match key with
        | None => Raise ValueError
        | Some k =>
            match key_type kb !! k with
            | Some t => Ok t
            | None => Raise KeyError
            end
        end
    end in
  match typ with
  | TString => Ok (VString value)
  | TQuantity =>
      if char_in " "%char value then
        match split_ws value with
        | [] => Raise IndexError
        | v :: rest =>
            let? x := float_of v in Ok (VQuantity x (join " " rest))
        end
      else
        let? x := float_of value in Ok (VQuantity x "1")
  | _ => parse_time value
  end.

(** [_parse_key_value] as a step of a primitive: it reads [self.kb.key_type]. *)
Definition parse_key_value (key : option string) (value : string)
    (typ : option VType) : M ValueClass :=
  fun kb => (_parse_key_value kb key value typ, kb).

(** [KB._parse_value] *)
Definition _parse_value (value : RawValue) : result ValueClass :=
  match value with
  | RawString s => Ok (VString s)
  | RawQuantity x u => Ok (VQuantity x u)
  | RawDate x | RawYear x => parse_time x
  end.

(** [v.can_compare(tgt) and comp(v, tgt, op)] *)
Definition matches (v tgt : ValueClass) (op : string) : result bool :=
  if can_compare v tgt then comp v tgt op else Ok false.

Definition _filter_attribute (entity_ids : list string) (tgt_key tgt_value op : string)
    (typ : VType) : M EntityTuple :=
  let! tgt_value_obj := parse_key_value (Some tgt_key) tgt_value (Some typ) in
  let! keys := attribute_inv_index_keys tgt_key in
  let entity_ids_set := elements ((list_to_set entity_ids : gset string) ∩ keys) in
  let! res :=
    for_each entity_ids_set
      (fun ent_id res =>
         let! positions := attribute_inv_index_at tgt_key ent_id in
         for_each positions
           (fun idx (res : list string * list Fact) =>
              let! attr_info := attribute_at ent_id idx in
              if String.eqb (a_key attr_info) tgt_key then
                let! b := lift (matches (a_value attr_info) tgt_value_obj op) in
                if b then ret (fst res ++ [ent_id], snd res ++ [FAttr attr_info])
                else ret res
              else ret res)
           res)
      ([], []) in
  ret (fst res, Some (snd res)).

Definition FilterStr (entities : EntityTuple) (key value : string) : M EntityTuple :=
  _filter_attribute (fst entities) key value "=" TString.

Definition FilterNum (entities : EntityTuple) (key value op : string) : M EntityTuple :=
  _filter_attribute (fst entities) key value op TQuantity.

Definition FilterYear (entities : EntityTuple) (key value op : string) : M EntityTuple :=
  _filter_attribute (fst entities) key value op TYear.

Definition FilterDate (entities : EntityTuple) (key value op : string) : M EntityTuple :=
  _filter_attribute (fst entities) key value op TDate.

(** [for qv in qvs: if qv.can_compare(tgt) and comp(qv, tgt, op): ...; break]:
    whether the loop reaches its body. *)
Fixpoint any_match (qvs : list ValueClass) (tgt : ValueClass) (op : string) : result bool :=
  match qvs with
  | [] => Ok false
  | qv :: qvs' =>
      let? b := matches qv tgt op in
      if b then Ok true else any_match qvs' tgt op
  end.

(** [zip(entity_ids, facts)] *)
Fixpoint zip {A B} (l : list A) (l' : list B) : list (A * B) :=
  match l, l' with
  | x :: r, y :: r' => (x, y) :: zip r r'
  | _, _ => []
  end.

(** [for x in l: st = body(x, st)] where the body may raise. *)
Fixpoint rfor_each {A St} (l : list A) (body : A → St → result St) (st : St) : result St :=
  match l with
  | [] => Ok st
  | x :: l' => let? st' := body x st in rfor_each l' body st'
  end.

Definition _filter_qualifier (entity_ids : list string) (facts : option (list Fact))
    (tgt_key tgt_value op : string) (typ : VType) : M EntityTuple :=
  match facts with
  | None => ret ([], Some [])
  | Some facts =>
      let! tgt_value_obj := parse_key_value (Some tgt_key) tgt_value (Some typ) in
      let! res :=
        lift (rfor_each (zip entity_ids facts)
                (fun '(i, f) res =>
                   rfor_each (fact_qualifiers f)
                     (fun '(qk, qvs) (res : list string * list Fact) =>
                        if String.eqb qk tgt_key then
                          let? b := any_match qvs tgt_value_obj op in
                          if b then Ok (fst res ++ [i], snd res ++ [f]) else Ok res
                        else Ok res)
                     res)
                ([], [])) in
      ret (fst res, Some (snd res))
  end.

Definition QFilterStr (entities : EntityTuple) (qkey qvalue : string) : M EntityTuple :=
  _filter_qualifier (fst entities) (snd entities) qkey qvalue "=" TString.

Definition QFilterNum (entities : EntityTuple) (qkey qvalue op : string) : M EntityTuple :=
  _filter_qualifier (fst entities) (snd entities) qkey qvalue op TQuantity.

Definition QFilterYear (entities : EntityTuple) (qkey qvalue op : string) : M EntityTuple :=
  _filter_qualifier (fst entities) (snd entities) qkey qvalue op TYear.

Definition QFilterDate (entities : EntityTuple) (qkey qvalue op : string) : M EntityTuple :=
  _filter_qualifier (fst entities) (snd entities) qkey qvalue op TDate.

(** The qualifier loop of [QueryAttrUnderCondition]: the value of [flag]. *)
Fixpoint qualifier_flag (quals : odict (list ValueClass)) (qkey : string)
    (qvalue_obj : ValueClass) : result bool :=
  match quals with
  | [] => Ok false
  | (qk, qvs) :: quals' =>
      let? flag := (if String.eqb qk qkey then any_match qvs qvalue_obj "=" else Ok false) in
      if flag then Ok true else qualifier_flag quals' qkey qvalue_obj
  end.

Definition QueryAttrUnderCondition (entities : EntityTuple) (key qkey qvalue : string)
  : M (list ValueClass) :=
  let! qvalue_obj := parse_key_value (Some qkey) qvalue None in
  for_each (fst entities)
    (fun ent_id res =>
       let! positions := attribute_inv_index_at key ent_id in
       for_each positions
         (fun idx res =>
            let! attr_info := attribute_at ent_id idx in
            let! flag := lift (qualifier_flag (a_qualifiers attr_info) qkey qvalue_obj) in
            if flag then ret (res ++ [a_value attr_info]) else ret res)
         res)
    [].

(** The [match] list of [_verify]. *)
Fixpoint match_list (attr_values : list ValueClass) (value : ValueClass) (op : string)
  : result (list nat) :=
  match attr_values with
  | [] => Ok []
  | attr_value :: rest =>
      let? b := matches attr_value value op in
      let? r := match_list rest value op in
      Ok ((if b then 1%nat else 0%nat) :: r)
  end.

Definition verdict (match_ : list nat) : string :=
  if (1 <=? list_sum match_)%nat && (list_sum match_ =? length match_)%nat then "yes"
  else if (list_sum match_ =? 0)%nat then "no"
  else "not sure".

Definition _verify (s_value : list ValueClass) (t_value op : string) (typ : VType)
  : M string :=
  let! value := parse_key_value None t_value (Some typ) in
  let! match_ := lift (match_list s_value value op) in
  ret (verdict match_).

Definition VerifyStr (s_value : list ValueClass) (t_value : string) : M string :=
  _verify s_value t_value "=" TString.

Definition VerifyNum (s_value : list ValueClass) (t_value op : string) : M string :=
  _verify s_value t_value op TQuantity.

Definition VerifyYear (s_value : list ValueClass) (t_value op : string) : M string :=
  _verify s_value t_value op TYear.

Definition VerifyDate (s_value : list ValueClass) (t_value op : string) : M string :=
  _verify s_value t_value op TDate.

Definition QueryAttrQualifier (entities : EntityTuple) (key value qkey : string)
  : M (list ValueClass) :=
  let! value_obj := parse_key_value (Some key) value None in
  for_each (fst entities)
    (fun ent_id res =>
       let! positions := attribute_inv_index_at key ent_id in
       for_each positions
         (fun idx res =>
            let! attr_info := attribute_at ent_id idx in
            if String.eqb (a_key attr_info) key then
              let! b := lift (matches (a_value attr_info) value_obj "=") in
              if b then ret (res ++ qualifier_values (a_qualifiers attr_info) qkey)
              else ret res
            else ret res)
         res)
    [].

(** *** A primitive invocation with arguments of the right shape, and what
    it returns. *)
Inductive PrimCall : Type :=
| CallFindAll
| CallFind (name : string)
| CallFilterConcept (entities : EntityTuple) (concept_name : string)
| CallFilterStr (entities : EntityTuple) (key value : string)
| CallFilterNum (entities : EntityTuple) (key value op : string)
| CallFilterYear (entities : EntityTuple) (key value op : string)
| CallFilterDate (entities : EntityTuple) (key value op : string)
| CallQFilterStr (entities : EntityTuple) (qkey qvalue : string)
| CallQFilterNum (entities : EntityTuple) (qkey qvalue op : string)
| CallQFilterYear (entities : EntityTuple) (qkey qvalue op : string)
| CallQFilterDate (entities : EntityTuple) (qkey qvalue op : string)
| CallRelate (entities : EntityTuple) (relation direction : string)
| CallAnd (l_entities r_entities : EntityTuple)
| CallOr (l_entities r_entities : EntityTuple)
| CallQueryName (entities : EntityTuple)
| CallCount (entities : EntityTuple)
| CallSelectBetween (l_entities r_entities : EntityTuple) (key op : string)
| CallSelectAmong (entities : EntityTuple) (key op : string)
| CallQueryAttr (entities : EntityTuple) (key : string)
| CallQueryAttrUnderCondition (entities : EntityTuple) (key qkey qvalue : string)
| CallVerifyStr (s_value : list ValueClass) (t_value : string)
| CallVerifyNum (s_value : list ValueClass) (t_value op : string)
| CallVerifyYear (s_value : list ValueClass) (t_value op : string)
| CallVerifyDate (s_value : list ValueClass) (t_value op : string)
| CallQueryRelation (s_entities t_entities : EntityTuple)
| CallQueryAttrQualifier (entities : EntityTuple) (key value qkey : string)
| CallQueryRelationQualifier (s_entities t_entities : EntityTuple) (relation qkey : string).

Inductive Obj : Type :=
| OEntities (entities : EntityTuple)
| OValues (values : list ValueClass)
| ONames (names : list string)
| OStr (s : string)
| OInt (n : Z).

Definition fmapM {A B} (f : A → B) (m : M A) : M B :=
  let! a := m in ret (f a).

Definition run_prim (c : PrimCall) : M Obj :=
  match c with
  | CallFindAll => fmapM OEntities FindAll
  | CallFind name => fmapM OEntities (Find name)
  | CallFilterConcept e n => fmapM OEntities (FilterConcept e n)
  | CallFilterStr e k v => fmapM OEntities (FilterStr e k v)
  | CallFilterNum e k v op => fmapM OEntities (FilterNum e k v op)
  | CallFilterYear e k v op => fmapM OEntities (FilterYear e k v op)
  | CallFilterDate e k v op => fmapM OEntities (FilterDate e k v op)
  | CallQFilterStr e k v => fmapM OEntities (QFilterStr e k v)
  | CallQFilterNum e k v op => fmapM OEntities (QFilterNum e k v op)
  | CallQFilterYear e k v op => fmapM OEntities (QFilterYear e k v op)
  | CallQFilterDate e k v op => fmapM OEntities (QFilterDate e k v op)
  | CallRelate e r d => fmapM OEntities (Relate e r d)
  | CallAnd l r => ret (OEntities (And l r))
  | CallOr l r => ret (OEntities (Or l r))
  | CallQueryName e => fmapM ONames (QueryName e)
  | CallCount e => ret (OInt (Count e))
  | CallSelectBetween l r k op => fmapM OStr (SelectBetween l r k op)
  | CallSelectAmong e k op => fmapM ONames (SelectAmong e k op)
  | CallQueryAttr e k => fmapM OValues (QueryAttr e k)
  | CallQueryAttrUnderCondition e k qk qv => fmapM OValues (QueryAttrUnderCondition e k qk qv)
  | CallVerifyStr s t => fmapM OStr (VerifyStr s t)
  | CallVerifyNum s t op => fmapM OStr (VerifyNum s t op)
  | CallVerifyYear s t op => fmapM OStr (VerifyYear s t op)
  | CallVerifyDate s t op => fmapM OStr (VerifyDate s t op)
  | CallQueryRelation s t => fmapM ONames (QueryRelation s t)
  | CallQueryAttrQualifier e k v qk => fmapM OValues (QueryAttrQualifier e k v qk)
  | CallQueryRelationQualifier s t r qk => fmapM OValues (QueryRelationQualifier s t r qk)
  end.

(** *** Construction, steps 4 to 6 of [KB.__init__]: values are parsed
    entity by entity, after the entity has been indexed. *)
Definition parse_qualifiers (quals : odict (list RawValue))
  : result (odict (list ValueClass)) :=
  rfor_each quals
    (fun '(qk, qvs) acc =>
       let? vs := rfor_each qvs (fun qv vs => let? v := _parse_value qv in Ok (vs ++ [v])) [] in
       Ok (acc ++ [(qk, vs)]))
    [].

Definition parse_attribute (attr_info : Attribute RawValue) : result (Attribute ValueClass) :=
  let? v := _parse_value (a_value attr_info) in
  let? quals := parse_qualifiers (a_qualifiers attr_info) in
  Ok (mkAttribute (a_key attr_info) v quals).

Definition parse_relation (rel_info : Relation RawValue) : result (Relation ValueClass) :=
  let? quals := parse_qualifiers (r_qualifiers rel_info) in
  Ok (mkRelation (r_relation rel_info) (r_direction rel_info) (r_object rel_info) quals).

Definition parse_entity (info : Entity RawValue) : result (Entity ValueClass) :=
  let? attrs :=
    rfor_each (e_attributes info)
      (fun a acc => let? a' := parse_attribute a in Ok (acc ++ [a'])) [] in
  let? rels :=
    rfor_each (e_relations info)
      (fun r acc => let? r' := parse_relation r in Ok (acc ++ [r'])) [] in
  Ok (mkEntity (e_name info) attrs rels (e_isA info)).

Fixpoint scan_and_parse (items : Store RawValue) (st : ScanState)
  : result (ScanState * Store ValueClass) :=
  match items with
  | [] => Ok (st, [])
  | (ent_id, info) :: rest =>
      let st' := scan_entity st (ent_id, info) in
      let? info' := parse_entity info in
      let? r := scan_and_parse rest st' in
      Ok (fst r, (ent_id, info') :: snd r)
  end.

(** [hash(v)] is [hash(str(v))], and [__str__] takes [int(self.value)] of
    a quantity: it raises on a value that is not finite. *)
Definition hash_value (v : ValueClass) : result unit :=
  match v with
  | VQuantity x _ =>
      if PrimFloat.is_nan x then Raise ValueError
      else if PrimFloat.is_infinity x then Raise OverflowError
      else Ok tt
  | _ => Ok tt
  end.

Definition hash_qualifiers (quals : odict (list ValueClass)) : result unit :=
  rfor_each quals
    (fun '(_, qvs) _ => rfor_each qvs (fun qv _ => hash_value qv) tt) tt.

(** Step 6, the seen-value statistics: every attribute value and every
    qualifier value enters a [set], which hashes it. The statistics
    themselves are read by no primitive. *)
Definition seen_values (ents : Store ValueClass) : result unit :=
  rfor_each ents
    (fun '(_, ent_info) _ =>
       let? _ :=
         rfor_each (e_attributes ent_info)
           (fun attr_info _ =>
              let? _ := hash_value (a_value attr_info) in
              hash_qualifiers (a_qualifiers attr_info)) tt in
       rfor_each (e_relations ent_info)
         (fun rel_info _ => hash_qualifiers (r_qualifiers rel_info)) tt)
    tt.

(** [KB.__init__] *)
Definition KB_init (kb : RawKB) : result KB :=
  let ents := mirror_relations kb (merge_concepts kb) in
  let idx := build_name_concept_index ents in
  let? r := scan_and_parse ents empty_scan in
  let? _ := seen_values (snd r) in
  Ok (mkKB (snd r)
           (fst idx)
           (elements <$> snd idx)
           (normalise_type <$> s_key_type (fst r))
           (s_attribute_inv_index (fst r))
           (s_relation_inv_index (fst r))
           (s_forward_relation_index (fst r))).

End Parsing.

(** ** Dependency inference (the first loop of [forward]) *)

Definition is_sentinel (p : string) : bool :=
  String.eqb p "<START>" || String.eqb p "<END>" || String.eqb p "<PAD>".

Definition is_leaf (p : string) : bool :=
  String.eqb p "FindAll" || String.eqb p "Find".

Definition is_binary (p : string) : bool :=
  String.eqb p "And" || String.eqb p "Or" || String.eqb p "SelectBetween"
  || String.eqb p "QueryRelation" || String.eqb p "QueryRelationQualifier".

(** [branch_stack[-1]] *)
Definition stack_top (branch_stack : list Z) : result Z :=
  match last branch_stack with
  | Some t => Ok t
  | None => Raise IndexError
  end.

(** The loop's state: [dependency] and [branch_stack], both growing at the end. *)
Definition InferState : Type := list (list Z) * list Z.

(** One iteration at position [i] on primitive [p]. *)
Definition infer_step (st : InferState) (i : Z) (p : string) : result InferState :=
  let '(dependency, branch_stack) := st in
  if is_sentinel p then Ok (dependency ++ [[]], branch_stack)
  else if is_leaf p then Ok (dependency ++ [[]], branch_stack ++ [i - 1])
  else if is_binary p then
    let? top := stack_top branch_stack in
    Ok (dependency ++ [[top; i - 1]], removelast branch_stack)
  else Ok (dependency ++ [[i - 1]], branch_stack).

(** [for i, p in enumerate(program)], counting from [i]. *)
Fixpoint infer_loop (i : Z) (program : list string) (st : InferState) : result InferState :=
  match program with
  | [] => Ok st
  | p :: program' =>
      let? st' := infer_step st i p in
      infer_loop (i + 1) program' st'
  end.

(** [["<START>"] + program + ["<END>"]] *)
Definition bracket (program : list string) : list string :=
  "<START>"%string :: program ++ ["<END>"%string].

Definition infer_dependency (program : list string) : result (list (list Z)) :=
  let? st := infer_loop 0 (bracket program) ([], []) in
  Ok (fst st).

(** ** Literal readers for the examples

    [int(s)] and [float(s)] on the plain decimal integer literals the
    examples below use: an optional sign followed by digits. *)

Definition digit_of (c : ascii) : option Z :=
  let n := nat_of_ascii c in
  if ((48 <=? n) && (n <=? 57))%nat then Some (Z.of_nat n - 48) else None.

Fixpoint digits_value (acc : Z) (s : string) : option Z :=
  match s with
  | EmptyString => Some acc
  | String c s' =>
      match digit_of c with
      | Some d => digits_value (10 * acc + d) s'
      | None => None
      end
  end.

Definition int_of_decimal (s : string) : option Z :=
  match s with
  | EmptyString => None
  | String c s' =>
      if Ascii.eqb c "-"%char then
        (if String.eqb s' "" then None else Z.opp <$> digits_value 0 s')
      else if Ascii.eqb c "+"%char then
        (if String.eqb s' "" then None else digits_value 0 s')
      else digits_value 0 s
  end.

Definition float_of_Z (z : Z) : float :=
  if z <? 0 then PrimFloat.opp (PrimFloat.of_uint63 (Uint63.of_Z (- z)))
  else PrimFloat.of_uint63 (Uint63.of_Z z).

Definition float_of_decimal (s : string) : option float :=
  float_of_Z <$> int_of_decimal s.

(** ** Notions the properties are stated with *)

(** The operators [comp] documents. *)
Definition valid_op (op : string) : Prop :=
  op = "="%string ∨ op = "!="%string ∨ op = "<"%string ∨ op = ">"%string.

(** [v] is comparable to [target] and the operator holds. *)
Definition satisfies (v target : ValueClass) (op : string) : Prop :=
  can_compare v target = true ∧ comp v target op = Ok true.

(** The indicator the [match] list holds for [v]. *)
Definition indicator (v target : ValueClass) (op : string) : nat :=
  match matches v target op with
  | Ok true => 1%nat
  | _ => 0%nat
  end.

(** The arguments [_verify] receives from each verification primitive. *)
Definition verify_call (c : PrimCall) : option (list ValueClass * string * string * VType) :=
  match c with
  | CallVerifyStr s t => Some (s, t, "="%string, TString)
  | CallVerifyNum s t op => Some (s, t, op, TQuantity)
  | CallVerifyYear s t op => Some (s, t, op, TYear)
  | CallVerifyDate s t op => Some (s, t, op, TDate)
  | _ => None
  end.

(** The state of the inference loop after the first [i] positions of the
    bracketed program. *)
Definition infer_prefix (i : nat) (program : list string) : result InferState :=
  infer_loop 0 (firstn i (bracket program)) ([], []).

(** The [isA] graph of a store: an edge leads from a stored entity to each
    stored member of its [isA] list. *)
Definition stored {V} (ents : Store V) (x : string) : Prop :=
  is_Some (dict_get x ents).

Definition isA_edge {V} (ents : Store V) (a b : string) : Prop :=
  ∃ info, dict_get a ents = Some info ∧ b ∈ e_isA info ∧ stored ents b.

(** The [isA] graph without its self-loops. *)
Definition isA_step {V} (ents : Store V) (a b : string) : Prop :=
  isA_edge ents a b ∧ a ≠ b.

(** [c] is reached from a stored direct parent of [e] other than [e]. *)
Definition reached_from_parent {V} (ents : Store V) (e c : string) : Prop :=
  ∃ info p,
    dict_get e ents = Some info ∧ p ∈ e_isA info ∧ p ≠ e
    ∧ stored ents p ∧ rtc (isA_edge ents) p c.

(** What a [defaultdict] lookup may leave behind: [m'] is [m] with empty
    lists stored under some keys that were missing. *)
Definition dd_ext `{Countable K} {A} (m m' : gmap K (list A)) : Prop :=
  ∀ k, m' !! k = m !! k ∨ (m !! k = None ∧ m' !! k = Some []).

Definition dd_ext2 `{Countable K} {A} (m m' : gmap K (gmap string (list A))) : Prop :=
  ∀ k, (is_Some (m !! k) → is_Some (m' !! k))
       ∧ dd_ext (default ∅ (m !! k)) (default ∅ (m' !! k)).

(** The knowledge base [kb'] holds what [kb] held: the store and the plain
    dicts are the same, the [defaultdict] indices differ at most by empty
    entries. *)
Record kb_frame (kb kb' : KB) : Prop := mk_kb_frame {
  frame_entities : entities kb' = entities kb;
  frame_concept_to_entity : concept_to_entity kb' = concept_to_entity kb;
  frame_key_type : key_type kb' = key_type kb;
  frame_name_to_id : dd_ext (name_to_id kb) (name_to_id kb');
  frame_attribute_inv_index : dd_ext2 (attribute_inv_index kb) (attribute_inv_index kb');
  frame_relation_inv_index : dd_ext2 (relation_inv_index kb) (relation_inv_index kb');
  frame_forward_relation_index :
    dd_ext (forward_relation_index kb) (forward_relation_index kb');
}.

(** A computation that leaves the knowledge base within its frame. *)
Definition preserves {A} (m : M A) : Prop := ∀ kb, kb_frame kb (snd (m kb)).

(** No entity is listed under [name], [key] or [(relation, direction)]. *)
Definition unknown_name (kb : KB) (name : string) : Prop :=
  default [] (name_to_id kb !! name) = [].

Definition unknown_key (kb : KB) (key : string) : Prop :=
  ∀ ent_id, default [] (default ∅ (attribute_inv_index kb !! key) !! ent_id) = [].

Definition unknown_relation (kb : KB) (relation direction : string) : Prop :=
  ∀ ent_id,
    default [] (default ∅ (relation_inv_index kb !! (relation, direction)) !! ent_id) = [].

(** [self.key_type[k] = t] for each observation in turn. *)
Definition write_types (obs : list (string * VType)) (kt : gmap string VType)
  : gmap string VType :=
  fold_left (fun kt (p : string * VType) => <[fst p := snd p]> kt) obs kt.

(** The types among [obs] that were observed for [k], oldest first. *)
Definition types_of (k : string) (obs : list (string * VType)) : list VType :=
  map snd (filter (fun p : string * VType => String.eqb (fst p) k) obs).

(** ** Example inputs *)

(** The knowledge base of two people: Alice (180 cm, spouse of Bob) and
    Bob (175 cm, born 1960-02-01), both instances of [person]. *)
Definition example_raw : RawKB :=
  mkRawKB
    [("P", mkRawConcept "person" [])]
    [("A", mkEntity "Alice"
             [mkAttribute "height" (RawQuantity (float_of_Z 180) "cm") []]
             [mkRelation "spouse" "forward" "B" []]
             ["P"]);
     ("B", mkEntity "Bob"
             [mkAttribute "height" (RawQuantity (float_of_Z 175) "cm") [];
              mkAttribute "birth_date" (RawDate "1960-02-01") []]
             []
             ["P"])]%string.

(** One entity whose key [inception] holds a year and then a string. *)
Definition mixed_raw : RawKB :=
  mkRawKB
    []
    [("E", mkEntity "Acme"
             [mkAttribute "inception" (RawYear "1960") [];
              mkAttribute "inception" (RawString "unknown") []]
             []
             [])]%string.

(** Two concepts that are subclasses of each other, and an instance. *)
Definition cyclic_raw : RawKB :=
  mkRawKB
    [("C1", mkRawConcept "one" ["C2"]); ("C2", mkRawConcept "two" ["C1"])]
    [("E", mkEntity "thing" [] [] ["C1"])]%string.

(** A concept that is a subclass of itself. *)
Definition self_loop_raw : RawKB :=
  mkRawKB [("C", mkRawConcept "loop" ["C"])] []%string.

Definition empty_kb : KB := mkKB [] ∅ ∅ ∅ ∅ ∅ ∅.

(** ** Notions for the further properties *)

(** The test [_parse_key_value] and [_parse_value] make for a date:
    ["/" in x or ("-" in x and "-" != x[0])]. *)
Definition has_separator (value : string) : bool :=
  char_in "/"%char value
  || (char_in "-"%char value
      && negb (match value with
               | String c _ => Ascii.eqb "-"%char c
               | EmptyString => false
               end)).

(** A date [datetime.date] accepts. *)
Definition valid_date (d : date) : Prop :=
  1 <= year d <= 9999 ∧ 1 <= month d <= 12 ∧ 1 <= day d <= days_in_month (year d) (month d).

(** The literal a primitive hands to [_parse_key_value], with the key and
    the type it passes; [None] when it parses nothing. *)
Definition parsed_literal (c : PrimCall) : option (option string * string * option VType) :=
  match c with
  | CallFilterStr _ k v => Some (Some k, v, Some TString)
  | CallFilterNum _ k v _ => Some (Some k, v, Some TQuantity)
  | CallFilterYear _ k v _ => Some (Some k, v, Some TYear)
  | CallFilterDate _ k v _ => Some (Some k, v, Some TDate)
  | CallQFilterStr (_, Some _) k v => Some (Some k, v, Some TString)
  | CallQFilterNum (_, Some _) k v _ => Some (Some k, v, Some TQuantity)
  | CallQFilterYear (_, Some _) k v _ => Some (Some k, v, Some TYear)
  | CallQFilterDate (_, Some _) k v _ => Some (Some k, v, Some TDate)
  | CallQueryAttrUnderCondition _ _ qk qv => Some (Some qk, qv, None)
  | CallQueryAttrQualifier _ k v _ => Some (Some k, v, None)
  | CallVerifyStr _ t => Some (None, t, Some TString)
  | CallVerifyNum _ t _ => Some (None, t, Some TQuantity)
  | CallVerifyYear _ t _ => Some (None, t, Some TYear)
  | CallVerifyDate _ t _ => Some (None, t, Some TDate)
  | _ => None
  end.

(** The number of members of [l] that pass the test [f]. *)
Fixpoint count_where (f : string → bool) (l : list string) : nat :=
  match l with
  | [] => O
  | p :: l' => if f p then S (count_where f l') else count_where f l'
  end.

(** Every binary combinator is met with a branch open: the primitives
    before it hold more leaves than binary combinators. [h] counts the
    branches open at the start. *)
Definition open_branch_at (h : nat) (l : list string) : Prop :=
  ∀ j p, l !! j = Some p → is_binary p = true →
         (count_where is_binary (take j l) < h + count_where is_leaf (take j l))%nat.

(** The positions of [l], counted from [idx], whose element passes [f]. *)
Fixpoint positions_from {A} (f : A → bool) (idx : nat) (l : list A) : list nat :=
  match l with
  | [] => []
  | x :: l' => if f x then idx :: positions_from f (S idx) l' else positions_from f (S idx) l'
  end.

(** The attributes and the relations of [ent_id] in the store, none when it
    is not stored. *)
Definition attributes_of {V} (ents : Store V) (ent_id : string) : list (Attribute V) :=
  match dict_get ent_id ents with
  | Some info => e_attributes info
  | None => []
  end.

Definition relations_of {V} (ents : Store V) (ent_id : string) : list (Relation V) :=
  match dict_get ent_id ents with
  | Some info => e_relations info
  | None => []
  end.

(** What a lookup with default reads from the indices. *)
Definition read_list `{Countable K} {A} (m : gmap K (list A)) (k : K) : list A :=
  default [] (m !! k).

Definition read_inv `{Countable K} (m : gmap K (gmap string (list nat)))
    (k : K) (ent_id : string) : list nat :=
  default [] (default ∅ (m !! k) !! ent_id).

(** The three inverted indices list, for every entity, exactly the
    positions of its attributes and relations that match the index key, in
    increasing order. *)
Record index_consistent (kb : KB) : Prop := mk_index_consistent {
  consistent_attribute :
    ∀ key ent_id,
      read_inv (attribute_inv_index kb) key ent_id
      = positions_from (fun a => String.eqb (a_key a) key) O
          (attributes_of (entities kb) ent_id);
  consistent_relation :
    ∀ relation direction ent_id,
      read_inv (relation_inv_index kb) (relation, direction) ent_id
      = positions_from
          (fun r => String.eqb (r_relation r) relation
                    && String.eqb (r_direction r) direction) O
          (relations_of (entities kb) ent_id);
  consistent_forward :
    ∀ ent_id obj,
      read_list (forward_relation_index kb) (ent_id, obj)
      = positions_from
          (fun r => String.eqb (r_direction r) "forward"
                    && String.eqb (r_object r) obj) O
          (relations_of (entities kb) ent_id);
}.

(** The ids of the entries of the store whose name is [name], in store
    order. *)
Definition ids_named {V} (name : string) (ents : Store V) : list string :=
  flat_map (fun p : string * Entity V =>
              if String.eqb (e_name (snd p)) name then [fst p] else []) ents.

(** The values of the attributes of [ent_id] stored under [key], in the
    order of its attribute list. *)
Definition attribute_values (ents : Store ValueClass) (key ent_id : string)
  : list ValueClass :=
  map a_value
      (List.filter (fun a => String.eqb (a_key a) key) (attributes_of ents ent_id)).

(** The forward relations of [s] whose object is [t], in the order of its
    relation list. *)
Definition relations_between (ents : Store ValueClass) (s t : string)
  : list (Relation ValueClass) :=
  List.filter (fun r => String.eqb (r_direction r) "forward" && String.eqb (r_object r) t)
              (relations_of ents s).

(** The relations of [ent_id] with the given label and direction, in the
    order of its relation list. *)
Definition relations_matching (ents : Store ValueClass) (relation direction ent_id : string)
  : list (Relation ValueClass) :=
  List.filter (fun r => String.eqb (r_relation r) relation
                        && String.eqb (r_direction r) direction)
              (relations_of ents ent_id).

(** [v.can_compare(tgt) and comp(v, tgt, op)] holds. *)
Definition holds (v tgt : ValueClass) (op : string) : bool :=
  match matches v tgt op with
  | Ok true => true
  | _ => false
  end.

(** The attributes of [ent_id] stored under [key] whose value matches the
    target, in the order of its attribute list. *)
Definition attribute_hits (ents : Store ValueClass) (key : string) (tgt : ValueClass)
    (op : string) (ent_id : string) : list (Attribute ValueClass) :=
  List.filter (fun a => String.eqb (a_key a) key && holds (a_value a) tgt op)
              (attributes_of ents ent_id).

(** The attributes of [ent_id] stored under [key] that carry a qualifier
    [qkey] with a value equal to the target. *)
Definition attributes_under (ents : Store ValueClass) (key qkey : string)
    (tgt : ValueClass) (ent_id : string) : list (Attribute ValueClass) :=
  List.filter (fun a => String.eqb (a_key a) key
                        && existsb (fun p : string * list ValueClass =>
                                      String.eqb (fst p) qkey
                                      && existsb (fun qv => holds qv tgt "=") (snd p))
                                   (a_qualifiers a))
              (attributes_of ents ent_id).

(** [r'] is the relation [rel_info] of [eid] seen from its object: the same
    label, the opposite direction, [eid] as object. *)
Definition is_mirror {V W} (eid : string) (rel_info : Relation V) (r' : Relation W) : Prop :=
  r_relation r' = r_relation rel_info
  ∧ r_direction r'
    = (if String.eqb (r_direction rel_info) "backward" then "forward" else "backward")%string
  ∧ r_object r' = eid.

(** The fact of the pair carries the qualifier [key] with a value that is
    comparable to the target and satisfies the operator. *)
Definition qualifier_kept (key : string) (tgt : ValueClass) (op : string)
    (p : string * Fact) : bool :=
  existsb (fun q : string * list ValueClass =>
             String.eqb (fst q) key && existsb (fun qv => holds qv tgt op) (snd q))
          (fact_qualifiers (snd p)).

(** [hash(v)] returns: a quantity is neither NaN nor infinite. *)
Definition finite_value (v : ValueClass) : Prop :=
  match v with
  | VQuantity x _ => PrimFloat.is_nan x = false ∧ PrimFloat.is_infinity x = false
  | _ => True
  end.

Definition finite_qualifiers (quals : odict (list ValueClass)) : Prop :=
  ∀ qk qvs qv, (qk, qvs) ∈ quals → qv ∈ qvs → finite_value qv.

(** The pairs of an entity of [ids] and the value of one of its attributes
    under [key], for the values that are quantities. *)
Definition quantity_candidates (ents : Store ValueClass) (key : string)
    (ids : list string) : list (string * ValueClass) :=
  filter (fun x : string * ValueClass => is_quantity (snd x))
         (flat_map (fun e => map (fun a => (e, a_value a))
                               (List.filter (fun a => String.eqb (a_key a) key)
                                            (attributes_of ents e))) ids).

(** ** A further example input *)

(** A writer: Alice, 180 cm as of 2000, whose occupation since 1990 is the
    concept [writer]. *)
Definition annotated_raw : RawKB :=
  mkRawKB
    [("W", mkRawConcept "writer" [])]
    [("A", mkEntity "Alice"
             [mkAttribute "height" (RawQuantity (float_of_Z 180) "cm")
                          [("point_in_time", [RawYear "2000"])]]
             [mkRelation "occupation" "forward" "W" [("start_time", [RawYear "1990"])]]
             ["W"])]%string.

(** * Properties *)

(** ** Typed values *)

Lemma comp_eq_never_raises a b :
  ∃ r, comp a b "=" = Ok r ∧ comp a b "!=" = Ok (negb r).
Proof.
  unfold comp. destruct (isTime b); simpl; eauto.
Qed.

(** C1. On temporal values [comp] with "=" is containment only: a date and
    a year of the same year are equal either way round, but two years, and
    two dates, are never equal, not even to themselves; "!=" is the negation
    throughout. The last two conjuncts evaluate the code where equal fields
    should compare equal. *)
Theorem comp_temporal_equality :
  (∀ y m d,
      comp (VDate (Date y m d)) (VYear y) "=" = Ok true
      ∧ comp (VYear y) (VDate (Date y m d)) "=" = Ok true)
  ∧ (∀ n n', comp (VYear n) (VYear n') "=" = Ok false)
  ∧ (∀ d d', comp (VDate d) (VDate d') "=" = Ok false)
  ∧ (∀ a b r, comp a b "=" = Ok r → comp a b "!=" = Ok (negb r))
  ∧ comp (VYear 1960) (VYear 1960) "=" = Ok false
  ∧ comp (VDate (Date 1960 2 1)) (VDate (Date 1960 2 1)) "=" = Ok false.
Proof.
  repeat split; try reflexivity.
  - unfold comp; simpl. now rewrite Z.eqb_refl.
  - unfold comp; simpl. now rewrite Z.eqb_refl.
  - intros a b r Hr. destruct (comp_eq_never_raises a b) as (r' & H1 & H2).
    congruence.
Qed.

(** C2. Between two strings "<" raises, but ">" returns the lexicographic
    comparison; the last conjunct evaluates the code on ["b" > "a"]. *)
Theorem comp_string_ordering :
  (∀ s s', comp (VString s) (VString s') "<" = Raise Exception_)
  ∧ (∀ s s', comp (VString s) (VString s') ">" = Ok (str_gt s s'))
  ∧ comp (VString "b") (VString "a") ">" = Ok true.
Proof. repeat split. Qed.

Lemma comp_bad_op a b op :
  op ≠ "="%string → op ≠ "!="%string → op ≠ "<"%string → op ≠ ">"%string →
  comp a b op = Raise TypeError.
Proof.
  intros H1 H2 H3 H4. unfold comp.
  apply String.eqb_neq in H1, H2, H3, H4. rewrite H1, H2, H3, H4.
  now rewrite !andb_false_r.
Qed.


(** ** Set algebra *)

Lemma size_list_to_set_remove_dups (l : list string) :
  size (list_to_set l : gset string) = length (remove_dups l).
Proof.
  rewrite <- (size_list_to_set (C := gset string) (remove_dups l))
    by apply NoDup_remove_dups.
  f_equal. apply set_eq. intros x.
  rewrite !elem_of_list_to_set. symmetry. apply elem_of_remove_dups.
Qed.

(** C9. [Count(Or(A, B))] is the cardinality of the union of the two id
    sets, that is the number of distinct ids occurring in [A] or in [B];
    the ids of [Or(A, B)] are those of [A] and of [B], each listed once. *)
Theorem count_or_union (A B : EntityTuple) :
  Count (Or A B)
  = Z.of_nat (size ((list_to_set (fst A) : gset string) ∪ list_to_set (fst B)))
  ∧ Count (Or A B) = Z.of_nat (length (remove_dups (fst A ++ fst B)))
  ∧ (∀ x, x ∈ fst (Or A B) ↔ x ∈ fst A ∨ x ∈ fst B)
  ∧ NoDup (fst (Or A B)).
Proof.
  unfold Count, Or; simpl. repeat split.
  - rewrite <- size_list_to_set_remove_dups, list_to_set_app_L. reflexivity.
  - rewrite elem_of_elements, elem_of_union, !elem_of_list_to_set. tauto.
  - rewrite elem_of_elements, elem_of_union, !elem_of_list_to_set. tauto.
  - apply NoDup_elements.
Qed.

(** ** Dependency inference *)

Lemma infer_loop_cons p l i st :
  infer_loop i (p :: l) st = rbind (infer_step st i p) (infer_loop (i + 1) l).
Proof. reflexivity. Qed.

Lemma infer_loop_app l1 l2 i st :
  infer_loop i (l1 ++ l2) st
  = rbind (infer_loop i l1 st) (infer_loop (i + Z.of_nat (length l1)) l2).
Proof.
  revert i st. induction l1 as [|p l1 IH]; intros i st; simpl.
  - now rewrite Z.add_0_r.
  - destruct (infer_step st i p) as [st'|e]; simpl; [|reflexivity].
    rewrite IH. do 2 f_equal. lia.
Qed.

Lemma infer_step_deps st i p st' :
  infer_step st i p = Ok st' → ∃ dep, fst st' = fst st ++ [dep].
Proof.
  destruct st as [d s]. unfold infer_step.
  destruct (is_sentinel p); [intros [= <-]; simpl; eauto|].
  destruct (is_leaf p); [intros [= <-]; simpl; eauto|].
  destruct (is_binary p); [|intros [= <-]; simpl; eauto].
  destruct (stack_top s); simpl; [intros [= <-]; simpl; eauto|discriminate].
Qed.

Lemma infer_loop_deps l i st st' :
  infer_loop i l st = Ok st' →
  ∃ dl, fst st' = fst st ++ dl ∧ length dl = length l.
Proof.
  revert i st. induction l as [|p l IH]; intros i st; simpl.
  - intros [= <-]. exists []. now rewrite app_nil_r.
  - destruct (infer_step st i p) as [st1|e] eqn:Hs; simpl; [|discriminate].
    intros H. apply IH in H as (dl & Hd & Hl).
    apply infer_step_deps in Hs as (dep & Hs).
    exists (dep :: dl). rewrite Hd, Hs, <- app_assoc. simpl. auto.
Qed.

Lemma is_sentinel_spec p :
  is_sentinel p = true ↔ p ∈ ["<START>"; "<END>"; "<PAD>"]%string.
Proof.
  unfold is_sentinel. rewrite !orb_true_iff, !String.eqb_eq.
  rewrite !elem_of_cons, elem_of_nil. tauto.
Qed.

Lemma is_leaf_spec p : is_leaf p = true ↔ p ∈ ["FindAll"; "Find"]%string.
Proof.
  unfold is_leaf. rewrite !orb_true_iff, !String.eqb_eq.
  rewrite !elem_of_cons, elem_of_nil. tauto.
Qed.

Lemma is_binary_spec p :
  is_binary p = true
  ↔ p ∈ ["And"; "Or"; "SelectBetween"; "QueryRelation"; "QueryRelationQualifier"]%string.
Proof.
  unfold is_binary. rewrite !orb_true_iff, !String.eqb_eq.
  rewrite !elem_of_cons, elem_of_nil. tauto.
Qed.

(** C6. When inference succeeds on a program, position [i] of the bracketed
    program, holding primitive [p], is reached with some branch stack and
    left with another, and: a sentinel gets no dependency and leaves the
    stack alone; [Find] and [FindAll] get none and push [i - 1]; a binary
    combinator gets the top of the stack and [i - 1], and pops; every other
    primitive gets [i - 1] alone and leaves the stack alone. *)
Theorem infer_dependency_assignment program dependency (i : nat) p :
  infer_dependency program = Ok dependency →
  bracket program !! i = Some p →
  ∃ deps_before stack_before stack_after dep,
    infer_prefix i program = Ok (deps_before, stack_before)
    ∧ infer_prefix (S i) program = Ok (deps_before ++ [dep], stack_after)
    ∧ dependency !! i = Some dep
    ∧ (p ∈ ["<START>"; "<END>"; "<PAD>"]%string →
       dep = [] ∧ stack_after = stack_before)
    ∧ (p ∈ ["FindAll"; "Find"]%string →
       dep = [] ∧ stack_after = stack_before ++ [Z.of_nat i - 1])
    ∧ (p ∈ ["And"; "Or"; "SelectBetween"; "QueryRelation";
             "QueryRelationQualifier"]%string →
       ∃ top, last stack_before = Some top
              ∧ dep = [top; Z.of_nat i - 1]
              ∧ stack_after = removelast stack_before)
    ∧ (p ∉ ["<START>"; "<END>"; "<PAD>"; "FindAll"; "Find"; "And"; "Or";
             "SelectBetween"; "QueryRelation"; "QueryRelationQualifier"]%string →
       dep = [Z.of_nat i - 1] ∧ stack_after = stack_before).
Proof.
  intros Hinf Hp. unfold infer_dependency in Hinf.
  destruct (infer_loop 0 (bracket program) ([], [])) as [[dfin sfin]|e] eqn:Hloop;
    simpl in Hinf; [|discriminate].
  injection Hinf as <-.
  pose proof (take_drop_middle _ _ _ Hp) as Hsplit.
  rewrite <- Hsplit in Hloop.
  rewrite infer_loop_app in Hloop.
  assert (length (take i (bracket program)) = i) as Hlen.
  { apply length_take_le. apply lookup_lt_Some in Hp. lia. }
  rewrite Hlen, Z.add_0_l in Hloop.
  destruct (infer_loop 0 (take i (bracket program)) ([], [])) as [[d s]|e] eqn:Hpre;
    cbn [rbind] in Hloop; [|discriminate].
  rewrite infer_loop_cons in Hloop.
  destruct (infer_step (d, s) (Z.of_nat i) p) as [[d1 s1]|e] eqn:Hstep;
    cbn [rbind] in Hloop; [|discriminate].
  pose proof (infer_loop_deps _ _ _ _ Hpre) as (dl & Hd & Hdl). simpl in Hd.
  pose proof (infer_step_deps _ _ _ _ Hstep) as (dep & Hd1). simpl in Hd1.
  pose proof (infer_loop_deps _ _ _ _ Hloop) as (dr & Hdr & _). simpl in Hdr.
  subst d d1 dfin. rewrite Hlen in Hdl.
  exists dl, s, s1, dep.
  split; [exact Hpre|]. split.
  { unfold infer_prefix. rewrite (take_S_r _ _ _ Hp), infer_loop_app.
    rewrite Hpre, Hlen, Z.add_0_l. cbn [rbind]. rewrite infer_loop_cons, Hstep.
    reflexivity. }
  split.
  { rewrite <- app_assoc. rewrite lookup_app_r by lia.
    now replace (i - length dl)%nat with O by lia. }
  unfold infer_step in Hstep.
  rewrite <- is_sentinel_spec, <- is_leaf_spec, <- is_binary_spec.
  assert (p ∉ ["<START>"; "<END>"; "<PAD>"; "FindAll"; "Find"; "And"; "Or";
             "SelectBetween"; "QueryRelation"; "QueryRelationQualifier"]%string
          ↔ is_sentinel p = false ∧ is_leaf p = false ∧ is_binary p = false) as ->.
  { rewrite <- !not_true_iff_false, is_sentinel_spec, is_leaf_spec, is_binary_spec.
    rewrite !elem_of_cons, !elem_of_nil. tauto. }
  destruct (is_sentinel p) eqn:E1.
  { injection Hstep as Ha <-. apply app_inv_head in Ha as [= <-].
    assert (is_leaf p = false ∧ is_binary p = false) as [-> ->].
    { apply is_sentinel_spec in E1. rewrite !elem_of_cons, elem_of_nil in E1.
      destruct E1 as [->|[->|[->|[]]]]; split; reflexivity. }
    intuition discriminate. }
  destruct (is_leaf p) eqn:E2.
  { injection Hstep as Ha <-. apply app_inv_head in Ha as [= <-].
    assert (is_binary p = false) as ->.
    { apply is_leaf_spec in E2. rewrite !elem_of_cons, elem_of_nil in E2.
      destruct E2 as [->|[->|[]]]; reflexivity. }
    intuition discriminate. }
  destruct (is_binary p) eqn:E3.
  { unfold stack_top in Hstep. destruct (last s) as [top|] eqn:Hlast;
      cbn [rbind] in Hstep; [|discriminate].
    injection Hstep as Ha <-. apply app_inv_head in Ha as [= <-].
    split; [discriminate|]. split; [discriminate|].
    split; [intros _; exists top; auto|].
    intros (? & ? & ?); discriminate. }
  injection Hstep as Ha <-. apply app_inv_head in Ha as [= <-].
  intuition discriminate.
Qed.

(** ** Verification *)

Lemma matches_true v target op :
  matches v target op = Ok true ↔ satisfies v target op.
Proof.
  unfold matches, satisfies. destruct (can_compare v target); split.
  - auto.
  - now intros [_ ?].
  - discriminate.
  - now intros [? _].
Qed.

Lemma lt_never_raises a b :
  can_compare a b = true → (∀ s, b ≠ VString s) → ∃ r, __lt__ a b = Ok r.
Proof.
  intros Hc Hb. unfold __lt__. rewrite Hc. simpl.
  destruct a, b; simpl in *; try discriminate; eauto.
  now destruct (Hb value0).
Qed.

Lemma matches_ok v target op :
  valid_op op → (op = "="%string ∨ ∀ s, target ≠ VString s) →
  ∃ r, matches v target op = Ok r.
Proof.
  intros Hop Hs. unfold matches.
  destruct (can_compare v target) eqn:Hc; [|eauto].
  destruct (comp_eq_never_raises v target) as (r & He & Hn).
  destruct Hs as [->|Hs]; [eauto|].
  destruct Hop as [-> | [-> | [-> | ->]]]; eauto.
  - destruct (lt_never_raises _ _ Hc Hs) as [r' Hr]. exists r'.
    unfold comp. destruct target; simpl; exact Hr.
  - exists (__gt__ v target). unfold comp. now destruct target.
Qed.

Lemma indicator_one v target op :
  indicator v target op = 1%nat ↔ satisfies v target op.
Proof.
  rewrite <- matches_true. unfold indicator.
  destruct (matches v target op) as [[]|]; split; congruence.
Qed.

Lemma indicator_zero v target op :
  indicator v target op = 0%nat ↔ ¬ satisfies v target op.
Proof.
  rewrite <- matches_true. unfold indicator.
  destruct (matches v target op) as [[]|]; split; congruence.
Qed.

Lemma match_list_ok s_value target op :
  (∀ v, v ∈ s_value → ∃ r, matches v target op = Ok r) →
  match_list s_value target op = Ok (map (fun v => indicator v target op) s_value).
Proof.
  induction s_value as [|v l IH]; intros Hok; simpl; [reflexivity|].
  destruct (Hok v) as [r Hr]; [left|].
  rewrite IH by (intros; apply Hok; now right).
  unfold indicator. rewrite Hr. simpl. now destruct r.
Qed.

Lemma sum_indicator_le (l : list ValueClass) target op :
  (list_sum (map (fun v => indicator v target op) l) <= length l)%nat.
Proof.
  induction l as [|v l IH]; simpl; [lia|].
  assert (indicator v target op <= 1)%nat.
  { unfold indicator. destruct (matches v target op) as [[]|]; lia. }
  lia.
Qed.

Lemma sum_indicator_all (l : list ValueClass) target op :
  list_sum (map (fun v => indicator v target op) l) = length l
  ↔ ∀ v, v ∈ l → satisfies v target op.
Proof.
  induction l as [|v l IH]; simpl.
  - split; [intros _ v Hv; inversion Hv|reflexivity].
  - pose proof (sum_indicator_le l target op).
    assert (indicator v target op <= 1)%nat as Hi.
    { unfold indicator. destruct (matches v target op) as [[]|]; lia. }
    split.
    + intros Hs v' Hv'. apply elem_of_cons in Hv' as [->|Hv'].
      * apply indicator_one. lia.
      * apply IH; [lia|exact Hv'].
    + intros Hall.
      assert (indicator v target op = 1%nat) as -> by (apply indicator_one, Hall; left).
      simpl. f_equal. apply IH. intros; apply Hall; now right.
Qed.

Lemma sum_indicator_none (l : list ValueClass) target op :
  list_sum (map (fun v => indicator v target op) l) = 0%nat
  ↔ ∀ v, v ∈ l → ¬ satisfies v target op.
Proof.
  induction l as [|v l IH]; simpl.
  - split; [intros _ v Hv; inversion Hv|reflexivity].
  - split.
    + intros Hs v' Hv'. apply elem_of_cons in Hv' as [->|Hv'].
      * apply indicator_zero. lia.
      * apply IH; [lia|exact Hv'].
    + intros Hnone.
      assert (indicator v target op = 0%nat) as ->
          by (apply indicator_zero, Hnone; left).
      simpl. apply IH. intros; apply Hnone; now right.
Qed.

Lemma verdict_spec (l : list ValueClass) target op :
  let answer := verdict (map (fun v => indicator v target op) l) in
  (answer = "yes"%string ↔ l ≠ [] ∧ ∀ v, v ∈ l → satisfies v target op)
  ∧ (answer = "no"%string ↔ ∀ v, v ∈ l → ¬ satisfies v target op)
  ∧ (answer = "not sure"%string
     ↔ ¬ (l ≠ [] ∧ ∀ v, v ∈ l → satisfies v target op)
       ∧ ¬ (∀ v, v ∈ l → ¬ satisfies v target op)).
Proof.
  intros answer. subst answer. unfold verdict.
  rewrite length_map.
  pose proof (sum_indicator_all l target op) as Hall.
  pose proof (sum_indicator_none l target op) as Hnone.
  pose proof (sum_indicator_le l target op) as Hle.
  set (n := list_sum (map (fun v => indicator v target op) l)) in *.
  assert (l ≠ [] ↔ (1 <= length l)%nat) as Hne.
  { destruct l; simpl; split; try congruence; lia. }
  destruct (1 <=? n)%nat eqn:E1; [apply Nat.leb_le in E1|apply Nat.leb_gt in E1];
    simpl.
  - destruct (n =? length l)%nat eqn:E2;
      [apply Nat.eqb_eq in E2|apply Nat.eqb_neq in E2].
    + rewrite <- Hall, <- Hnone, Hne.
      repeat split; try discriminate; try lia; intros; lia.
    + assert ((n =? 0)%nat = false) as -> by (apply Nat.eqb_neq; lia).
      rewrite <- Hall, <- Hnone, Hne.
      repeat split; try discriminate; try lia; intros; lia.
  - assert ((n =? 0)%nat = true) as -> by (apply Nat.eqb_eq; lia).
    rewrite <- Hall, <- Hnone, Hne.
    repeat split; try discriminate; try lia; intros; lia.
Qed.

Section VerifyProperties.

Variable py_int : string → option Z.
Variable py_float : string → option float.

Lemma parse_time_not_string value v :
  parse_time py_int value = Ok v → ∀ s, v ≠ VString s.
Proof.
  unfold parse_time, int_of.
  destruct (_ || _).
  - destruct (find_char _ _); [|discriminate].
    destruct (rfind_char _ _); [|discriminate].
    do 3 (match goal with
          | |- context [py_int ?x] => destruct (py_int x); simpl; [|discriminate]
          end).
    destruct (mk_date _ _ _); simpl; [|discriminate].
    intros [= <-] s. discriminate.
  - destruct (py_int value); simpl; [|discriminate].
    intros [= <-] s. discriminate.
Qed.

Lemma parse_typed kb key t typ v :
  _parse_key_value py_int py_float kb key t (Some typ) = Ok v →
  typ = TString ∨ ∀ s, v ≠ VString s.
Proof.
  unfold _parse_key_value. cbn [rbind].
  destruct typ; auto; intros H; right.
  - unfold float_of in H. destruct (char_in _ t).
    + destruct (split_ws t) as [|x rest]; [discriminate|].
      destruct (py_float x); simpl in H; [|discriminate].
      injection H as <-. discriminate.
    + destruct (py_float t); simpl in H; [|discriminate].
      injection H as <-. discriminate.
  - eapply parse_time_not_string; eauto.
  - eapply parse_time_not_string; eauto.
Qed.

Lemma verify_run kb s_value t_value op typ target :
  _parse_key_value py_int py_float kb None t_value (Some typ) = Ok target →
  valid_op op → (typ = TString → op = "="%string) →
  _verify py_int py_float s_value t_value op typ kb
  = (Ok (verdict (map (fun v => indicator v target op) s_value)), kb).
Proof.
  intros Hparse Hop Hstr.
  unfold _verify, bind, parse_key_value, lift, ret. rewrite Hparse.
  rewrite match_list_ok; [reflexivity|].
  intros v _. apply matches_ok; [exact Hop|].
  destruct (parse_typed _ _ _ _ _ Hparse) as [->|Hs]; auto.
Qed.


End VerifyProperties.

(** ** Key types *)

Lemma write_types_app obs obs' kt :
  write_types (obs ++ obs') kt = write_types obs' (write_types obs kt).
Proof. apply fold_left_app. Qed.

Lemma scan_qualifiers_writes quals kt :
  scan_qualifiers quals kt = write_types (qualifier_observations quals) kt.
Proof.
  unfold scan_qualifiers, qualifier_observations.
  revert kt. induction quals as [|[qk qvs] quals IH]; intros kt; simpl; [reflexivity|].
  rewrite write_types_app, IH. f_equal. clear IH.
  revert kt. induction qvs as [|qv qvs IH]; intros kt; simpl; [reflexivity|].
  apply IH.
Qed.

Lemma scan_attributes_writes ent_id idx attrs st :
  s_key_type (for_enumerate (scan_attribute ent_id) idx attrs st)
  = write_types
      (flat_map (fun a => (a_key a, raw_type (a_value a))
                          :: qualifier_observations (a_qualifiers a)) attrs)
      (s_key_type st).
Proof.
  revert idx st. induction attrs as [|a attrs IH]; intros idx st; simpl; [reflexivity|].
  rewrite IH. unfold scan_attribute. cbn [s_key_type].
  rewrite scan_qualifiers_writes, write_types_app. reflexivity.
Qed.

Lemma scan_relations_writes ent_id idx rels st :
  s_key_type (for_enumerate (scan_relation ent_id) idx rels st)
  = write_types (flat_map (fun r => qualifier_observations (r_qualifiers r)) rels)
                (s_key_type st).
Proof.
  revert idx st. induction rels as [|r rels IH]; intros idx st; simpl; [reflexivity|].
  rewrite IH. unfold scan_relation. cbn [s_key_type].
  rewrite scan_qualifiers_writes, write_types_app. reflexivity.
Qed.

Lemma scan_entity_writes st p :
  s_key_type (scan_entity st p) = write_types (entity_observations (snd p)) (s_key_type st).
Proof.
  unfold scan_entity, entity_observations.
  now rewrite scan_relations_writes, scan_attributes_writes, write_types_app.
Qed.

Lemma scan_fold_writes ents st :
  s_key_type (fold_left scan_entity ents st)
  = write_types (observations ents) (s_key_type st).
Proof.
  unfold observations.
  revert st. induction ents as [|p ents IH]; intros st; simpl; [reflexivity|].
  now rewrite IH, scan_entity_writes, write_types_app.
Qed.

Lemma last_cons_from {A} (x : A) l :
  last (x :: l) = Some (default x (last l)).
Proof.
  revert x. induction l as [|y l IH]; intros x; [reflexivity|].
  change (last (x :: y :: l)) with (last (y :: l)). rewrite IH. reflexivity.
Qed.

Lemma write_types_lookup obs kt k :
  write_types obs kt !! k
  = match last (types_of k obs) with
    | Some t => Some t
    | None => kt !! k
    end.
Proof.
  revert kt. induction obs as [|[k0 t0] obs IH]; intros kt; [reflexivity|].
  change (write_types ((k0, t0) :: obs) kt) with (write_types obs (<[k0 := t0]> kt)).
  rewrite IH. unfold types_of. rewrite filter_cons. cbn [fst snd].
  destruct (String.eqb_spec k0 k) as [->|Hne].
  - rewrite decide_True by exact I. cbn [map snd]. rewrite last_cons_from.
    destruct (last (map snd (filter _ obs))); simpl; [reflexivity|].
    apply lookup_insert_eq.
  - rewrite decide_False by (intros []).
    destruct (last (map snd (filter _ obs))); [reflexivity|].
    now apply lookup_insert_ne.
Qed.

Lemma build_key_type_lookup ents k :
  build_key_type ents !! k = normalise_type <$> last (observed_types k ents).
Proof.
  unfold build_key_type, scan_store. rewrite lookup_fmap, scan_fold_writes.
  rewrite write_types_lookup. simpl. rewrite lookup_empty.
  fold (observed_types k ents). unfold observed_types, types_of.
  now destruct (last _).
Qed.

Section ConstructionProperties.

Variable py_int : string → option Z.

Lemma scan_and_parse_state items st st' parsed :
  scan_and_parse py_int items st = Ok (st', parsed) →
  st' = fold_left scan_entity items st.
Proof.
  revert st st' parsed. induction items as [|[ent_id info] items IH];
    intros st st' parsed; simpl.
  - now intros [= <- _].
  - destruct (parse_entity py_int info); simpl; [|discriminate].
    destruct (scan_and_parse py_int items _) as [[st1 p1]|] eqn:Hrec; simpl;
      [|discriminate].
    intros [= <- _]. eapply IH; eauto.
Qed.

Lemma KB_init_key_type raw kb :
  KB_init py_int raw = Ok kb →
  key_type kb = build_key_type (mirror_relations raw (merge_concepts raw)).
Proof.
  unfold KB_init.
  destruct (scan_and_parse py_int _ empty_scan) as [[st parsed]|] eqn:Hs; simpl;
    [|discriminate].
  destruct (seen_values parsed); simpl; [|discriminate].
  intros [= <-]. simpl. apply scan_and_parse_state in Hs. now subst st.
Qed.

(** C4 (as amended). After construction [key_type[k]] is the type of the
    value observed last for [k], with [year] turned into [date]: it is never
    [year], it exists for every key observed, and it is [date] exactly when
    that last value was a date or a year. *)
Theorem key_type_last_observed raw kb k :
  KB_init py_int raw = Ok kb →
  let ents := mirror_relations raw (merge_concepts raw) in
  key_type kb !! k = normalise_type <$> last (observed_types k ents)
  ∧ (∀ t, key_type kb !! k = Some t → t ∈ [TString; TQuantity; TDate])
  ∧ (observed_types k ents ≠ [] → is_Some (key_type kb !! k))
  ∧ (key_type kb !! k = Some TDate
     ↔ last (observed_types k ents) = Some TDate
       ∨ last (observed_types k ents) = Some TYear).
Proof.
  intros Hinit ents.
  assert (key_type kb !! k = normalise_type <$> last (observed_types k ents)) as Hk.
  { rewrite (KB_init_key_type _ _ Hinit). apply build_key_type_lookup. }
  split; [exact Hk|]. rewrite Hk. repeat split.
  - intros t. destruct (last _) as [[]|]; simpl; intros [= <-];
      rewrite !elem_of_cons; auto.
  - intros Hne. destruct (observed_types k ents) as [|t l] eqn:E; [done|].
    rewrite last_cons_from. simpl. eauto.
  - destruct (last _) as [[]|]; simpl; intros [= ]; auto.
  - intros [-> | ->]; reflexivity.
Qed.

End ConstructionProperties.

(** ** Ancestry *)

Lemma dict_get_stored {A} (d : odict A) k :
  is_Some (dict_get k d) ↔ k ∈ map fst d.
Proof.
  induction d as [|[k' a] d IH]; simpl.
  - split; [intros [? ?]; discriminate|intros H; inversion H].
  - destruct (String.eqb_spec k' k) as [->|Hne].
    + split; [intros _; left|eauto].
    + rewrite IH, elem_of_cons. split; [auto|intros [?|?]; congruence].
Qed.

Lemma get_direct_concepts_spec {V} (ents : Store V) e p :
  p ∈ get_direct_concepts ents e
  ↔ ∃ info, dict_get e ents = Some info ∧ p ∈ e_isA info ∧ p ≠ e ∧ stored ents p.
Proof.
  unfold get_direct_concepts, stored, dict_mem.
  destruct (dict_get e ents) as [info|].
  - rewrite list_elem_of_filter. split.
    + intros [Hf Hp]. exists info. apply andb_prop_elim in Hf as [Hs Hn].
      repeat split; auto.
      * intros ->. rewrite String.eqb_refl in Hn. exact Hn.
      * destruct (dict_get p ents); [eauto|destruct Hs].
    + intros (info' & [= <-] & Hp & Hne & [x Hx]). split; [|exact Hp].
      rewrite Hx. apply String.eqb_neq in Hne. rewrite Hne. exact I.
  - split; [intros H; inversion H|intros (? & ? & _); discriminate].
Qed.

(** Every member of the result was in [ancestors] or is reached from a
    stored member of the queue. *)
Lemma bfs_loop_sound {V} (ents : Store V) q ancestors c :
  c ∈ bfs_loop ents q ancestors →
  c ∈ ancestors ∨ ∃ p, p ∈ q ∧ stored ents p ∧ rtc (isA_edge ents) p c.
Proof.
  funelim (bfs_loop ents q ancestors); simp bfs_loop; rewrite <- ?Heqcall.
  - auto.
  - intros Hc. destruct (H _ Hc) as [?|(p & Hp & ?)]; [auto|].
    right. exists p. split; [now right|auto].
  - intros Hc. destruct (H _ Hc) as [?|(p & Hp & ?)]; [auto|].
    right. exists p. split; [now right|auto].
  - intros Hc. destruct (H _ Hc) as [Ha|(p & Hp & Hs & Hr)].
    + apply elem_of_union in Ha as [Ha|Ha]; [|auto].
      apply elem_of_singleton in Ha as ->. right. exists con_id.
      split; [left|]. split; [unfold stored; eauto|apply rtc_refl].
    + right. apply elem_of_app in Hp as [Hp|Hp].
      * exists p. split; [now right|auto].
      * exists con_id. split; [left|]. split; [unfold stored; eauto|].
        eapply rtc_l; [|exact Hr]. exists info. auto.
Qed.

(** When the successors of [ancestors] are in [ancestors] or queued, the
    result contains [ancestors] and the stored members of the queue, and is
    closed under the edges of the graph. *)
Lemma bfs_loop_closed {V} (ents : Store V) q ancestors :
  (∀ a b, a ∈ ancestors → isA_edge ents a b → b ∈ ancestors ∨ b ∈ q) →
  ancestors ⊆ bfs_loop ents q ancestors
  ∧ (∀ p, p ∈ q → stored ents p → p ∈ bfs_loop ents q ancestors)
  ∧ (∀ a b, a ∈ bfs_loop ents q ancestors → isA_edge ents a b →
            b ∈ bfs_loop ents q ancestors).
Proof.
  funelim (bfs_loop ents q ancestors); simp bfs_loop; rewrite <- ?Heqcall; intros Hinv.
  - repeat split; [done|intros p Hp; inversion Hp|].
    intros a b Ha Hab. destruct (Hinv a b Ha Hab) as [?|Hq]; [done|inversion Hq].
  - destruct H as (H1 & H2 & H3).
    { intros a b Ha Hab. destruct (Hinv a b Ha Hab) as [?|Hq]; [auto|].
      apply elem_of_cons in Hq as [->|?]; [|auto].
      destruct Hab as (_ & _ & _ & [x Hx]). congruence. }
    repeat split; auto. intros p Hp Hs.
    apply elem_of_cons in Hp as [->|?]; [|auto]. destruct Hs as [x Hx]. congruence.
  - destruct H as (H1 & H2 & H3).
    { intros a b Ha Hab. destruct (Hinv a b Ha Hab) as [?|Hq]; [auto|].
      apply elem_of_cons in Hq as [->|?]; auto. }
    repeat split; auto. intros p Hp Hs.
    apply elem_of_cons in Hp as [->|?]; auto.
  - destruct H as (H1 & H2 & H3).
    { intros a b Ha Hab. apply elem_of_union in Ha as [Ha|Ha].
      - apply elem_of_singleton in Ha as ->. right. apply elem_of_app. right.
        destruct Hab as (info' & Hg' & Hb & _). congruence.
      - destruct (Hinv a b Ha Hab) as [?|Hq];
          [left; apply elem_of_union; now right|].
        apply elem_of_cons in Hq as [->|?].
        + left. apply elem_of_union. left. now apply elem_of_singleton.
        + right. apply elem_of_app. auto. }
    repeat split.
    + intros x Hx. apply H1, elem_of_union. now right.
    + intros p Hp Hs. apply elem_of_cons in Hp as [->|?].
      * apply H1, elem_of_union. left. now apply elem_of_singleton.
      * apply H2; [apply elem_of_app; auto|exact Hs].
    + exact H3.
Qed.

Lemma get_all_concepts_spec {V} (ents : Store V) e c :
  c ∈ get_all_concepts_set ents e
  ↔ ∃ p, p ∈ get_direct_concepts ents e ∧ rtc (isA_edge ents) p c.
Proof.
  unfold get_all_concepts_set. split.
  - intros Hc. apply bfs_loop_sound in Hc as [Hc|(p & Hp & _ & Hr)];
      [set_solver|eauto].
  - intros (p & Hp & Hr).
    destruct (bfs_loop_closed ents (get_direct_concepts ents e) ∅) as (_ & H2 & H3);
      [set_solver|].
    assert (p ∈ bfs_loop ents (get_direct_concepts ents e) ∅) as Hin.
    { apply H2; [exact Hp|].
      apply get_direct_concepts_spec in Hp as (_ & _ & _ & _ & Hs). exact Hs. }
    clear Hp. induction Hr as [|x y z Hxy _ IH]; [exact Hin|].
    apply IH. eapply H3; eauto.
Qed.

Lemma dd_set_add_fold (cs : list string) ent_id (m : gmap string (gset string)) c x :
  x ∈ default ∅ (fold_left (fun c2e c => dd_set_add c ent_id c2e) cs m !! c)
  ↔ x ∈ default ∅ (m !! c) ∨ (x = ent_id ∧ c ∈ cs).
Proof.
  revert m. induction cs as [|c0 cs IH]; intros m; simpl.
  - split; [auto|intros [?|[_ H]]; [auto|inversion H]].
  - rewrite IH. unfold dd_set_add. destruct (decide (c0 = c)) as [->|Hne].
    + rewrite lookup_insert_eq. simpl. rewrite elem_of_union, elem_of_singleton.
      rewrite elem_of_cons. tauto.
    + rewrite lookup_insert_ne by exact Hne. rewrite elem_of_cons.
      split; [intros [?|[? ?]]; auto|intros [?|[? [?|?]]]; auto; congruence].
Qed.

Lemma index_fold_members {V} (ents0 l : Store V) st c x :
  x ∈ default ∅ (snd (fold_left (index_step ents0) l st) !! c)
  ↔ x ∈ default ∅ (snd st !! c)
    ∨ (x ∈ map fst l ∧ c ∈ get_all_concepts_set ents0 x).
Proof.
  revert st. induction l as [|[k info] l IH]; intros st; simpl.
  - split; [auto|intros [?|[H _]]; [auto|inversion H]].
  - rewrite IH. unfold index_step. cbn [fst snd].
    rewrite dd_set_add_fold. unfold get_all_concepts.
    rewrite elem_of_elements, elem_of_cons.
    split.
    + intros [[?|[-> ?]]|[? ?]]; auto.
    + intros [?|[[->|?] ?]]; auto.
Qed.

Lemma concept_index_members {V} (ents : Store V) e c :
  e ∈ default [] (build_concept_to_entity ents !! c)
  ↔ stored ents e ∧ c ∈ get_all_concepts_set ents e.
Proof.
  unfold build_concept_to_entity, build_name_concept_index.
  rewrite lookup_fmap.
  pose proof (index_fold_members ents ents (∅, ∅) c e) as H.
  cbn [snd] in H. rewrite lookup_empty in H. simpl in H.
  unfold stored. rewrite dict_get_stored.
  destruct (snd (fold_left (index_step ents) ents (∅, ∅)) !! c) as [s|]; simpl in *.
  - rewrite elem_of_elements, H. rewrite elem_of_empty. tauto.
  - rewrite elem_of_empty in H. rewrite elem_of_nil. tauto.
Qed.

(** The index built from a store: [e] is listed under [c] exactly when [c]
    is reached from a stored direct parent of [e] other than [e] itself. *)
Lemma concept_index_reach {V} (ents : Store V) e c :
  e ∈ default [] (build_concept_to_entity ents !! c)
  ↔ ∃ info p,
      dict_get e ents = Some info ∧ p ∈ e_isA info ∧ p ≠ e
      ∧ stored ents p ∧ rtc (isA_edge ents) p c.
Proof.
  rewrite concept_index_members, get_all_concepts_spec. split.
  - intros (_ & p & Hp & Hr).
    apply get_direct_concepts_spec in Hp as (info & ? & ? & ? & ?).
    exists info, p. auto.
  - intros (info & p & Hg & Hp & Hne & Hs & Hr). split; [unfold stored; eauto|].
    exists p. split; [|exact Hr]. apply get_direct_concepts_spec. eauto 6.
Qed.

Lemma tc_first_step {A} (R : relation A) x z :
  tc R x z ↔ ∃ y, R x y ∧ rtc R y z.
Proof.
  split.
  - intros H. induction H as [x y Hxy|x y z Hxy _ (w & Hyw & Hwz)].
    + exists y. split; [exact Hxy|apply rtc_refl].
    + exists y. split; [exact Hxy|]. eapply rtc_l; eauto.
  - intros (y & Hxy & Hyz). revert x Hxy.
    induction Hyz as [y|y w z Hyw _ IH]; intros x Hxy.
    + now apply tc_once.
    + eapply tc_l; eauto.
Qed.

(** The graphs of two stores with the same [isA] lists are the same. *)
Lemma isA_edge_skeleton {V W} (ents : Store V) (ents' : Store W) :
  (∀ x, e_isA <$> dict_get x ents' = e_isA <$> dict_get x ents) →
  ∀ a b, isA_edge ents a b → isA_edge ents' a b.
Proof.
  intros Hsk a b (info & Hg & Hb & [ib Hib]).
  pose proof (Hsk a) as Ha. rewrite Hg in Ha. simpl in Ha.
  destruct (dict_get a ents') as [info'|] eqn:Hg'; [|discriminate].
  injection Ha as Ha.
  exists info'. split; [exact Hg'|]. split; [now rewrite Ha|].
  pose proof (Hsk b) as Hb'. rewrite Hib in Hb'. simpl in Hb'.
  unfold stored. destruct (dict_get b ents'); [eauto|discriminate].
Qed.

Lemma reached_from_parent_skeleton {V W} (ents : Store V) (ents' : Store W) e c :
  (∀ x, e_isA <$> dict_get x ents' = e_isA <$> dict_get x ents) →
  reached_from_parent ents e c → reached_from_parent ents' e c.
Proof.
  intros Hsk (info & p & Hg & Hp & Hne & [ip Hip] & Hr).
  pose proof (Hsk e) as He. rewrite Hg in He. simpl in He.
  destruct (dict_get e ents') as [info'|] eqn:Hg'; [|discriminate].
  injection He as He.
  exists info', p. split; [exact Hg'|]. split; [now rewrite He|].
  split; [exact Hne|]. split.
  - pose proof (Hsk p) as Hp'. rewrite Hip in Hp'. simpl in Hp'.
    unfold stored. destruct (dict_get p ents'); [eauto|discriminate].
  - eapply rtc_subrel; [|exact Hr]. apply isA_edge_skeleton, Hsk.
Qed.

Lemma rtc_isA_step {V} (ents : Store V) p c :
  rtc (isA_edge ents) p c ↔ rtc (isA_step ents) p c.
Proof.
  split.
  - intros H. induction H as [|x y z Hxy _ IH]; [apply rtc_refl|].
    destruct (decide (x = y)) as [->|Hne]; [exact IH|].
    eapply rtc_l; [|exact IH]. split; auto.
  - apply rtc_subrel. now intros x y [? _].
Qed.

(** Being reached from a direct parent other than oneself is the
    transitive closure of the graph without self-loops. *)
Lemma reached_tc_step {V} (ents : Store V) e c :
  reached_from_parent ents e c ↔ tc (isA_step ents) e c.
Proof.
  rewrite tc_first_step. split.
  - intros (info & p & Hg & Hp & Hne & Hs & Hr). exists p. split.
    + split; [exists info; auto|congruence].
    + now apply rtc_isA_step.
  - intros (p & [(info & Hg & Hp & Hs) Hne] & Hr). exists info, p.
    repeat split; auto. now apply rtc_isA_step.
Qed.

Lemma reached_no_self_loop {V} (ents : Store V) e c :
  (∀ info, dict_get e ents = Some info → e ∉ e_isA info) →
  reached_from_parent ents e c ↔ tc (isA_edge ents) e c.
Proof.
  intros Hself. rewrite tc_first_step. split.
  - intros (info & p & Hg & Hp & _ & Hs & Hr). exists p. split; [|exact Hr].
    exists info. auto.
  - intros (p & (info & Hg & Hp & Hs) & Hr). exists info, p.
    repeat split; auto. intros ->. eapply Hself; eauto.
Qed.

Section AncestryProperties.

Variable py_int : string → option Z.

Lemma parse_entity_isA info info' :
  parse_entity py_int info = Ok info' → e_isA info' = e_isA info.
Proof.
  unfold parse_entity.
  destruct (rfor_each (e_attributes info) _ []); simpl; [|discriminate].
  destruct (rfor_each (e_relations info) _ []); simpl; [|discriminate].
  now intros [= <-].
Qed.

Lemma scan_and_parse_skeleton items st st' parsed :
  scan_and_parse py_int items st = Ok (st', parsed) →
  ∀ x, e_isA <$> dict_get x parsed = e_isA <$> dict_get x items.
Proof.
  revert st st' parsed. induction items as [|[ent_id info] items IH];
    intros st st' parsed; simpl.
  - now intros [= _ <-].
  - destruct (parse_entity py_int info) as [info'|] eqn:Hp; simpl; [|discriminate].
    destruct (scan_and_parse py_int items _) as [[st1 p1]|] eqn:Hrec; simpl;
      [|discriminate].
    intros [= _ <-] x. simpl.
    destruct (String.eqb ent_id x).
    + simpl. f_equal. eapply parse_entity_isA; eauto.
    + eapply IH; eauto.
Qed.

Lemma KB_init_store raw kb :
  KB_init py_int raw = Ok kb →
  concept_to_entity kb
  = build_concept_to_entity (mirror_relations raw (merge_concepts raw))
  ∧ ∀ x, e_isA <$> dict_get x (entities kb)
         = e_isA <$> dict_get x (mirror_relations raw (merge_concepts raw)).
Proof.
  unfold KB_init.
  destruct (scan_and_parse py_int _ empty_scan) as [[st parsed]|] eqn:Hs; simpl;
    [|discriminate].
  destruct (seen_values parsed); simpl; [|discriminate].
  intros [= <-]. simpl. split; [reflexivity|].
  eapply scan_and_parse_skeleton; eauto.
Qed.

(** C7 (as amended). After construction [e] is listed under [c] exactly
    when [c] belongs to the transitive closure, from [e], of the [isA]
    relation between stored entities with the self-loops ([x] in the [isA]
    of [x]) left out; for an entity that does not list itself in its own
    [isA] this is membership in the transitive [isA] closure of [e]. The
    traversal [bfs_loop] is a total function: it returns on every store,
    with cycles and self-loops or without. *)
Theorem concept_to_entity_ancestry raw kb e c :
  KB_init py_int raw = Ok kb →
  (e ∈ default [] (concept_to_entity kb !! c)
   ↔ tc (isA_step (entities kb)) e c)
  ∧ ((∀ info, dict_get e (entities kb) = Some info → e ∉ e_isA info) →
     (e ∈ default [] (concept_to_entity kb !! c)
      ↔ tc (isA_edge (entities kb)) e c)).
Proof.
  intros Hinit. destruct (KB_init_store _ _ Hinit) as [Hc Hsk].
  assert (e ∈ default [] (concept_to_entity kb !! c)
          ↔ reached_from_parent (entities kb) e c) as Hmain.
  { rewrite Hc, concept_index_reach.
    split; apply reached_from_parent_skeleton; [exact Hsk|].
    intros x. symmetry. apply Hsk. }
  split.
  - rewrite Hmain. apply reached_tc_step.
  - intros Hself. rewrite Hmain. now apply reached_no_self_loop.
Qed.

End AncestryProperties.

(** ** The frame of a primitive *)

Lemma dd_ext_refl `{Countable K} {A} (m : gmap K (list A)) : dd_ext m m.
Proof. intros k. now left. Qed.

Lemma dd_ext_trans `{Countable K} {A} (m1 m2 m3 : gmap K (list A)) :
  dd_ext m1 m2 → dd_ext m2 m3 → dd_ext m1 m3.
Proof.
  intros H12 H23 k. destruct (H12 k) as [E1|[E1 E1']], (H23 k) as [E2|[E2 E2']].
  - left. congruence.
  - right. split; congruence.
  - right. split; congruence.
  - congruence.
Qed.

Lemma dd_ext2_refl `{Countable K} {A} (m : gmap K (gmap string (list A))) : dd_ext2 m m.
Proof. intros k. split; [auto|apply dd_ext_refl]. Qed.

Lemma dd_ext2_trans `{Countable K} {A} (m1 m2 m3 : gmap K (gmap string (list A))) :
  dd_ext2 m1 m2 → dd_ext2 m2 m3 → dd_ext2 m1 m3.
Proof.
  intros H12 H23 k. destruct (H12 k) as [S1 E1], (H23 k) as [S2 E2].
  split; [auto|eapply dd_ext_trans; eauto].
Qed.

Lemma kb_frame_refl kb : kb_frame kb kb.
Proof.
  split; auto using dd_ext_refl, dd_ext2_refl.
Qed.

Lemma kb_frame_trans kb1 kb2 kb3 :
  kb_frame kb1 kb2 → kb_frame kb2 kb3 → kb_frame kb1 kb3.
Proof.
  intros [] []. split; try congruence;
    eauto using dd_ext_trans, dd_ext2_trans.
Qed.

Lemma dd_get_ext `{Countable K} {A} (k : K) (m : gmap K (list A)) :
  dd_ext m (snd (dd_get [] k m)).
Proof.
  unfold dd_get. destruct (m !! k) eqn:E; simpl; [apply dd_ext_refl|].
  intros k'. destruct (decide (k = k')) as [<-|Hne].
  - right. split; [exact E|apply lookup_insert_eq].
  - left. now apply lookup_insert_ne.
Qed.

Lemma dd_get_outer_ext `{Countable K} {A} (k : K) (m : gmap K (gmap string (list A))) :
  dd_ext2 m (snd (dd_get ∅ k m)).
Proof.
  unfold dd_get. destruct (m !! k) eqn:E; simpl; [apply dd_ext2_refl|].
  intros k'. destruct (decide (k = k')) as [<-|Hne].
  - rewrite lookup_insert_eq, E. simpl. split; [eauto|apply dd_ext_refl].
  - rewrite lookup_insert_ne by exact Hne. split; [auto|apply dd_ext_refl].
Qed.

Lemma dd_get2_ext `{Countable K} (k : K) ent_id (m : gmap K (gmap string (list nat))) :
  dd_ext2 m (snd (dd_get2 k ent_id m)).
Proof.
  unfold dd_get2.
  destruct (dd_get ∅ k m) as [inner m1] eqn:E1.
  destruct (dd_get [] ent_id inner) as [positions inner'] eqn:E2. simpl.
  assert (inner = default ∅ (m !! k)) as Hinner.
  { unfold dd_get in E1. destruct (m !! k); now injection E1 as <- _. }
  pose proof (dd_get_ext ent_id inner) as Hext. rewrite E2 in Hext. simpl in Hext.
  intros k'. destruct (decide (k = k')) as [<-|Hne].
  - rewrite lookup_insert_eq. simpl. split; [eauto|]. now rewrite <- Hinner.
  - rewrite lookup_insert_ne by exact Hne.
    pose proof (dd_get_outer_ext k m k') as Ho. now rewrite E1 in Ho.
Qed.

Lemma preserves_ret {A} (a : A) : preserves (ret a).
Proof. intros kb. apply kb_frame_refl. Qed.

Lemma preserves_lift {A} (r : result A) : preserves (lift r).
Proof. intros kb. apply kb_frame_refl. Qed.

Lemma preserves_bind {A B} (m : M A) (k : A → M B) :
  preserves m → (∀ a, preserves (k a)) → preserves (bind m k).
Proof.
  intros Hm Hk kb. unfold bind. specialize (Hm kb).
  destruct (m kb) as [[a|e] kb']; simpl in *; [|exact Hm].
  eapply kb_frame_trans; [exact Hm|apply Hk].
Qed.

Lemma preserves_for_each {A St} (l : list A) (body : A → St → M St) st :
  (∀ x s, preserves (body x s)) → preserves (for_each l body st).
Proof.
  intros Hb. revert st. induction l as [|x l IH]; intros st; simpl.
  - apply preserves_ret.
  - apply preserves_bind; auto.
Qed.

Lemma preserves_if {A} (b : bool) (m1 m2 : M A) :
  preserves m1 → preserves m2 → preserves (if b then m1 else m2).
Proof. now destruct b. Qed.

Lemma preserves_name_to_id_at name : preserves (name_to_id_at name).
Proof.
  intros kb. unfold name_to_id_at.
  pose proof (dd_get_ext name (name_to_id kb)) as H.
  destruct (dd_get [] name (name_to_id kb)) as [ids m]. simpl in *.
  split; simpl; auto using dd_ext_refl, dd_ext2_refl.
Qed.

Lemma preserves_attribute_inv_index_keys key : preserves (attribute_inv_index_keys key).
Proof.
  intros kb. unfold attribute_inv_index_keys.
  pose proof (dd_get_outer_ext key (attribute_inv_index kb)) as H.
  destruct (dd_get ∅ key (attribute_inv_index kb)) as [inner m]. simpl in *.
  split; simpl; auto using dd_ext_refl, dd_ext2_refl.
Qed.

Lemma preserves_attribute_inv_index_at key ent_id :
  preserves (attribute_inv_index_at key ent_id).
Proof.
  intros kb. unfold attribute_inv_index_at.
  pose proof (dd_get2_ext key ent_id (attribute_inv_index kb)) as H.
  destruct (dd_get2 key ent_id (attribute_inv_index kb)) as [positions m]. simpl in *.
  split; simpl; auto using dd_ext_refl, dd_ext2_refl.
Qed.

Lemma preserves_relation_inv_index_keys key : preserves (relation_inv_index_keys key).
Proof.
  intros kb. unfold relation_inv_index_keys.
  pose proof (dd_get_outer_ext key (relation_inv_index kb)) as H.
  destruct (dd_get ∅ key (relation_inv_index kb)) as [inner m]. simpl in *.
  split; simpl; auto using dd_ext_refl, dd_ext2_refl.
Qed.

Lemma preserves_relation_inv_index_at key ent_id :
  preserves (relation_inv_index_at key ent_id).
Proof.
  intros kb. unfold relation_inv_index_at.
  pose proof (dd_get2_ext key ent_id (relation_inv_index kb)) as H.
  destruct (dd_get2 key ent_id (relation_inv_index kb)) as [positions m]. simpl in *.
  split; simpl; auto using dd_ext_refl, dd_ext2_refl.
Qed.

Lemma preserves_forward_relation_index_at key :
  preserves (forward_relation_index_at key).
Proof.
  intros kb. unfold forward_relation_index_at.
  pose proof (dd_get_ext key (forward_relation_index kb)) as H.
  destruct (dd_get [] key (forward_relation_index kb)) as [positions m]. simpl in *.
  split; simpl; auto using dd_ext_refl, dd_ext2_refl.
Qed.

Lemma preserves_entity_at ent_id : preserves (entity_at ent_id).
Proof.
  intros kb. unfold entity_at.
  destruct (dict_get ent_id (entities kb)); apply kb_frame_refl.
Qed.

Lemma preserves_read {A} (f : KB → result A) : preserves (fun kb => (f kb, kb)).
Proof. intros kb. apply kb_frame_refl. Qed.

Create HintDb frame.

#[local] Hint Resolve preserves_ret preserves_lift preserves_name_to_id_at
  preserves_attribute_inv_index_keys preserves_attribute_inv_index_at
  preserves_relation_inv_index_keys preserves_relation_inv_index_at
  preserves_forward_relation_index_at preserves_entity_at preserves_read : frame.

(** Walks a primitive's body: binds, loops and branches preserve the frame
    when their parts do. *)
Ltac frame_step :=
  first
    [ apply preserves_bind; [|intros ?]
    | apply preserves_for_each; intros ? ?
    | apply preserves_if
    | match goal with
      | |- preserves (match ?x with _ => _ end) => destruct x
      end
    | solve [auto with frame] ].

Ltac frame_solve := repeat frame_step.

Lemma preserves_attribute_at ent_id idx : preserves (attribute_at ent_id idx).
Proof. unfold attribute_at. frame_solve. Qed.

Lemma preserves_relation_at ent_id idx : preserves (relation_at ent_id idx).
Proof. unfold relation_at. frame_solve. Qed.

#[local] Hint Resolve preserves_attribute_at preserves_relation_at : frame.

Lemma preserves_collect_candidates ids key cands :
  preserves (collect_candidates ids key cands).
Proof. unfold collect_candidates. frame_solve. Qed.

#[local] Hint Resolve preserves_collect_candidates : frame.

Section FrameProperties.

Variable py_int : string → option Z.
Variable py_float : string → option float.

Lemma preserves_parse_key_value key value typ :
  preserves (parse_key_value py_int py_float key value typ).
Proof. unfold parse_key_value. apply preserves_read. Qed.

#[local] Hint Resolve preserves_parse_key_value : frame.

Lemma preserves_filter_attribute ids key value op typ :
  preserves (_filter_attribute py_int py_float ids key value op typ).
Proof. unfold _filter_attribute. frame_solve. Qed.

Lemma preserves_filter_qualifier ids facts key value op typ :
  preserves (_filter_qualifier py_int py_float ids facts key value op typ).
Proof. unfold _filter_qualifier. frame_solve. Qed.

Lemma preserves_verify s t op typ : preserves (_verify py_int py_float s t op typ).
Proof. unfold _verify. frame_solve. Qed.

#[local] Hint Resolve preserves_filter_attribute preserves_filter_qualifier
  preserves_verify : frame.


End FrameProperties.

(** ** Unknown arguments *)

Lemma dd_get2_unknown `{Countable K} (k : K) ent_id
    (m : gmap K (gmap string (list nat))) :
  (∀ e, default [] (default ∅ (m !! k) !! e) = []) →
  fst (dd_get2 k ent_id m) = []
  ∧ ∀ e, default [] (default ∅ (snd (dd_get2 k ent_id m) !! k) !! e) = [].
Proof.
  intros Hun. unfold dd_get2.
  destruct (dd_get ∅ k m) as [inner m1] eqn:E1.
  assert (inner = default ∅ (m !! k)) as Hinner.
  { unfold dd_get in E1. destruct (m !! k); now injection E1 as <- _. }
  unfold dd_get. specialize (Hun ent_id) as Hent. subst inner.
  destruct (default ∅ (m !! k) !! ent_id) as [positions|] eqn:E2; simpl in *.
  - split; [exact Hent|]. intros e. rewrite lookup_insert_eq. simpl. apply Hun.
  - split; [reflexivity|]. intros e. rewrite lookup_insert_eq. simpl.
    destruct (decide (ent_id = e)) as [<-|Hne].
    + now rewrite lookup_insert_eq.
    + rewrite lookup_insert_ne by exact Hne. apply Hun.
Qed.

Lemma dd_get_outer_unknown `{Countable K} (k : K)
    (m : gmap K (gmap string (list nat))) :
  (∀ e, default [] (default ∅ (m !! k) !! e) = []) →
  ∀ e, default [] (default ∅ (snd (dd_get ∅ k m) !! k) !! e) = [].
Proof.
  intros Hun e. unfold dd_get. destruct (m !! k) eqn:E; simpl.
  - rewrite E. simpl. apply Hun.
  - rewrite lookup_insert_eq. simpl. now rewrite lookup_empty.
Qed.

(** A loop whose body returns its accumulator unchanged while [P] holds of
    the knowledge base returns the initial accumulator. *)
Lemma for_each_idle {A St} (P : KB → Prop) (l : list A) (body : A → St → M St) st kb :
  (∀ x s kb, P kb → ∃ kb', body x s kb = (Ok s, kb') ∧ P kb') →
  P kb → ∃ kb', for_each l body st kb = (Ok st, kb') ∧ P kb'.
Proof.
  intros Hb. revert kb. induction l as [|x l IH]; intros kb HP; simpl.
  - exists kb. auto.
  - destruct (Hb x st kb HP) as (kb1 & E1 & HP1).
    unfold bind. rewrite E1. apply IH, HP1.
Qed.

Lemma attribute_positions_unknown key ent_id kb :
  unknown_key kb key →
  ∃ kb', attribute_inv_index_at key ent_id kb = (Ok [], kb') ∧ unknown_key kb' key.
Proof.
  intros Hun. unfold attribute_inv_index_at.
  destruct (dd_get2_unknown key ent_id (attribute_inv_index kb) Hun) as [H1 H2].
  destruct (dd_get2 key ent_id (attribute_inv_index kb)) as [positions m].
  simpl in *. subst positions. eexists. split; [reflexivity|exact H2].
Qed.

Lemma relation_positions_unknown relation direction ent_id kb :
  unknown_relation kb relation direction →
  ∃ kb', relation_inv_index_at (relation, direction) ent_id kb = (Ok [], kb')
         ∧ unknown_relation kb' relation direction.
Proof.
  intros Hun. unfold relation_inv_index_at.
  destruct (dd_get2_unknown (relation, direction) ent_id (relation_inv_index kb) Hun)
    as [H1 H2].
  destruct (dd_get2 (relation, direction) ent_id (relation_inv_index kb))
    as [positions m].
  simpl in *. subst positions. eexists. split; [reflexivity|exact H2].
Qed.

(** A loop over the positions listed under an unknown key has nothing to
    visit. *)
Lemma attribute_loop_unknown {St} key (l : list string)
    (inner : string → nat → St → M St) st kb :
  unknown_key kb key →
  ∃ kb',
    for_each l
      (fun ent_id res =>
         let! positions := attribute_inv_index_at key ent_id in
         for_each positions (inner ent_id) res) st kb = (Ok st, kb')
    ∧ unknown_key kb' key.
Proof.
  intros Hun. apply (for_each_idle (fun kb => unknown_key kb key)); [|exact Hun].
  clear. intros ent_id s kb Hun.
  destruct (attribute_positions_unknown key ent_id kb Hun) as (kb' & E & Hun').
  exists kb'. unfold bind. rewrite E. simpl. auto.
Qed.

Lemma find_unknown name kb :
  unknown_name kb name → fst (Find name kb) = Ok ([], None).
Proof.
  unfold unknown_name, Find, bind, name_to_id_at, dd_get, ret.
  destruct (name_to_id kb !! name); simpl; [intros ->|intros _]; reflexivity.
Qed.

Lemma filter_concept_unknown ents name kb :
  unknown_name kb name → fst (FilterConcept ents name kb) = Ok ([], None).
Proof.
  unfold unknown_name, FilterConcept, bind, name_to_id_at, dd_get.
  destruct (name_to_id kb !! name); simpl; [intros ->|intros _]; simpl;
    now rewrite intersection_empty_r_L, elements_empty.
Qed.

Lemma relate_unknown ents relation direction kb :
  unknown_relation kb relation direction →
  fst (Relate ents relation direction kb) = Ok ([], Some []).
Proof.
  intros Hun. unfold Relate. unfold bind at 1.
  unfold relation_inv_index_keys.
  pose proof (dd_get_outer_unknown (relation, direction) (relation_inv_index kb) Hun)
    as Hun1.
  destruct (dd_get ∅ (relation, direction) (relation_inv_index kb)) as [inner m].
  simpl in Hun1. unfold bind at 1.
  match goal with
  | |- context [for_each ?l ?body ?st ?kb1] =>
      destruct (for_each_idle (fun kb => unknown_relation kb relation direction)
                  l body st kb1) as (kb' & E & _)
  end.
  - intros ent_id s kb0 Hun0.
    destruct (relation_positions_unknown relation direction ent_id kb0 Hun0)
      as (kb' & E & Hun').
    exists kb'. unfold bind. rewrite E. simpl. auto.
  - exact Hun1.
  - rewrite E. reflexivity.
Qed.

Lemma query_attr_unknown ents key kb :
  unknown_key kb key → fst (QueryAttr ents key kb) = Ok [].
Proof.
  intros Hun. unfold QueryAttr.
  match goal with
  | |- context [for_each ?l (fun ent_id res => bind _ (fun positions => for_each positions (@?inner ent_id) res)) ?st ?kb1] =>
      destruct (attribute_loop_unknown key l inner st kb1 Hun) as (kb' & E & _)
  end.
  now rewrite E.
Qed.

Section UnknownArguments.

Variable py_int : string → option Z.
Variable py_float : string → option float.

Lemma parse_untyped_unknown kb key value :
  key_type kb !! key = None →
  _parse_key_value py_int py_float kb (Some key) value None = Raise KeyError.
Proof. intros H. unfold _parse_key_value. now rewrite H. Qed.

Lemma filter_attribute_unknown ids key value op typ tgt kb :
  unknown_key kb key →
  _parse_key_value py_int py_float kb (Some key) value (Some typ) = Ok tgt →
  fst (_filter_attribute py_int py_float ids key value op typ kb) = Ok ([], Some []).
Proof.
  intros Hun Hparse. unfold _filter_attribute.
  unfold bind at 1. unfold parse_key_value. rewrite Hparse.
  unfold bind at 1. unfold attribute_inv_index_keys.
  pose proof (dd_get_outer_unknown key (attribute_inv_index kb) Hun) as Hun1.
  destruct (dd_get ∅ key (attribute_inv_index kb)) as [inner m].
  simpl in Hun1. unfold bind at 1.
  match goal with
  | |- context [for_each ?l (fun ent_id res => bind _ (fun positions => for_each positions (@?body ent_id) res)) ?st ?kb1] =>
      destruct (attribute_loop_unknown key l body st kb1 Hun1) as (kb' & E & _)
  end.
  now rewrite E.
Qed.

Lemma query_attr_under_condition_unknown ents key qkey qvalue tgt kb :
  unknown_key kb key →
  _parse_key_value py_int py_float kb (Some qkey) qvalue None = Ok tgt →
  fst (QueryAttrUnderCondition py_int py_float ents key qkey qvalue kb) = Ok [].
Proof.
  intros Hun Hparse. unfold QueryAttrUnderCondition.
  unfold bind at 1. unfold parse_key_value. rewrite Hparse.
  match goal with
  | |- context [for_each ?l (fun ent_id res => bind _ (fun positions => for_each positions (@?body ent_id) res)) ?st ?kb1] =>
      destruct (attribute_loop_unknown key l body st kb1 Hun) as (kb' & E & _)
  end.
  now rewrite E.
Qed.


End UnknownArguments.

(** * Further properties *)

(** ** The comparison algebra *)

(** X1. Comparability is an equivalence on values: every value is
    comparable to itself, comparability does not depend on the order of the
    two values, and it is transitive. *)
Theorem can_compare_equivalence :
  (∀ a, can_compare a a = true)
  ∧ (∀ a b, can_compare a b = can_compare b a)
  ∧ (∀ a b c, can_compare a b = true → can_compare b c = true →
              can_compare a c = true).
Proof.
  repeat apply conj.
  - intros []; simpl; auto using String.eqb_refl.
  - intros [] []; simpl; auto using String.eqb_sym.
  - intros [] [] []; simpl; try discriminate; auto.
    rewrite !String.eqb_eq. congruence.
Qed.

(** X2. [a < b] raises [AssertionError] exactly on values that are not
    comparable and the generic [Exception] exactly on two strings; on every
    other pair it returns. *)
Theorem lt_errors a b :
  (__lt__ a b = Raise AssertionError ↔ can_compare a b = false)
  ∧ (__lt__ a b = Raise Exception_ ↔ ∃ s s', a = VString s ∧ b = VString s')
  ∧ ((∃ r, __lt__ a b = Ok r)
     ↔ can_compare a b = true ∧ ∀ s, a ≠ VString s).
Proof.
  unfold __lt__. destruct a, b; simpl;
    try destruct (String.eqb unit0 unit) eqn:E; simpl;
    naive_solver.
Qed.

(** X3. Whenever [a < b] returns, [b > a] returns the same answer. *)
Theorem lt_gt_mirror a b r :
  __lt__ a b = Ok r → __gt__ b a = r.
Proof.
  unfold __lt__. destruct a, b; simpl; try discriminate.
  - destruct (String.eqb unit0 unit) eqn:E; simpl; [|discriminate].
    intros [= <-]. reflexivity.
  - intros [= <-]. apply Z.gtb_ltb.
  - intros [= <-]. apply Z.gtb_ltb.
  - intros [= <-]. apply Z.gtb_ltb.
  - intros [= <-]. reflexivity.
Qed.

(** X4. Between a date and a year, in either order, [comp] decides by the
    year alone, and exactly one of "<", "=" and ">" holds. *)
Theorem comp_cross_tag d n :
  comp (VDate d) (VYear n) "<" = Ok (year d <? n)
  ∧ comp (VDate d) (VYear n) "=" = Ok (year d =? n)
  ∧ comp (VDate d) (VYear n) ">" = Ok (n <? year d)
  ∧ comp (VYear n) (VDate d) "<" = Ok (n <? year d)
  ∧ comp (VYear n) (VDate d) "=" = Ok (year d =? n)
  ∧ comp (VYear n) (VDate d) ">" = Ok (year d <? n)
  ∧ ((year d <? n) && negb (year d =? n) && negb (n <? year d)
     || negb (year d <? n) && (year d =? n) && negb (n <? year d)
     || negb (year d <? n) && negb (year d =? n) && (n <? year d)) = true.
Proof.
  unfold comp, __lt__, __gt__; simpl. rewrite !Z.gtb_ltb.
  repeat apply conj; try reflexivity.
  destruct (Z.ltb_spec (year d) n), (Z.eqb_spec (year d) n), (Z.ltb_spec n (year d));
    simpl; try reflexivity; lia.
Qed.

(** ** Literals *)

Lemma mk_date_valid y m d dt :
  mk_date y m d = Ok dt → dt = Date y m d ∧ valid_date dt.
Proof.
  unfold mk_date, valid_date.
  destruct (negb (fits_c_int y && fits_c_int m && fits_c_int d)); [discriminate|].
  destruct ((1 <=? y) && (y <=? 9999)) eqn:Ey; simpl; [|discriminate].
  destruct ((1 <=? m) && (m <=? 12)) eqn:Em; simpl; [|discriminate].
  destruct ((1 <=? d) && (d <=? days_in_month y m)) eqn:Ed; simpl; [|discriminate].
  intros [= <-]. simpl. split; [reflexivity|]. lia.
Qed.

Section LiteralProperties.

Variable py_int : string → option Z.
Variable py_float : string → option float.

Lemma parse_time_shape value v :
  parse_time py_int value = Ok v →
  if has_separator value
  then ∃ d, v = VDate d ∧ valid_date d
  else ∃ n, v = VYear n ∧ py_int value = Some n.
Proof.
  unfold parse_time, has_separator, int_of.
  destruct (_ || _).
  - destruct (find_char _ _); [|discriminate].
    destruct (rfind_char _ _); [|discriminate].
    do 3 (match goal with
          | |- context [py_int ?x] => destruct (py_int x); simpl; [|discriminate]
          end).
    destruct (mk_date _ _ _) as [dt|] eqn:E; simpl; [|discriminate].
    intros [= <-]. exists dt. split; [reflexivity|].
    now apply mk_date_valid in E as [_ ?].
  - destruct (py_int value) as [n|]; simpl; [|discriminate].
    intros [= <-]. eauto.
Qed.



(** X7. A primitive whose literal does not parse raises the parser's
    exception and leaves the knowledge base as it was, without a single
    index lookup. *)
Theorem parse_error_first call key value typ e kb :
  parsed_literal call = Some (key, value, typ) →
  _parse_key_value py_int py_float kb key value typ = Raise e →
  run_prim py_int py_float call kb = (Raise e, kb).
Proof.
  intros Hcall Hparse.
  destruct call; try discriminate;
    simpl in Hcall;
    try match type of Hcall with
        | context [match ?x with _ => _ end] => destruct x as [? [?|]]
        end;
    try discriminate; injection Hcall as <- <- <-;
    unfold run_prim, fmapM, FilterStr, FilterNum, FilterYear, FilterDate,
      QFilterStr, QFilterNum, QFilterYear, QFilterDate, QueryAttrUnderCondition,
      QueryAttrQualifier, VerifyStr, VerifyNum, VerifyYear, VerifyDate,
      _filter_attribute, _filter_qualifier, _verify;
    cbn [fst snd]; unfold bind, parse_key_value; now rewrite Hparse.
Qed.

End LiteralProperties.

(** ** Wiring *)

Lemma kinds_exclusive p :
  (is_sentinel p = true → is_leaf p = false ∧ is_binary p = false)
  ∧ (is_leaf p = true → is_sentinel p = false ∧ is_binary p = false)
  ∧ (is_binary p = true → is_sentinel p = false ∧ is_leaf p = false).
Proof.
  rewrite is_sentinel_spec, is_leaf_spec, is_binary_spec.
  rewrite !elem_of_cons, !elem_of_nil.
  repeat apply conj; intros H;
    repeat (destruct H as [->|H]; [split; reflexivity|]); destruct H.
Qed.

Lemma elem_of_removelast {A} (l : list A) x : x ∈ removelast l → x ∈ l.
Proof.
  induction l as [|a l IH]; simpl; [auto|].
  destruct l as [|b l]; [intros H; inversion H|].
  intros H. apply elem_of_cons in H as [->|H]; [left|right; auto].
Qed.

Lemma length_removelast {A} (l : list A) : length (removelast l) = pred (length l).
Proof.
  induction l as [|a l IH]; [reflexivity|]. simpl.
  destruct l as [|b l]; [reflexivity|]. simpl in *. now rewrite IH.
Qed.

Lemma last_elem_of {A} (l : list A) x : last l = Some x → x ∈ l.
Proof.
  intros H. apply last_Some in H as [l' ->]. apply elem_of_app. right. left.
Qed.

Lemma infer_loop_backward l i0 d s d' s' :
  1 <= i0 → (∀ t, t ∈ s → 0 <= t < i0 - 1) →
  infer_loop i0 l (d, s) = Ok (d', s') →
  ∃ dl, d' = d ++ dl ∧ length dl = length l
        ∧ ∀ (j : nat) dep x, dl !! j = Some dep → x ∈ dep → 0 <= x < i0 + Z.of_nat j.
Proof.
  revert i0 d s. induction l as [|p l IH]; intros i0 d s Hi Hs.
  - intros [= <- <-]. exists []. rewrite app_nil_r.
    split; [reflexivity|]. split; [reflexivity|].
    intros j dep x Hj. now rewrite lookup_nil in Hj.
  - rewrite infer_loop_cons.
    destruct (infer_step (d, s) i0 p) as [[d1 s1]|] eqn:Hstep; cbn [rbind];
      [|discriminate].
    assert (∃ dep, d1 = d ++ [dep] ∧ (∀ x, x ∈ dep → 0 <= x < i0)
                   ∧ ∀ t, t ∈ s1 → 0 <= t < i0) as (dep & -> & Hdep & Hs1).
    { unfold infer_step in Hstep.
      destruct (is_sentinel p).
      { injection Hstep as <- <-. exists [].
        split; [reflexivity|]. split; [intros x Hx; inversion Hx|].
        intros t Ht. specialize (Hs t Ht). lia. }
      destruct (is_leaf p).
      { injection Hstep as <- <-. exists [].
        split; [reflexivity|]. split; [intros x Hx; inversion Hx|].
        intros t Ht. apply elem_of_app in Ht as [Ht|Ht].
        - specialize (Hs t Ht). lia.
        - apply list_elem_of_singleton in Ht as ->. lia. }
      destruct (is_binary p).
      { unfold stack_top in Hstep. destruct (last s) as [top|] eqn:Hl; cbn [rbind] in Hstep;
          [|discriminate].
        injection Hstep as <- <-. exists [top; i0 - 1].
        split; [reflexivity|]. split.
        - intros x Hx. apply elem_of_cons in Hx as [->|Hx].
          + apply last_elem_of in Hl. specialize (Hs _ Hl). lia.
          + apply list_elem_of_singleton in Hx as ->. lia.
        - intros t Ht. apply elem_of_removelast in Ht. specialize (Hs t Ht). lia. }
      injection Hstep as <- <-. exists [i0 - 1].
      split; [reflexivity|]. split.
      - intros x Hx. apply list_elem_of_singleton in Hx as ->. lia.
      - intros t Ht. specialize (Hs t Ht). lia. }
    intros Hloop. apply IH in Hloop as (dl & -> & Hlen & Hdl); [|lia|].
    2:{ intros t Ht. specialize (Hs1 t Ht). lia. }
    exists (dep :: dl). rewrite <- app_assoc.
    split; [reflexivity|]. split; [simpl; lia|].
    intros [|j] dep' x Hj Hx; simpl in Hj.
    + injection Hj as <-. specialize (Hdep x Hx). lia.
    + specialize (Hdl j dep' x Hj Hx). lia.
Qed.

(** X8. When inference succeeds it yields one dependency list per
    position of the bracketed program, and every dependency of position [i]
    is a position from [0] to [i - 1]: a primitive only ever reads results
    computed before it. *)
Theorem infer_dependency_backward program dependency :
  infer_dependency program = Ok dependency →
  length dependency = S (S (length program))
  ∧ ∀ (i : nat) dep x, dependency !! i = Some dep → x ∈ dep → 0 <= x < Z.of_nat i.
Proof.
  unfold infer_dependency, bracket. rewrite infer_loop_cons.
  change (infer_step ([], []) 0 "<START>") with (@Ok InferState ([[]], [])).
  cbn [rbind].
  destruct (infer_loop (0 + 1) (program ++ ["<END>"%string]) ([[]], []))
    as [[d s]|] eqn:Hloop; cbn [rbind]; [|discriminate].
  intros [= <-].
  apply infer_loop_backward in Hloop as (dl & -> & Hlen & Hdl);
    [|lia|intros t Ht; inversion Ht].
  rewrite length_app in Hlen. simpl in *. split; [lia|].
  intros [|i] dep x Hi Hx; simpl in Hi.
  - injection Hi as <-. inversion Hx.
  - specialize (Hdl i dep x Hi Hx). lia.
Qed.

Lemma open_branch_at_cons h p l :
  open_branch_at h (p :: l)
  ↔ (is_binary p = true → (0 < h)%nat)
    ∧ open_branch_at
        (if is_binary p then pred h else if is_leaf p then S h else h) l.
Proof.
  pose proof (kinds_exclusive p) as (_ & Hleaf & Hbin).
  unfold open_branch_at. split.
  - intros H. split.
    + intros Hb. specialize (H O p eq_refl Hb). simpl in H. lia.
    + intros j q Hj Hq. specialize (H (S j) q Hj Hq). simpl in H.
      destruct (is_binary p) eqn:Eb.
      * destruct (Hbin eq_refl) as [_ El]. rewrite El in H. lia.
      * destruct (is_leaf p); lia.
  - intros [Hp H] [|j] q Hj Hq; simpl in *.
    + injection Hj as <-. specialize (Hp Hq). lia.
    + specialize (H j q Hj Hq).
      destruct (is_binary p) eqn:Eb.
      * destruct (Hbin eq_refl) as [_ El]. rewrite El. specialize (Hp eq_refl). lia.
      * destruct (is_leaf p); lia.
Qed.

Lemma infer_loop_wiring l i0 d s :
  (infer_loop i0 l (d, s) = Raise IndexError ∨ ∃ st, infer_loop i0 l (d, s) = Ok st)
  ∧ ((∃ st, infer_loop i0 l (d, s) = Ok st) ↔ open_branch_at (length s) l).
Proof.
  revert i0 d s. induction l as [|p l IH]; intros i0 d s.
  - split; [right; eexists; reflexivity|].
    split; [intros _ j q Hj; now rewrite lookup_nil in Hj|eexists; reflexivity].
  - rewrite infer_loop_cons, open_branch_at_cons.
    pose proof (kinds_exclusive p) as (Hsen & Hleaf & Hbin).
    unfold infer_step.
    destruct (is_sentinel p) eqn:Es.
    { destruct (Hsen eq_refl) as [-> ->]. cbn [rbind].
      destruct (IH (i0 + 1) (d ++ [[]]) s) as [IH1 IH2].
      split; [exact IH1|]. rewrite IH2. intuition discriminate. }
    destruct (is_leaf p) eqn:El.
    { destruct (Hleaf eq_refl) as [_ ->]. cbn [rbind].
      destruct (IH (i0 + 1) (d ++ [[]]) (s ++ [i0 - 1])) as [IH1 IH2].
      split; [exact IH1|]. rewrite IH2, length_app. simpl.
      replace (length s + 1)%nat with (S (length s)) by lia. intuition discriminate. }
    destruct (is_binary p) eqn:Eb.
    { unfold stack_top. destruct (last s) as [top|] eqn:Hl; cbn [rbind].
      - destruct (IH (i0 + 1) (d ++ [[top; i0 - 1]]) (removelast s)) as [IH1 IH2].
        split; [exact IH1|]. rewrite IH2, length_removelast.
        apply last_Some in Hl as [s0 ->]. rewrite length_app. simpl.
        split; [intros H; split; [lia|exact H]|now intros [_ H]].
      - split; [now left|]. apply last_None in Hl as ->. simpl.
        split; [intros [st Hst]; discriminate|intros [H _]; specialize (H eq_refl); lia]. }
    cbn [rbind].
    destruct (IH (i0 + 1) (d ++ [[i0 - 1]]) s) as [IH1 IH2].
    split; [exact IH1|]. rewrite IH2. intuition discriminate.
Qed.

Lemma count_where_app f l l' :
  count_where f (l ++ l') = (count_where f l + count_where f l')%nat.
Proof.
  induction l as [|p l IH]; simpl; [reflexivity|]. destruct (f p); simpl; lia.
Qed.

Lemma open_branch_at_END h l :
  open_branch_at h (l ++ ["<END>"%string]) ↔ open_branch_at h l.
Proof.
  unfold open_branch_at. split.
  - intros H j p Hj Hp. pose proof (lookup_lt_Some _ _ _ Hj) as Hlt.
    specialize (H j p). rewrite lookup_app_l in H by exact Hlt.
    specialize (H Hj Hp). rewrite take_app_le in H by lia. exact H.
  - intros H j p Hj Hp.
    destruct (decide (j < length l)%nat) as [Hlt|Hge].
    + rewrite lookup_app_l in Hj by exact Hlt. rewrite take_app_le by lia.
      exact (H j p Hj Hp).
    + rewrite lookup_app_r in Hj by lia.
      destruct (j - length l)%nat; simpl in Hj; [|now rewrite lookup_nil in Hj].
      injection Hj as <-. discriminate Hp.
Qed.

(** X9. Inference fails in one way only, with [IndexError], and it
    succeeds exactly when every binary combinator of the program comes after
    more [Find]/[FindAll] leaves than binary combinators, that is when it
    finds a branch open. *)
Theorem infer_dependency_wiring program :
  (infer_dependency program = Raise IndexError
   ∨ ∃ dependency, infer_dependency program = Ok dependency)
  ∧ ((∃ dependency, infer_dependency program = Ok dependency)
     ↔ open_branch_at 0 program).
Proof.
  destruct (infer_loop_wiring (bracket program) 0 [] []) as [H1 H2].
  assert (open_branch_at 0 (bracket program) ↔ open_branch_at 0 program) as Hb.
  { unfold bracket. rewrite open_branch_at_cons.
    change (is_binary "<START>") with false. change (is_leaf "<START>") with false.
    cbn iota. rewrite open_branch_at_END. intuition discriminate. }
  simpl length in H2. rewrite Hb in H2.
  unfold infer_dependency. split.
  - destruct H1 as [->|[st ->]]; [left|right; eexists]; reflexivity.
  - rewrite <- H2. split; intros [x Hx].
    + destruct (infer_loop 0 (bracket program) ([], [])) as [st|] eqn:E;
        [eauto|discriminate].
    + rewrite Hx. eexists; reflexivity.
Qed.

(** ** Set algebra and retrieval *)

Lemma size_inclusion_exclusion (X Y : gset string) :
  (size (X ∩ Y) + size (X ∪ Y) = size X + size Y)%nat.
Proof.
  pose proof (@size_union_alt string (gset string) _ _ _ _ _ _ _ _ _ X Y) as Hu.
  assert (Y = (X ∩ Y) ∪ (Y ∖ X)) as HY.
  { apply set_eq. intros x. rewrite elem_of_union, elem_of_intersection,
      elem_of_difference. destruct (decide (x ∈ X)); tauto. }
  pose proof (@size_union string (gset string) _ _ _ _ _ _ _ _ _ (X ∩ Y) (Y ∖ X)) as Hd.
  rewrite <- HY in Hd. rewrite Hu, Hd; [lia|].
  intros x. rewrite elem_of_intersection, elem_of_difference. tauto.
Qed.

(** X10. [And] keeps the ids present on both sides and [Or] those present
    on either, each id once and with the facts dropped; the two counts add
    up to the numbers of distinct ids of the two sides. *)
Theorem and_or_laws (A B : EntityTuple) :
  (∀ x, x ∈ fst (And A B) ↔ x ∈ fst A ∧ x ∈ fst B)
  ∧ (∀ x, x ∈ fst (Or A B) ↔ x ∈ fst A ∨ x ∈ fst B)
  ∧ NoDup (fst (And A B)) ∧ NoDup (fst (Or A B))
  ∧ snd (And A B) = None ∧ snd (Or A B) = None
  ∧ Count (And A B) + Count (Or A B)
    = Z.of_nat (length (remove_dups (fst A))) + Z.of_nat (length (remove_dups (fst B))).
Proof.
  unfold And, Or, Count; simpl. repeat apply conj; try reflexivity.
  - intros x. rewrite elem_of_elements, elem_of_intersection, !elem_of_list_to_set.
    tauto.
  - intros x. rewrite elem_of_elements, elem_of_union, !elem_of_list_to_set. tauto.
  - apply NoDup_elements.
  - apply NoDup_elements.
  - rewrite <- !size_list_to_set_remove_dups.
    pose proof (size_inclusion_exclusion (list_to_set (fst A)) (list_to_set (fst B))) as H.
    unfold size, set_size in *. simpl in *. lia.
Qed.

Lemma bind_ok {A B} (m : M A) (k : A → M B) kb a kb' :
  m kb = (Ok a, kb') → bind m k kb = k a kb'.
Proof. intros H. unfold bind. now rewrite H. Qed.

Lemma bind_raise {A B} (m : M A) (k : A → M B) kb e kb' :
  m kb = (Raise e, kb') → bind m k kb = (Raise e, kb').
Proof. intros H. unfold bind. now rewrite H. Qed.

Lemma entity_at_stored ent_id info kb :
  dict_get ent_id (entities kb) = Some info → entity_at ent_id kb = (Ok info, kb).
Proof. intros H. unfold entity_at. now rewrite H. Qed.

Lemma query_name_loop (l : list string) acc kb :
  (∀ k, k ∈ l → is_Some (dict_get k (entities kb))) →
  for_each l
    (fun entity_id res =>
       let! info := entity_at entity_id in ret (res ++ [e_name info])) acc kb
  = (Ok (acc ++ omap (fun k => e_name <$> dict_get k (entities kb)) l), kb).
Proof.
  revert acc. induction l as [|k l IH]; intros acc Hl; simpl.
  - now rewrite app_nil_r.
  - destruct (Hl k) as [info Hk]; [left|].
    erewrite bind_ok.
    2:{ erewrite bind_ok by (apply entity_at_stored; exact Hk). reflexivity. }
    rewrite IH by (intros; apply Hl; now right).
    rewrite Hk. simpl. now rewrite <- app_assoc.
Qed.

Lemma omap_map_elem {A B C} (h : A → B) (f : B → option C) (g : A → C) (l : list A) :
  (∀ x, x ∈ l → f (h x) = Some (g x)) → omap f (map h l) = map g l.
Proof.
  induction l as [|x l IH]; intros H; simpl; [reflexivity|].
  rewrite (H x) by left. f_equal. apply IH. intros; apply H; now right.
Qed.

Lemma omap_length_total {A B} (f : A → option B) (l : list A) :
  (∀ x, x ∈ l → is_Some (f x)) → length (omap f l) = length l.
Proof.
  induction l as [|x l IH]; intros H; simpl; [reflexivity|].
  destruct (H x) as [y ->]; [left|]. simpl. f_equal. apply IH.
  intros; apply H; now right.
Qed.

Lemma dict_get_elem {A} (d : odict A) k a :
  NoDup (dict_keys d) → (k, a) ∈ d → dict_get k d = Some a.
Proof.
  unfold dict_keys. induction d as [|[k' a'] d IH]; simpl; intros Hnd Hin.
  - inversion Hin.
  - apply NoDup_cons in Hnd as [Hk Hnd].
    apply elem_of_cons in Hin as [[= <- <-]|Hin].
    + now rewrite String.eqb_refl.
    + destruct (String.eqb_spec k' k) as [->|_]; [|auto].
      exfalso. apply Hk. apply list_elem_of_fmap. exists (k, a). auto.
Qed.

(** X11. [QueryName(FindAll())] never raises, leaves the knowledge base
    as it was and returns as many names as the store has entries; when no id
    occurs twice in the store these are the names of its entities, in store
    order. *)
Theorem query_name_find_all kb :
  ∃ names,
    (let! all := FindAll in QueryName all) kb = (Ok names, kb)
    ∧ length names = length (entities kb)
    ∧ (NoDup (dict_keys (entities kb)) →
       names = map (fun p => e_name (snd p)) (entities kb)).
Proof.
  unfold bind, FindAll, QueryName. cbn [fst snd].
  rewrite query_name_loop.
  2:{ intros k Hk. now apply dict_get_stored. }
  eexists. split; [reflexivity|]. simpl. unfold dict_keys. split.
  - rewrite omap_length_total; [apply length_map|].
    intros k Hk. apply dict_get_stored in Hk as [info ->]. simpl. eauto.
  - intros Hnd. apply omap_map_elem. intros [k a] Hin. simpl.
    now rewrite (dict_get_elem _ _ _ Hnd Hin).
Qed.

(** X12. [SelectBetween] and [SelectAmong] on a key under which no entity
    is indexed find no candidate and raise [IndexError]. *)
Theorem select_unknown_key kb key :
  unknown_key kb key →
  (∀ l_entities r_entities op,
      fst (SelectBetween l_entities r_entities key op kb) = Raise IndexError)
  ∧ (∀ entities op, fst (SelectAmong entities key op kb) = Raise IndexError).
Proof.
  intros Hun. split.
  - intros l r op. unfold SelectBetween, collect_candidates.
    unfold bind at 1.
    match goal with
    | |- context [for_each ?l (fun ent_id res => bind _ (fun positions => for_each positions (@?inner ent_id) res)) ?st ?kb1] =>
        destruct (attribute_loop_unknown key l inner st kb1 Hun) as (kb1' & E1 & Hun1)
    end.
    rewrite E1. unfold bind at 1.
    match goal with
    | |- context [for_each ?l (fun ent_id res => bind _ (fun positions => for_each positions (@?inner ent_id) res)) ?st ?kb1] =>
        destruct (attribute_loop_unknown key l inner st kb1 Hun1) as (kb2 & E2 & _)
    end.
    rewrite E2. reflexivity.
  - intros e op. unfold SelectAmong, collect_candidates.
    unfold bind at 1.
    match goal with
    | |- context [for_each ?l (fun ent_id res => bind _ (fun positions => for_each positions (@?inner ent_id) res)) ?st ?kb1] =>
        destruct (attribute_loop_unknown key l inner st kb1 Hun) as (kb1' & E1 & _)
    end.
    rewrite E1. reflexivity.
Qed.

(** ** The store after construction *)

Lemma dict_get_set {A} (d : odict A) k a k' :
  dict_get k' (dict_set k a d) = if String.eqb k k' then Some a else dict_get k' d.
Proof.
  induction d as [|[k0 a0] d IH]; simpl.
  - reflexivity.
  - destruct (String.eqb_spec k0 k) as [->|Hne]; simpl.
    + destruct (String.eqb k k'); reflexivity.
    + rewrite IH. destruct (String.eqb_spec k0 k') as [->|Hne'].
      * apply String.eqb_neq in Hne. rewrite String.eqb_sym in Hne. now rewrite Hne.
      * reflexivity.
Qed.

Lemma dict_keys_set {A} (d : odict A) k a :
  dict_keys (dict_set k a d)
  = if decide (k ∈ dict_keys d) then dict_keys d else dict_keys d ++ [k].
Proof.
  unfold dict_keys. induction d as [|[k0 a0] d IH]; cbn [dict_set map fst].
  - destruct (decide _) as [H|H]; [inversion H|reflexivity].
  - destruct (String.eqb_spec k0 k) as [->|Hne]; cbn [map fst].
    + rewrite decide_True by left. reflexivity.
    + rewrite IH. destruct (decide (k ∈ map fst d)) as [Hin|Hnin].
      * rewrite decide_True by now right. reflexivity.
      * rewrite decide_False; [reflexivity|].
        intros H. apply elem_of_cons in H as [->|H]; tauto.
Qed.

Lemma dict_keys_set_nodup {A} (d : odict A) k a :
  NoDup (dict_keys d) → NoDup (dict_keys (dict_set k a d)).
Proof.
  intros Hnd. rewrite dict_keys_set. case_decide; [exact Hnd|].
  apply NoDup_app. split; [exact Hnd|]. split.
  - intros x Hx Hk. apply list_elem_of_singleton in Hk as ->. tauto.
  - apply NoDup_singleton.
Qed.

Lemma dict_keys_set_elem {A} (d : odict A) k a x :
  x ∈ dict_keys (dict_set k a d) ↔ x = k ∨ x ∈ dict_keys d.
Proof.
  rewrite dict_keys_set. case_decide.
  - split; [auto|intros [->|?]; auto].
  - rewrite elem_of_app, list_elem_of_singleton. tauto.
Qed.

Lemma elem_of_dict_keys_cons {A} (d : odict A) k a x :
  x ∈ dict_keys ((k, a) :: d) ↔ x = k ∨ x ∈ dict_keys d.
Proof. unfold dict_keys. simpl. apply elem_of_cons. Qed.

Lemma elem_of_dict_keys_nil {A} x : x ∈ dict_keys (@nil (string * A)) ↔ False.
Proof. unfold dict_keys. simpl. apply elem_of_nil. Qed.

Lemma fold_dict_set_keys {A B} (f : string * A → B) (l : odict A) (d : odict B) :
  NoDup (dict_keys d) →
  NoDup (dict_keys (fold_left (fun ents p => dict_set (fst p) (f p) ents) l d))
  ∧ ∀ x, x ∈ dict_keys (fold_left (fun ents p => dict_set (fst p) (f p) ents) l d)
         ↔ x ∈ dict_keys d ∨ x ∈ dict_keys l.
Proof.
  revert d. induction l as [|[k c] l IH]; intros d Hd; cbn [fold_left fst].
  - split; [exact Hd|]. intros x. rewrite (elem_of_dict_keys_nil (A := A)). tauto.
  - destruct (IH (dict_set k (f (k, c)) d)) as [IH1 IH2];
      [now apply dict_keys_set_nodup|].
    split; [exact IH1|]. intros x.
    rewrite IH2, dict_keys_set_elem, elem_of_dict_keys_cons. tauto.
Qed.

Lemma merge_concepts_keys raw :
  NoDup (dict_keys (merge_concepts raw))
  ∧ ∀ x, x ∈ dict_keys (merge_concepts raw)
         ↔ x ∈ dict_keys (kb_concepts raw) ∨ x ∈ dict_keys (kb_entities raw).
Proof.
  unfold merge_concepts.
  destruct (fold_dict_set_keys
              (fun p : string * RawConcept =>
                 mkEntity (V := RawValue) (c_name (snd p)) [] [] (c_subclassOf (snd p)))
              (kb_concepts raw) []) as [N1 E1]; [apply NoDup_nil_2|].
  destruct (fold_dict_set_keys (fun p : string * Entity RawValue => snd p)
              (kb_entities raw) _ N1) as [N2 E2].
  split; [exact N2|]. intros x.
  rewrite E2, E1, (elem_of_dict_keys_nil (A := Entity RawValue)). tauto.
Qed.

Lemma add_mirror_keys obj_id rel ents :
  dict_keys (add_mirror obj_id rel ents) = dict_keys ents.
Proof.
  unfold add_mirror. destruct (dict_get obj_id ents) as [info|] eqn:E; [|reflexivity].
  destruct (existsb _ _); [reflexivity|].
  rewrite dict_keys_set, decide_True; [reflexivity|].
  apply dict_get_stored. eauto.
Qed.

Lemma mirror_relations_keys raw ents :
  dict_keys (mirror_relations raw ents) = dict_keys ents.
Proof.
  unfold mirror_relations.
  generalize (kb_entities raw) as l. intros l. revert ents.
  induction l as [|[k info] l IH]; intros ents; simpl; [reflexivity|].
  rewrite IH. clear IH.
  generalize (e_relations info) as rels. intros rels. revert ents.
  induction rels as [|r rels IH]; intros ents; simpl; [reflexivity|].
  rewrite IH. destruct (dict_mem _ _); [apply add_mirror_keys|reflexivity].
Qed.

Lemma rfor_each_collect {A B} (f : A → result B) (l : list A) acc r :
  rfor_each l (fun a acc => let? b := f a in Ok (acc ++ [b])) acc = Ok r →
  ∃ bs, r = acc ++ bs ∧ Forall2 (fun a b => f a = Ok b) l bs.
Proof.
  revert acc. induction l as [|a l IH]; intros acc; simpl.
  - intros [= <-]. exists []. rewrite app_nil_r. split; [reflexivity|constructor].
  - destruct (f a) as [b|] eqn:E; simpl; [|discriminate].
    intros H. apply IH in H as (bs & -> & Hbs).
    exists (b :: bs). rewrite <- app_assoc. split; [reflexivity|].
    constructor; assumption.
Qed.

Section StoreProperties.

Variable py_int : string → option Z.

Lemma parse_attribute_key a a' :
  parse_attribute py_int a = Ok a' → a_key a' = a_key a.
Proof.
  unfold parse_attribute.
  destruct (_parse_value py_int (a_value a)); simpl; [|discriminate].
  destruct (parse_qualifiers py_int (a_qualifiers a)); simpl; [|discriminate].
  now intros [= <-].
Qed.

Lemma parse_relation_skeleton r r' :
  parse_relation py_int r = Ok r' →
  r_relation r' = r_relation r ∧ r_direction r' = r_direction r
  ∧ r_object r' = r_object r.
Proof.
  unfold parse_relation.
  destruct (parse_qualifiers py_int (r_qualifiers r)); simpl; [|discriminate].
  now intros [= <-].
Qed.

Lemma parse_entity_skeleton info info' :
  parse_entity py_int info = Ok info' →
  e_name info' = e_name info ∧ e_isA info' = e_isA info
  ∧ Forall2 (fun a a' => parse_attribute py_int a = Ok a')
            (e_attributes info) (e_attributes info')
  ∧ Forall2 (fun r r' => parse_relation py_int r = Ok r')
            (e_relations info) (e_relations info').
Proof.
  unfold parse_entity.
  destruct (rfor_each (e_attributes info) _ []) as [attrs|] eqn:Ea; simpl; [|discriminate].
  destruct (rfor_each (e_relations info) _ []) as [rels|] eqn:Er; simpl; [|discriminate].
  intros [= <-]. simpl.
  apply rfor_each_collect in Ea as (bs & -> & Ha).
  apply rfor_each_collect in Er as (cs & -> & Hr). auto.
Qed.

Lemma scan_and_parse_entries items st st' parsed :
  scan_and_parse py_int items st = Ok (st', parsed) →
  Forall2 (fun p q => fst q = fst p ∧ parse_entity py_int (snd p) = Ok (snd q))
          items parsed.
Proof.
  revert st st' parsed. induction items as [|[ent_id info] items IH];
    intros st st' parsed; simpl.
  - intros [= _ <-]. constructor.
  - destruct (parse_entity py_int info) as [info'|] eqn:Hp; simpl; [|discriminate].
    destruct (scan_and_parse py_int items _) as [[st1 p1]|] eqn:Hrec; simpl;
      [|discriminate].
    intros [= _ <-]. constructor; [auto|]. eapply IH; eauto.
Qed.

Lemma parsed_keys items parsed :
  Forall2 (fun p q => fst q = fst p ∧ parse_entity py_int (snd p) = Ok (snd q))
          items parsed →
  dict_keys parsed = dict_keys items.
Proof.
  unfold dict_keys. induction 1 as [|[k i] [k' i'] l l' [Hk _] _ IH]; simpl;
    [reflexivity|]. simpl in Hk. now rewrite Hk, IH.
Qed.

Lemma parsed_lookup items parsed x :
  Forall2 (fun p q => fst q = fst p ∧ parse_entity py_int (snd p) = Ok (snd q))
          items parsed →
  match dict_get x items, dict_get x parsed with
  | Some info, Some info' => parse_entity py_int info = Ok info'
  | None, None => True
  | _, _ => False
  end.
Proof.
  induction 1 as [|[k i] [k' i'] l l' [Hk Hp] _ IH]; simpl; [exact I|].
  simpl in Hk, Hp. subst k'. destruct (String.eqb k x); [exact Hp|exact IH].
Qed.

Lemma KB_init_parts raw kb :
  KB_init py_int raw = Ok kb →
  let ents := mirror_relations raw (merge_concepts raw) in
  Forall2 (fun p q => fst q = fst p ∧ parse_entity py_int (snd p) = Ok (snd q))
          ents (entities kb)
  ∧ name_to_id kb = fst (build_name_concept_index ents)
  ∧ concept_to_entity kb = build_concept_to_entity ents
  ∧ attribute_inv_index kb = s_attribute_inv_index (scan_store ents)
  ∧ relation_inv_index kb = s_relation_inv_index (scan_store ents)
  ∧ forward_relation_index kb = s_forward_relation_index (scan_store ents).
Proof.
  unfold KB_init.
  destruct (scan_and_parse py_int _ empty_scan) as [[st parsed]|] eqn:Hs; simpl;
    [|discriminate].
  destruct (seen_values parsed); simpl; [|discriminate].
  intros [= <-]. simpl.
  pose proof (scan_and_parse_state _ _ _ _ _ Hs) as ->.
  apply scan_and_parse_entries in Hs. repeat split; auto.
Qed.

(** X13. After construction the store holds every concept id and every
    entity id of the input, and nothing else, each under one entry: [FindAll]
    lists each of them exactly once. *)
Theorem store_keys raw kb :
  KB_init py_int raw = Ok kb →
  fst (FindAll kb) = Ok (dict_keys (entities kb), None)
  ∧ NoDup (dict_keys (entities kb))
  ∧ ∀ x, x ∈ dict_keys (entities kb)
         ↔ x ∈ dict_keys (kb_concepts raw) ∨ x ∈ dict_keys (kb_entities raw).
Proof.
  intros Hinit. apply KB_init_parts in Hinit as (Hents & _).
  apply parsed_keys in Hents. split; [reflexivity|].
  rewrite Hents, mirror_relations_keys. apply merge_concepts_keys.
Qed.

End StoreProperties.

(** ** The indices after construction *)

Lemma read_list_append `{Countable K} {A} (k k' : K) (a : A) (m : gmap K (list A)) :
  read_list (dd_list_append k a m) k'
  = read_list m k' ++ (if decide (k = k') then [a] else []).
Proof.
  unfold read_list, dd_list_append. destruct (decide (k = k')) as [<-|Hne].
  - now rewrite lookup_insert_eq.
  - rewrite lookup_insert_ne by exact Hne. now rewrite app_nil_r.
Qed.

Lemma read_inv_append `{Countable K} (k k' : K) ent_id e idx
    (m : gmap K (gmap string (list nat))) :
  read_inv (inv_append k ent_id idx m) k' e
  = read_inv m k' e ++ (if decide (k = k' ∧ ent_id = e) then [idx] else []).
Proof.
  unfold read_inv, inv_append. destruct (decide (k = k')) as [<-|Hne].
  - rewrite lookup_insert_eq. simpl.
    pose proof (read_list_append ent_id e idx (default ∅ (m !! k))) as Hr.
    unfold read_list in Hr. rewrite Hr.
    destruct (decide (ent_id = e)) as [<-|Hne].
    + now rewrite decide_True by auto.
    + now rewrite decide_False by tauto.
  - rewrite lookup_insert_ne by exact Hne.
    rewrite decide_False by tauto. now rewrite app_nil_r.
Qed.

Lemma index_fold_names {V} (ents0 l : Store V) st name :
  read_list (fst (fold_left (index_step ents0) l st)) name
  = read_list (fst st) name ++ ids_named name l.
Proof.
  revert st. induction l as [|[k info] l IH]; intros st; simpl.
  - now rewrite app_nil_r.
  - rewrite IH. unfold index_step. cbn [fst snd].
    rewrite read_list_append, <- app_assoc. f_equal.
    destruct (String.eqb_spec (e_name info) name) as [->|Hne].
    + now rewrite decide_True.
    + now rewrite decide_False.
Qed.

Lemma scan_attributes_indices ent_id idx attrs st :
  let st' := for_enumerate (scan_attribute ent_id) idx attrs st in
  (∀ key e,
      read_inv (s_attribute_inv_index st') key e
      = read_inv (s_attribute_inv_index st) key e
        ++ (if decide (ent_id = e)
            then positions_from (fun a => String.eqb (a_key a) key) idx attrs
            else []))
  ∧ s_relation_inv_index st' = s_relation_inv_index st
  ∧ s_forward_relation_index st' = s_forward_relation_index st.
Proof.
  revert idx st. induction attrs as [|a attrs IH]; intros idx st; simpl.
  - split; [|auto]. intros key e. destruct (decide _); now rewrite app_nil_r.
  - destruct (IH (S idx) (scan_attribute ent_id idx a st)) as (IH1 & IH2 & IH3).
    split; [|split; [rewrite IH2|rewrite IH3]; reflexivity].
    intros key e. rewrite IH1. unfold scan_attribute. cbn [s_attribute_inv_index].
    rewrite read_inv_append, <- app_assoc. f_equal.
    destruct (decide (ent_id = e)) as [<-|Hne].
    + destruct (String.eqb_spec (a_key a) key) as [->|Hk].
      * now rewrite decide_True by auto.
      * now rewrite decide_False by tauto.
    + now rewrite decide_False by tauto.
Qed.

Lemma scan_relations_indices ent_id idx rels st :
  let st' := for_enumerate (scan_relation ent_id) idx rels st in
  s_attribute_inv_index st' = s_attribute_inv_index st
  ∧ (∀ relation direction e,
        read_inv (s_relation_inv_index st') (relation, direction) e
        = read_inv (s_relation_inv_index st) (relation, direction) e
          ++ (if decide (ent_id = e)
              then positions_from
                     (fun r => String.eqb (r_relation r) relation
                               && String.eqb (r_direction r) direction) idx rels
              else []))
  ∧ (∀ e obj,
        read_list (s_forward_relation_index st') (e, obj)
        = read_list (s_forward_relation_index st) (e, obj)
          ++ (if decide (ent_id = e)
              then positions_from
                     (fun r => String.eqb (r_direction r) "forward"
                               && String.eqb (r_object r) obj) idx rels
              else [])).
Proof.
  revert idx st. induction rels as [|r rels IH]; intros idx st; simpl.
  - split; [reflexivity|].
    split; intros; destruct (decide _); now rewrite app_nil_r.
  - destruct (IH (S idx) (scan_relation ent_id idx r st)) as (IH1 & IH2 & IH3).
    split; [now rewrite IH1|]. split.
    + intros relation direction e. rewrite IH2. unfold scan_relation.
      cbn [s_relation_inv_index]. rewrite read_inv_append, <- app_assoc. f_equal.
      destruct (decide (ent_id = e)) as [<-|Hne].
      * destruct (String.eqb_spec (r_relation r) relation) as [->|Hk];
          destruct (String.eqb_spec (r_direction r) direction) as [->|Hd]; simpl.
        -- now rewrite decide_True by auto.
        -- rewrite decide_False; [reflexivity|]. intros [[= ?] _]. tauto.
        -- rewrite decide_False; [reflexivity|]. intros [[= ?] _]. tauto.
        -- rewrite decide_False; [reflexivity|]. intros [[= ?] _]. tauto.
      * now rewrite decide_False by tauto.
    + intros e obj. rewrite IH3. unfold scan_relation.
      cbn [s_forward_relation_index].
      destruct (String.eqb (r_direction r) "forward") eqn:Ef; simpl.
      * rewrite read_list_append, <- app_assoc. f_equal.
        destruct (decide (ent_id = e)) as [<-|Hne].
        -- destruct (String.eqb_spec (r_object r) obj) as [->|Ho].
           ++ now rewrite decide_True.
           ++ rewrite decide_False; [reflexivity|]. intros [= ?]. tauto.
        -- rewrite decide_False; [reflexivity|]. intros [= ?]. tauto.
      * reflexivity.
Qed.

Lemma attributes_of_cons {V} (ents : Store V) k info e :
  attributes_of ((k, info) :: ents) e
  = if String.eqb k e then e_attributes info else attributes_of ents e.
Proof. unfold attributes_of. simpl. now destruct (String.eqb k e). Qed.

Lemma relations_of_cons {V} (ents : Store V) k info e :
  relations_of ((k, info) :: ents) e
  = if String.eqb k e then e_relations info else relations_of ents e.
Proof. unfold relations_of. simpl. now destruct (String.eqb k e). Qed.

Lemma not_stored_empty {V} (ents : Store V) e :
  e ∉ dict_keys ents → attributes_of ents e = [] ∧ relations_of ents e = [].
Proof.
  intros Hne. unfold attributes_of, relations_of.
  destruct (dict_get e ents) eqn:E; [|auto].
  exfalso. apply Hne. apply dict_get_stored. eauto.
Qed.

Lemma scan_fold_indices ents st :
  NoDup (dict_keys ents) →
  let st' := fold_left scan_entity ents st in
  (∀ key e,
      read_inv (s_attribute_inv_index st') key e
      = read_inv (s_attribute_inv_index st) key e
        ++ positions_from (fun a => String.eqb (a_key a) key) O (attributes_of ents e))
  ∧ (∀ relation direction e,
        read_inv (s_relation_inv_index st') (relation, direction) e
        = read_inv (s_relation_inv_index st) (relation, direction) e
          ++ positions_from
               (fun r => String.eqb (r_relation r) relation
                         && String.eqb (r_direction r) direction) O
               (relations_of ents e))
  ∧ (∀ e obj,
        read_list (s_forward_relation_index st') (e, obj)
        = read_list (s_forward_relation_index st) (e, obj)
          ++ positions_from
               (fun r => String.eqb (r_direction r) "forward"
                         && String.eqb (r_object r) obj) O
               (relations_of ents e)).
Proof.
  revert st. induction ents as [|[k info] ents IH]; intros st Hnd; simpl.
  - unfold attributes_of, relations_of. simpl.
    repeat apply conj; intros; now rewrite app_nil_r.
  - apply NoDup_cons in Hnd as [Hk Hnd]. fold (dict_keys ents) in Hk, Hnd.
    destruct (IH (scan_entity st (k, info)) Hnd) as (IH1 & IH2 & IH3).
    unfold scan_entity in IH1, IH2, IH3. cbn [fst snd] in *.
    destruct (scan_attributes_indices k O (e_attributes info) st) as (A1 & A2 & A3).
    destruct (scan_relations_indices k O (e_relations info)
                (for_enumerate (scan_attribute k) O (e_attributes info) st))
      as (R1 & R2 & R3).
    destruct (not_stored_empty ents k Hk) as [Hka Hkr].
    repeat apply conj.
    + intros key e. rewrite IH1, R1, A1, attributes_of_cons, <- app_assoc. f_equal.
      destruct (decide (k = e)) as [<-|Hne].
      * rewrite String.eqb_refl, Hka. simpl. now rewrite app_nil_r.
      * apply String.eqb_neq in Hne. now rewrite Hne.
    + intros relation direction e.
      rewrite IH2, R2, A2, relations_of_cons, <- app_assoc. f_equal.
      destruct (decide (k = e)) as [<-|Hne].
      * rewrite String.eqb_refl, Hkr. simpl. now rewrite app_nil_r.
      * apply String.eqb_neq in Hne. now rewrite Hne.
    + intros e obj.
      rewrite IH3, R3, A3, relations_of_cons, <- app_assoc. f_equal.
      destruct (decide (k = e)) as [<-|Hne].
      * rewrite String.eqb_refl, Hkr. simpl. now rewrite app_nil_r.
      * apply String.eqb_neq in Hne. now rewrite Hne.
Qed.
Lemma positions_from_Forall2 {A B} (f : A → bool) (g : B → bool) idx l l' :
  Forall2 (fun a b => f a = g b) l l' →
  positions_from f idx l = positions_from g idx l'.
Proof.
  intros H. revert idx. induction H as [|a b l l' Hab _ IH]; intros idx; simpl.
  - reflexivity.
  - rewrite Hab, IH. reflexivity.
Qed.

Lemma read_list_ext `{Countable K} {A} (m m' : gmap K (list A)) k :
  dd_ext m m' → read_list m' k = read_list m k.
Proof.
  intros Hext. unfold read_list. destruct (Hext k) as [->|[-> ->]]; reflexivity.
Qed.

Lemma read_inv_ext `{Countable K} (m m' : gmap K (gmap string (list nat))) k e :
  dd_ext2 m m' → read_inv m' k e = read_inv m k e.
Proof.
  intros Hext. unfold read_inv. destruct (Hext k) as [_ Hin].
  destruct (Hin e) as [->|[-> ->]]; reflexivity.
Qed.

Lemma index_consistent_frame kb kb' :
  kb_frame kb kb' → index_consistent kb → index_consistent kb'.
Proof.
  intros [He _ _ _ Ha Hr Hf] [Ca Cr Cf]. constructor; intros.
  - rewrite (read_inv_ext _ _ _ _ Ha), He. apply Ca.
  - rewrite (read_inv_ext _ _ _ _ Hr), He. apply Cr.
  - rewrite (read_list_ext _ _ _ Hf), He. apply Cf.
Qed.

Lemma dd_get_read `{Countable K} {A} (k : K) (m : gmap K (list A)) :
  fst (dd_get [] k m) = read_list m k.
Proof. unfold dd_get, read_list. now destruct (m !! k). Qed.

Lemma dd_get2_read `{Countable K} (k : K) e (m : gmap K (gmap string (list nat))) :
  fst (dd_get2 k e m) = read_inv m k e.
Proof.
  unfold dd_get2, dd_get, read_inv.
  destruct (m !! k) as [inner|]; simpl.
  - now destruct (inner !! e).
  - now rewrite lookup_empty.
Qed.

Lemma name_to_id_at_read name kb :
  ∃ kb', name_to_id_at name kb = (Ok (read_list (name_to_id kb) name), kb')
         ∧ kb_frame kb kb'.
Proof.
  pose proof (preserves_name_to_id_at name kb) as Hf.
  unfold name_to_id_at in *. rewrite <- dd_get_read.
  destruct (dd_get [] name (name_to_id kb)) as [ids m]. eauto.
Qed.

Lemma attribute_inv_index_at_read key e kb :
  ∃ kb', attribute_inv_index_at key e kb
         = (Ok (read_inv (attribute_inv_index kb) key e), kb')
         ∧ kb_frame kb kb'.
Proof.
  pose proof (preserves_attribute_inv_index_at key e kb) as Hf.
  unfold attribute_inv_index_at in *. rewrite <- dd_get2_read.
  destruct (dd_get2 key e (attribute_inv_index kb)) as [ps m]. eauto.
Qed.

Lemma relation_inv_index_at_read key e kb :
  ∃ kb', relation_inv_index_at key e kb
         = (Ok (read_inv (relation_inv_index kb) key e), kb')
         ∧ kb_frame kb kb'.
Proof.
  pose proof (preserves_relation_inv_index_at key e kb) as Hf.
  unfold relation_inv_index_at in *. rewrite <- dd_get2_read.
  destruct (dd_get2 key e (relation_inv_index kb)) as [ps m]. eauto.
Qed.

Lemma forward_relation_index_at_read key kb :
  ∃ kb', forward_relation_index_at key kb
         = (Ok (read_list (forward_relation_index kb) key), kb')
         ∧ kb_frame kb kb'.
Proof.
  pose proof (preserves_forward_relation_index_at key kb) as Hf.
  unfold forward_relation_index_at in *. rewrite <- dd_get_read.
  destruct (dd_get [] key (forward_relation_index kb)) as [ps m]. eauto.
Qed.

(** A loop over the positions the index lists visits the matching records,
    in order. *)
Lemma positions_loop {A St} (f : A → bool) (get : nat → M A) (k : A → St → M St)
    (step : A → St → St) (pre l : list A) acc kb :
  (∀ idx a, nth_error (pre ++ l) idx = Some a → get idx kb = (Ok a, kb)) →
  (∀ a s, a ∈ l → f a = true → k a s kb = (Ok (step a s), kb)) →
  for_each (positions_from f (length pre) l)
    (fun idx res => let! a := get idx in k a res) acc kb
  = (Ok (fold_left (fun res a => step a res) (List.filter f l) acc), kb).
Proof.
  revert pre acc. induction l as [|a l IH]; intros pre acc Hget Hk; simpl.
  - reflexivity.
  - assert (∀ idx b, nth_error ((pre ++ [a]) ++ l) idx = Some b
                     → get idx kb = (Ok b, kb)) as Hget'.
    { intros idx b. rewrite <- app_assoc. apply Hget. }
    assert (∀ b s, b ∈ l → f b = true → k b s kb = (Ok (step b s), kb)) as Hk'.
    { intros b s Hb. apply Hk. now right. }
    specialize (IH (pre ++ [a])). rewrite length_app, Nat.add_1_r in IH.
    destruct (f a) eqn:Hfa; [|now apply IH].
    simpl. erewrite bind_ok.
    2:{ erewrite bind_ok; [apply Hk; [left|exact Hfa]|]. apply Hget.
        rewrite nth_error_app2 by lia. now rewrite Nat.sub_diag. }
    now apply IH.
Qed.

Lemma attribute_at_nth e info idx a kb :
  dict_get e (entities kb) = Some info →
  nth_error (e_attributes info) idx = Some a →
  attribute_at e idx kb = (Ok a, kb).
Proof.
  intros He Hn. unfold attribute_at. erewrite bind_ok by (apply entity_at_stored, He).
  unfold lift, list_at. now rewrite Hn.
Qed.

Lemma relation_at_nth e info idx r kb :
  dict_get e (entities kb) = Some info →
  nth_error (e_relations info) idx = Some r →
  relation_at e idx kb = (Ok r, kb).
Proof.
  intros He Hn. unfold relation_at. erewrite bind_ok by (apply entity_at_stored, He).
  unfold lift, list_at. now rewrite Hn.
Qed.

Lemma attribute_positions_loop {St} (f : Attribute ValueClass → bool)
    (k : Attribute ValueClass → St → M St)
    (step : Attribute ValueClass → St → St) e acc kb :
  (∀ a s, a ∈ attributes_of (entities kb) e → f a = true
          → k a s kb = (Ok (step a s), kb)) →
  for_each (positions_from f O (attributes_of (entities kb) e))
    (fun idx res => let! a := attribute_at e idx in k a res) acc kb
  = (Ok (fold_left (fun res a => step a res)
                   (List.filter f (attributes_of (entities kb) e)) acc), kb).
Proof.
  intros Hk. apply (positions_loop f (attribute_at e) k step []); [|exact Hk].
  simpl. unfold attributes_of.
  destruct (dict_get e (entities kb)) as [info|] eqn:He.
  - intros idx a. now apply attribute_at_nth.
  - intros idx a. now destruct idx.
Qed.

Lemma relation_positions_loop {St} (f : Relation ValueClass → bool)
    (k : Relation ValueClass → St → M St)
    (step : Relation ValueClass → St → St) e acc kb :
  (∀ r s, r ∈ relations_of (entities kb) e → f r = true
          → k r s kb = (Ok (step r s), kb)) →
  for_each (positions_from f O (relations_of (entities kb) e))
    (fun idx res => let! r := relation_at e idx in k r res) acc kb
  = (Ok (fold_left (fun res r => step r res)
                   (List.filter f (relations_of (entities kb) e)) acc), kb).
Proof.
  intros Hk. apply (positions_loop f (relation_at e) k step []); [|exact Hk].
  simpl. unfold relations_of.
  destruct (dict_get e (entities kb)) as [info|] eqn:He.
  - intros idx a. now apply relation_at_nth.
  - intros idx a. now destruct idx.
Qed.

(** A loop whose body keeps the knowledge base within its frame and whose
    effect on the accumulator is [step], on every consistent knowledge
    base. *)
Lemma for_each_consistent {A St} (l : list A) (body : A → St → M St)
    (step : A → St → St) kb0 acc kb :
  (∀ x s kb, index_consistent kb → entities kb = entities kb0 →
             ∃ kb', body x s kb = (Ok (step x s), kb') ∧ kb_frame kb kb') →
  index_consistent kb → entities kb = entities kb0 →
  ∃ kb', for_each l body acc kb = (Ok (fold_left (fun s x => step x s) l acc), kb')
         ∧ kb_frame kb kb'.
Proof.
  intros Hb. revert acc kb. induction l as [|x l IH]; intros acc kb Hc He; simpl.
  - exists kb. split; [reflexivity|apply kb_frame_refl].
  - destruct (Hb x acc kb Hc He) as (kb1 & E1 & F1).
    erewrite bind_ok by exact E1.
    destruct (IH (step x acc) kb1) as (kb2 & E2 & F2).
    + eapply index_consistent_frame; eauto.
    + rewrite (frame_entities _ _ F1). exact He.
    + exists kb2. split; [exact E2|]. eapply kb_frame_trans; eauto.
Qed.

Lemma fold_left_app_flat_map {A B} (h : A → list B) (l : list A) acc :
  fold_left (fun res a => res ++ h a) l acc = acc ++ flat_map h l.
Proof.
  revert acc. induction l as [|a l IH]; intros acc; simpl.
  - now rewrite app_nil_r.
  - now rewrite IH, <- app_assoc.
Qed.

Lemma fold_left_app_map {A B} (h : A → B) (l : list A) acc :
  fold_left (fun res a => res ++ [h a]) l acc = acc ++ map h l.
Proof.
  revert acc. induction l as [|a l IH]; intros acc; simpl.
  - now rewrite app_nil_r.
  - now rewrite IH, <- app_assoc.
Qed.

Lemma flat_map_nested {A B C} (L : A → list B) (h : A → B → list C)
    (l1 : list A) acc :
  fold_left (fun s x => fold_left (fun s y => s ++ h x y) (L x) s) l1 acc
  = acc ++ flat_map (fun x => flat_map (h x) (L x)) l1.
Proof.
  revert acc. induction l1 as [|x l1 IH]; intros acc; simpl.
  - now rewrite app_nil_r.
  - now rewrite IH, fold_left_app_flat_map, <- app_assoc.
Qed.

(** The loop of [QueryRelation] and [QueryRelationQualifier]: every pair of
    a source and a target, every forward relation between them. *)
Lemma relation_pairs_loop {X} (out : Relation ValueClass → list X) (ss ts : list string) kb :
  index_consistent kb →
  ∃ kb',
    for_each ss
      (fun entity_id_1 res =>
         for_each ts
           (fun entity_id_2 res =>
              let! positions := forward_relation_index_at (entity_id_1, entity_id_2) in
              for_each positions
                (fun idx res =>
                   let! rel_info := relation_at entity_id_1 idx in
                   ret (res ++ out rel_info))
                res)
           res)
      [] kb
    = (Ok (flat_map (fun s => flat_map (fun t =>
             flat_map out (relations_between (entities kb) s t)) ts) ss), kb')
    ∧ kb_frame kb kb'.
Proof.
  intros Hc.
  destruct (for_each_consistent ss
              (fun entity_id_1 res =>
                 for_each ts
                   (fun entity_id_2 res =>
                      let! positions :=
                        forward_relation_index_at (entity_id_1, entity_id_2) in
                      for_each positions
                        (fun idx res =>
                           let! rel_info := relation_at entity_id_1 idx in
                           ret (res ++ out rel_info))
                        res)
                   res)
              (fun s res =>
                 fold_left (fun res t =>
                   res ++ flat_map out (relations_between (entities kb) s t)) ts res)
              kb [] kb) as (kb' & E & F); [|exact Hc|reflexivity|].
  - clear. intros s acc kb1 Hc1 He1.
    apply (for_each_consistent ts _
             (fun t res => res ++ flat_map out (relations_between (entities kb) s t))
             kb acc kb1); [|exact Hc1|exact He1].
    clear. intros t acc kb2 Hc He.
    destruct (forward_relation_index_at_read (s, t) kb2) as (kb3 & E3 & F3).
    exists kb3. split; [|exact F3].
    erewrite bind_ok by exact E3. rewrite (consistent_forward _ Hc).
    rewrite <- (frame_entities _ _ F3).
    rewrite (relation_positions_loop _ (fun r res => ret (res ++ out r))
               (fun r res => res ++ out r)) by reflexivity.
    rewrite fold_left_app_flat_map. unfold relations_between.
    now rewrite (frame_entities _ _ F3), He.
  - exists kb'. split; [|exact F]. rewrite E.
    now rewrite (flat_map_nested (fun _ => ts)
                   (fun s t => flat_map out (relations_between (entities kb) s t))).
Qed.
(** The loop shared by the primitives that walk the attribute index: every
    entity of [ids], every attribute the index lists under [key]. *)
Lemma attribute_index_loop {St} key
    (k : string → Attribute ValueClass → St → M St)
    (step : string → Attribute ValueClass → St → St) ids acc kb :
  index_consistent kb →
  (∀ e a s kb', a ∈ attributes_of (entities kb) e → a_key a = key
                → k e a s kb' = (Ok (step e a s), kb')) →
  ∃ kb',
    for_each ids
      (fun ent_id res =>
         let! positions := attribute_inv_index_at key ent_id in
         for_each positions
           (fun idx res => let! a := attribute_at ent_id idx in k ent_id a res) res)
      acc kb
    = (Ok (fold_left
             (fun res e =>
                fold_left (fun res a => step e a res)
                  (List.filter (fun a => String.eqb (a_key a) key)
                               (attributes_of (entities kb) e)) res)
             ids acc), kb')
    ∧ kb_frame kb kb'.
Proof.
  intros Hc Hk.
  apply (for_each_consistent ids _
           (fun e res =>
              fold_left (fun res a => step e a res)
                (List.filter (fun a => String.eqb (a_key a) key)
                             (attributes_of (entities kb) e)) res)
           kb acc kb); [|exact Hc|reflexivity].
  intros e s kb1 Hc1 He1.
  destruct (attribute_inv_index_at_read key e kb1) as (kb2 & E2 & F2).
  exists kb2. split; [|exact F2].
  erewrite bind_ok by exact E2. rewrite (consistent_attribute _ Hc1).
  rewrite <- (frame_entities _ _ F2).
  rewrite (attribute_positions_loop _ (k e) (step e)).
  - now rewrite (frame_entities _ _ F2), He1.
  - intros a s' Ha Hf. apply Hk.
    + now rewrite <- He1, <- (frame_entities _ _ F2).
    + now apply String.eqb_eq.
Qed.

Lemma relation_index_loop {St} relation direction
    (k : string → Relation ValueClass → St → M St)
    (step : string → Relation ValueClass → St → St) ids acc kb :
  index_consistent kb →
  (∀ e r s kb', r ∈ relations_of (entities kb) e
                → k e r s kb' = (Ok (step e r s), kb')) →
  ∃ kb',
    for_each ids
      (fun ent_id res =>
         let! positions := relation_inv_index_at (relation, direction) ent_id in
         for_each positions
           (fun idx res => let! r := relation_at ent_id idx in k ent_id r res) res)
      acc kb
    = (Ok (fold_left
             (fun res e =>
                fold_left (fun res r => step e r res)
                  (relations_matching (entities kb) relation direction e) res)
             ids acc), kb')
    ∧ kb_frame kb kb'.
Proof.
  intros Hc Hk.
  apply (for_each_consistent ids _
           (fun e res =>
              fold_left (fun res r => step e r res)
                (relations_matching (entities kb) relation direction e) res)
           kb acc kb); [|exact Hc|reflexivity].
  intros e s kb1 Hc1 He1.
  destruct (relation_inv_index_at_read (relation, direction) e kb1) as (kb2 & E2 & F2).
  exists kb2. split; [|exact F2].
  erewrite bind_ok by exact E2. rewrite (consistent_relation _ Hc1).
  rewrite <- (frame_entities _ _ F2).
  rewrite (relation_positions_loop _ (k e) (step e)).
  - unfold relations_matching. now rewrite (frame_entities _ _ F2), He1.
  - intros r s' Hr _. apply Hk.
    now rewrite <- He1, <- (frame_entities _ _ F2).
Qed.

Lemma fold_left_pairs {A B C D} (L : A → list B) (g : A → B → list C)
    (h : A → B → list D) (ids : list A) acc :
  fold_left (fun res e =>
               fold_left (fun (res : list C * list D) a =>
                            (fst res ++ g e a, snd res ++ h e a)) (L e) res)
            ids acc
  = (fst acc ++ flat_map (fun e => flat_map (g e) (L e)) ids,
     snd acc ++ flat_map (fun e => flat_map (h e) (L e)) ids).
Proof.
  assert (∀ e (l : list B) (acc : list C * list D),
            fold_left (fun res a => (fst res ++ g e a, snd res ++ h e a)) l acc
            = (fst acc ++ flat_map (g e) l, snd acc ++ flat_map (h e) l)) as Hin.
  { intros e l. induction l as [|a l IH]; intros [c d]; simpl.
    - now rewrite !app_nil_r.
    - rewrite IH. simpl. now rewrite <- !app_assoc. }
  revert acc. induction ids as [|e ids IH]; intros [c d]; simpl.
  - now rewrite !app_nil_r.
  - rewrite Hin, IH. simpl. now rewrite <- !app_assoc.
Qed.

Lemma flat_map_filter_if {A B} (f p : A → bool) (g : A → list B) (l : list A) :
  flat_map (fun a => if p a then g a else []) (List.filter f l)
  = flat_map g (List.filter (fun a => f a && p a) l).
Proof.
  induction l as [|a l IH]; simpl; [reflexivity|].
  destruct (f a); simpl; [|exact IH].
  destruct (p a); simpl; now rewrite IH.
Qed.

Lemma positions_from_nil {A} (f : A → bool) idx l :
  positions_from f idx l = [] → List.filter f l = [].
Proof.
  revert idx. induction l as [|a l IH]; intros idx; simpl; [reflexivity|].
  destruct (f a); [discriminate|apply IH].
Qed.

Lemma filter_and_nil {A} (f p : A → bool) (l : list A) :
  List.filter f l = [] → List.filter (fun a => f a && p a) l = [].
Proof.
  induction l as [|a l IH]; simpl; [reflexivity|].
  destruct (f a); [discriminate|exact IH].
Qed.

(** [index[key].keys()]: an id outside the keys has no position listed. *)
Lemma attribute_inv_index_keys_read key kb :
  ∃ keys kb',
    attribute_inv_index_keys key kb = (Ok keys, kb') ∧ kb_frame kb kb'
    ∧ ∀ e, e ∉ keys → read_inv (attribute_inv_index kb) key e = [].
Proof.
  pose proof (preserves_attribute_inv_index_keys key kb) as Hf.
  unfold attribute_inv_index_keys, dd_get, read_inv in *.
  destruct (attribute_inv_index kb !! key) as [inner|]; simpl in *.
  - eexists _, _. split; [reflexivity|]. split; [exact Hf|].
    intros e He. apply not_elem_of_dom in He. now rewrite He.
  - eexists _, _. split; [reflexivity|]. split; [exact Hf|].
    intros e _. now rewrite lookup_empty.
Qed.

Lemma relation_inv_index_keys_read key kb :
  ∃ keys kb',
    relation_inv_index_keys key kb = (Ok keys, kb') ∧ kb_frame kb kb'
    ∧ ∀ e, e ∉ keys → read_inv (relation_inv_index kb) key e = [].
Proof.
  pose proof (preserves_relation_inv_index_keys key kb) as Hf.
  unfold relation_inv_index_keys, dd_get, read_inv in *.
  destruct (relation_inv_index kb !! key) as [inner|]; simpl in *.
  - eexists _, _. split; [reflexivity|]. split; [exact Hf|].
    intros e He. apply not_elem_of_dom in He. now rewrite He.
  - eexists _, _. split; [reflexivity|]. split; [exact Hf|].
    intros e _. now rewrite lookup_empty.
Qed.

(** The iteration order of [set(entity_ids) & keys]: the distinct ids of
    the input among the keys. *)
Lemma visit_order (ids : list string) (keys : gset string) :
  let order := elements ((list_to_set ids : gset string) ∩ keys) in
  NoDup order
  ∧ (∀ e, e ∈ order → e ∈ ids)
  ∧ (∀ e, e ∈ ids → e ∉ order → e ∉ keys).
Proof.
  simpl. split; [apply NoDup_elements|]. split.
  - intros e. rewrite elem_of_elements, elem_of_intersection, elem_of_list_to_set. tauto.
  - intros e He. rewrite elem_of_elements, elem_of_intersection, elem_of_list_to_set.
    tauto.
Qed.

Lemma relate_consistent ents relation direction kb :
  index_consistent kb →
  ∃ order,
    NoDup order
    ∧ (∀ e, e ∈ order → e ∈ fst ents)
    ∧ (∀ e, e ∈ fst ents → e ∉ order
            → relations_matching (entities kb) relation direction e = [])
    ∧ fst (Relate ents relation direction kb)
      = Ok (flat_map (fun e => map r_object
                        (relations_matching (entities kb) relation direction e)) order,
            Some (flat_map (fun e => map FRel
                     (relations_matching (entities kb) relation direction e)) order)).
Proof.
  intros Hc. unfold Relate.
  destruct (relation_inv_index_keys_read (relation, direction) kb)
    as (keys & kb1 & E1 & F1 & Hkeys).
  destruct (visit_order (fst ents) keys) as (Hnd & Hsub & Hout).
  exists (elements ((list_to_set (fst ents) : gset string) ∩ keys)).
  split; [exact Hnd|]. split; [exact Hsub|]. split.
  - intros e He Hno. specialize (Hkeys e (Hout e He Hno)).
    rewrite (consistent_relation _ Hc) in Hkeys.
    now apply positions_from_nil in Hkeys.
  - erewrite bind_ok by exact E1.
    destruct (relation_index_loop relation direction
                (fun _ rel_info (res : list string * list Fact) =>
                   ret (fst res ++ [r_object rel_info], snd res ++ [FRel rel_info]))
                (fun _ rel_info res =>
                   (fst res ++ [r_object rel_info], snd res ++ [FRel rel_info]))
                (elements ((list_to_set (fst ents) : gset string) ∩ keys))
                ([], []) kb1) as (kb2 & E2 & _).
    + eapply index_consistent_frame; eauto.
    + reflexivity.
    + erewrite bind_ok by exact E2. simpl.
      rewrite (fold_left_pairs
                 (relations_matching (entities kb1) relation direction)
                 (fun _ r => [r_object r]) (fun _ r => [FRel r])).
      simpl. now rewrite (frame_entities _ _ F1).
Qed.

Lemma query_attr_consistent ents key kb :
  index_consistent kb →
  fst (QueryAttr ents key kb)
  = Ok (flat_map (attribute_values (entities kb) key) (fst ents)).
Proof.
  intros Hc. unfold QueryAttr.
  destruct (attribute_index_loop key
              (fun _ attr_info res => ret (res ++ [a_value attr_info]))
              (fun _ attr_info res => res ++ [a_value attr_info])
              (fst ents) [] kb Hc) as (kb' & -> & _); [reflexivity|].
  simpl. f_equal.
  apply (flat_map_nested
           (fun e => List.filter (fun a => String.eqb (a_key a) key)
                                 (attributes_of (entities kb) e))
           (fun _ a => [a_value a])).
Qed.

Lemma holds_matches v tgt op b :
  matches v tgt op = Ok b → holds v tgt op = b.
Proof. unfold holds. intros ->. now destruct b. Qed.

Lemma any_match_eq qvs tgt :
  any_match qvs tgt "=" = Ok (existsb (fun qv => holds qv tgt "=") qvs).
Proof.
  induction qvs as [|qv qvs IH]; simpl; [reflexivity|].
  destruct (matches_ok qv tgt "="%string) as [b Hb]; [left; reflexivity|now left|].
  rewrite Hb, (holds_matches _ _ _ _ Hb). simpl. now destruct b.
Qed.

Lemma qualifier_flag_eq quals qkey tgt :
  qualifier_flag quals qkey tgt
  = Ok (existsb (fun p : string * list ValueClass =>
                   String.eqb (fst p) qkey
                   && existsb (fun qv => holds qv tgt "=") (snd p)) quals).
Proof.
  induction quals as [|[qk qvs] quals IH]; simpl; [reflexivity|].
  destruct (String.eqb qk qkey); simpl.
  - rewrite any_match_eq. simpl. now destruct (existsb _ qvs).
  - exact IH.
Qed.

Lemma for_each_ext {A St} (l : list A) (body body' : A → St → M St) st kb :
  (∀ x s kb, body x s kb = body' x s kb) →
  for_each l body st kb = for_each l body' st kb.
Proof.
  intros Hb. revert st kb. induction l as [|x l IH]; intros st kb; simpl.
  - reflexivity.
  - unfold bind. rewrite Hb. destruct (body' x st kb) as [[s|e] kb']; [apply IH|reflexivity].
Qed.

Lemma bind_ext {A B} (m : M A) (k k' : A → M B) kb :
  (∀ a kb, k a kb = k' a kb) → bind m k kb = bind m k' kb.
Proof. intros Hk. unfold bind. destruct (m kb) as [[a|e] kb']; [apply Hk|reflexivity]. Qed.

Lemma ids_named_elem {V} name (ents : Store V) e :
  NoDup (dict_keys ents) →
  e ∈ ids_named name ents
  ↔ ∃ info, dict_get e ents = Some info ∧ e_name info = name.
Proof.
  unfold ids_named, dict_keys.
  induction ents as [|[k i] ents IH]; intros Hnd; simpl.
  - rewrite elem_of_nil. split; [tauto|]. intros (info & [=] & _).
  - apply NoDup_cons in Hnd as [Hk Hnd]. rewrite elem_of_app, (IH Hnd).
    destruct (String.eqb_spec k e) as [->|Hne].
    + split.
      * intros [He|(info & Hg & _)].
        -- destruct (String.eqb_spec (e_name i) name) as [Hn|Hn];
             [eauto|inversion He].
        -- exfalso. apply Hk. apply (dict_get_stored ents e). eauto.
      * intros (info & [= <-] & Hn). left.
        rewrite Hn, String.eqb_refl. left.
    + split.
      * intros [He|H]; [|exact H].
        destruct (String.eqb (e_name i) name); [|inversion He].
        apply list_elem_of_singleton in He. congruence.
      * auto.
Qed.

Section IndexProperties.

Variable py_int : string → option Z.

Lemma parsed_attributes items parsed e :
  Forall2 (fun p q => fst q = fst p ∧ parse_entity py_int (snd p) = Ok (snd q))
          items parsed →
  Forall2 (fun a a' => parse_attribute py_int a = Ok a')
          (attributes_of items e) (attributes_of parsed e)
  ∧ Forall2 (fun r r' => parse_relation py_int r = Ok r')
            (relations_of items e) (relations_of parsed e).
Proof.
  intros H. pose proof (parsed_lookup py_int _ _ e H) as Hl.
  unfold attributes_of, relations_of.
  destruct (dict_get e items) as [info|], (dict_get e parsed) as [info'|];
    try contradiction.
  - apply parse_entity_skeleton in Hl as (_ & _ & Ha & Hr). auto.
  - split; constructor.
Qed.

Lemma parsed_names items parsed name :
  Forall2 (fun p q => fst q = fst p ∧ parse_entity py_int (snd p) = Ok (snd q))
          items parsed →
  ids_named name parsed = ids_named name items.
Proof.
  unfold ids_named. induction 1 as [|[k i] [k' i'] l l' [Hk Hp] _ IH]; simpl;
    [reflexivity|].
  simpl in Hk, Hp. subst k'. apply parse_entity_skeleton in Hp as (-> & _).
  now rewrite IH.
Qed.

Lemma KB_init_keys raw kb :
  KB_init py_int raw = Ok kb → NoDup (dict_keys (entities kb)).
Proof.
  intros Hinit. apply KB_init_parts in Hinit as (Hents & _).
  apply parsed_keys in Hents. rewrite Hents, mirror_relations_keys.
  apply merge_concepts_keys.
Qed.

Lemma KB_init_names raw kb name :
  KB_init py_int raw = Ok kb →
  read_list (name_to_id kb) name = ids_named name (entities kb).
Proof.
  intros Hinit. apply KB_init_parts in Hinit as (Hents & -> & _).
  unfold build_name_concept_index. rewrite index_fold_names. simpl.
  unfold read_list at 1. rewrite lookup_empty. simpl.
  symmetry. now apply parsed_names.
Qed.

Lemma KB_init_consistent raw kb :
  KB_init py_int raw = Ok kb → index_consistent kb.
Proof.
  intros Hinit. pose proof (KB_init_keys _ _ Hinit) as Hnd.
  apply KB_init_parts in Hinit as (Hents & _ & _ & Ha & Hr & Hf).
  rewrite (parsed_keys py_int _ _ Hents) in Hnd.
  destruct (scan_fold_indices _ empty_scan Hnd) as (S1 & S2 & S3).
  fold (scan_store (mirror_relations raw (merge_concepts raw))) in S1, S2, S3.
  constructor.
  - intros key e. rewrite Ha, S1. simpl.
    unfold read_inv at 1. rewrite lookup_empty. simpl. rewrite lookup_empty. simpl.
    apply positions_from_Forall2.
    destruct (parsed_attributes _ _ e Hents) as [HA _].
    eapply Forall2_impl; [exact HA|]. simpl. intros a a' Hp.
    now rewrite (parse_attribute_key py_int _ _ Hp).
  - intros relation direction e. rewrite Hr, S2. simpl.
    unfold read_inv at 1. rewrite lookup_empty. simpl. rewrite lookup_empty. simpl.
    apply positions_from_Forall2.
    destruct (parsed_attributes _ _ e Hents) as [_ HR].
    eapply Forall2_impl; [exact HR|]. simpl. intros r r' Hp.
    apply parse_relation_skeleton in Hp as (-> & -> & _). reflexivity.
  - intros e obj. rewrite Hf, S3. simpl.
    unfold read_list at 1. rewrite lookup_empty. simpl.
    apply positions_from_Forall2.
    destruct (parsed_attributes _ _ e Hents) as [_ HR].
    eapply Forall2_impl; [exact HR|]. simpl. intros r r' Hp.
    apply parse_relation_skeleton in Hp as (_ & -> & ->). reflexivity.
Qed.

(** X14. After construction, and whatever primitives have run since, [Find]
    returns the ids of the stored concepts and entities of that name, in
    store order, with no facts; an id is returned exactly when the store
    holds it under that name. *)
Theorem find_by_name raw kb0 kb name :
  KB_init py_int raw = Ok kb0 → kb_frame kb0 kb →
  fst (Find name kb) = Ok (ids_named name (entities kb0), None)
  ∧ ∀ e, e ∈ ids_named name (entities kb0)
         ↔ ∃ info, dict_get e (entities kb0) = Some info ∧ e_name info = name.
Proof.
  intros Hinit Hframe. split.
  - unfold Find. destruct (name_to_id_at_read name kb) as (kb' & E & _).
    erewrite bind_ok by exact E. simpl.
    rewrite (read_list_ext _ _ _ (frame_name_to_id _ _ Hframe)).
    now rewrite (KB_init_names _ _ _ Hinit).
  - intros e. apply ids_named_elem. eapply KB_init_keys, Hinit.
Qed.

(** X15. After construction, and whatever primitives have run since, the
    three inverted indices list for every entity exactly the positions, in
    increasing order, of its attributes under the key, of its relations
    under the relation and direction, and of its forward relations to the
    object; an id that is not stored has none. *)
Theorem indices_list_positions raw kb0 kb :
  KB_init py_int raw = Ok kb0 → kb_frame kb0 kb → index_consistent kb.
Proof.
  intros Hinit Hframe. eapply index_consistent_frame; [exact Hframe|].
  eapply KB_init_consistent, Hinit.
Qed.

(** X16. After construction, and whatever primitives have run since,
    [QueryAttr] never raises: it returns, entity by entity in the order of
    its input, the values of the attributes stored under the key, in the
    order of the entity's attribute list; an id that is not stored
    contributes nothing. *)
Theorem query_attr_values raw kb0 kb ents key :
  KB_init py_int raw = Ok kb0 → kb_frame kb0 kb →
  fst (QueryAttr ents key kb)
  = Ok (flat_map (attribute_values (entities kb0) key) (fst ents)).
Proof.
  intros Hinit Hframe.
  assert (index_consistent kb) as Hc.
  { eapply index_consistent_frame; [exact Hframe|]. eapply KB_init_consistent, Hinit. }
  rewrite (query_attr_consistent ents key kb Hc).
  now rewrite (frame_entities _ _ Hframe).
Qed.

(** X17. After construction, and whatever primitives have run since,
    [QueryRelation] and [QueryRelationQualifier] never raise: for every
    source in order and every target in order they visit the forward
    relations of the source whose object is the target, in the order of the
    source's relation list, and return their labels, respectively the values
    of the qualifier of those with the given label. *)
Theorem query_relation_values raw kb0 kb ss ts relation qkey :
  KB_init py_int raw = Ok kb0 → kb_frame kb0 kb →
  fst (QueryRelation ss ts kb)
  = Ok (flat_map (fun s => flat_map (fun t =>
          map r_relation (relations_between (entities kb0) s t)) (fst ts)) (fst ss))
  ∧ fst (QueryRelationQualifier ss ts relation qkey kb)
    = Ok (flat_map (fun s => flat_map (fun t =>
            flat_map (fun r => if String.eqb (r_relation r) relation
                               then qualifier_values (r_qualifiers r) qkey else [])
                     (relations_between (entities kb0) s t)) (fst ts)) (fst ss)).
Proof.
  intros Hinit Hframe.
  assert (index_consistent kb) as Hc.
  { eapply index_consistent_frame; [exact Hframe|]. eapply KB_init_consistent, Hinit. }
  rewrite <- (frame_entities _ _ Hframe). split.
  - unfold QueryRelation.
    destruct (relation_pairs_loop (fun r => [r_relation r]) (fst ss) (fst ts) kb Hc)
      as (kb' & -> & _). reflexivity.
  - unfold QueryRelationQualifier.
    destruct (relation_pairs_loop
                (fun r => if String.eqb (r_relation r) relation
                          then qualifier_values (r_qualifiers r) qkey else [])
                (fst ss) (fst ts) kb Hc) as (kb' & E & _).
    erewrite for_each_ext; [rewrite E; reflexivity|].
    intros s res kb1. apply for_each_ext. intros t res1 kb2.
    apply bind_ext. intros positions kb3. apply for_each_ext. intros idx res2 kb4.
    apply bind_ext. intros r kb5.
    destruct (String.eqb (r_relation r) relation); [reflexivity|].
    now rewrite app_nil_r.
Qed.

End IndexProperties.
Section QueryProperties.

Variable py_int : string → option Z.
Variable py_float : string → option float.

(** X18. After construction, and whatever primitives have run since,
    [Relate] never raises. It visits distinct ids of its input, in the
    iteration order of a set, and returns for each the objects of its
    relations with the given label and direction, in the order of its
    relation list, with those relations as facts; an input id it does not
    visit has no such relation. *)
Theorem relate_objects raw kb0 kb ents relation direction :
  KB_init py_int raw = Ok kb0 → kb_frame kb0 kb →
  ∃ order,
    NoDup order
    ∧ (∀ e, e ∈ order → e ∈ fst ents)
    ∧ (∀ e, e ∈ fst ents → e ∉ order
            → relations_matching (entities kb0) relation direction e = [])
    ∧ fst (Relate ents relation direction kb)
      = Ok (flat_map (fun e => map r_object
                        (relations_matching (entities kb0) relation direction e)) order,
            Some (flat_map (fun e => map FRel
                     (relations_matching (entities kb0) relation direction e)) order)).
Proof.
  intros Hinit Hframe. rewrite <- (frame_entities _ _ Hframe).
  apply relate_consistent.
  eapply index_consistent_frame; [exact Hframe|]. eapply KB_init_consistent, Hinit.
Qed.




End QueryProperties.
Section ConceptProperties.

Variable py_int : string → option Z.

Lemma KB_init_ancestors raw kb e c :
  KB_init py_int raw = Ok kb →
  e ∈ default [] (concept_to_entity kb !! c) ↔ tc (isA_step (entities kb)) e c.
Proof.
  intros Hinit. destruct (KB_init_store _ _ _ Hinit) as [Hc Hsk].
  rewrite <- reached_tc_step, Hc, concept_index_reach.
  split; apply reached_from_parent_skeleton; [exact Hsk|].
  intros x. symmetry. apply Hsk.
Qed.

(** X22. After construction, and whatever primitives have run since,
    [FilterConcept] never raises and returns, without repetition, exactly
    the ids of its input that have, among their ancestors along [isA]
    (self-loops left out), a stored concept or entity of the given name. *)
Theorem filter_concept_instances raw kb0 kb ents concept_name :
  KB_init py_int raw = Ok kb0 → kb_frame kb0 kb →
  ∃ result,
    fst (FilterConcept ents concept_name kb) = Ok (result, None)
    ∧ NoDup result
    ∧ ∀ e, e ∈ result
           ↔ e ∈ fst ents
             ∧ ∃ c info, dict_get c (entities kb0) = Some info
                         ∧ e_name info = concept_name
                         ∧ tc (isA_step (entities kb0)) e c.
Proof.
  intros Hinit Hframe. unfold FilterConcept.
  destruct (name_to_id_at_read concept_name kb) as (kb1 & E1 & F1).
  erewrite bind_ok by exact E1. eexists. split; [reflexivity|].
  split; [apply NoDup_elements|]. intros e.
  rewrite elem_of_elements, elem_of_intersection, !elem_of_list_to_set.
  rewrite (frame_concept_to_entity _ _ F1), (frame_concept_to_entity _ _ Hframe).
  rewrite (read_list_ext _ _ _ (frame_name_to_id _ _ Hframe)).
  rewrite (KB_init_names _ _ _ _ Hinit).
  rewrite (list_elem_of_In (flat_map _ _)), in_flat_map.
  split; intros [He H]; (split; [exact He|]).
  - destruct H as (c & Hc & Hin).
    apply list_elem_of_In in Hc, Hin.
    apply ids_named_elem in Hc as (info & Hg & Hn); [|eapply KB_init_keys, Hinit].
    exists c, info. split; [exact Hg|]. split; [exact Hn|].
    now apply (KB_init_ancestors _ _ _ _ Hinit).
  - destruct H as (c & info & Hg & Hn & Htc). exists c. split.
    + apply list_elem_of_In. apply ids_named_elem; [eapply KB_init_keys, Hinit|]. eauto.
    + apply list_elem_of_In. now apply (KB_init_ancestors _ _ _ _ Hinit).
Qed.

End ConceptProperties.
(** ** Mirrored relations *)

Lemma relations_of_set {V} (ents : Store V) k info x :
  relations_of (dict_set k info ents) x
  = if String.eqb k x then e_relations info else relations_of ents x.
Proof. unfold relations_of. rewrite dict_get_set. now destruct (String.eqb k x). Qed.

Lemma add_mirror_grows obj_id rel ents x r :
  r ∈ relations_of ents x → r ∈ relations_of (add_mirror obj_id rel ents) x.
Proof.
  intros Hr. unfold add_mirror.
  destruct (dict_get obj_id ents) as [info|] eqn:Hg; [|exact Hr].
  destruct (existsb _ _); [exact Hr|].
  rewrite relations_of_set. simpl.
  destruct (String.eqb_spec obj_id x) as [<-|_]; [|exact Hr].
  unfold relations_of in Hr. rewrite Hg in Hr. apply elem_of_app. now left.
Qed.

Lemma relation_eqb_mirror eid (rel_info r' : Relation RawValue) :
  relation_eqb (mirror_of eid rel_info) r' = true → is_mirror eid rel_info r'.
Proof.
  unfold relation_eqb, mirror_of, is_mirror. simpl.
  rewrite !andb_true_iff, !String.eqb_eq. intros [[[-> ->] ->] _]. auto.
Qed.

Lemma add_mirror_present obj_id eid rel_info ents :
  obj_id ∈ dict_keys ents →
  ∃ r', r' ∈ relations_of (add_mirror obj_id (mirror_of eid rel_info) ents) obj_id
        ∧ is_mirror eid rel_info r'.
Proof.
  intros Hin. apply dict_get_stored in Hin as [info Hg].
  unfold add_mirror. rewrite Hg.
  destruct (existsb _ (e_relations info)) eqn:Hex.
  - apply existsb_exists in Hex as (r' & Hr' & Heq).
    exists r'. split; [|now apply relation_eqb_mirror].
    unfold relations_of. rewrite Hg. now apply list_elem_of_In.
  - exists (mirror_of eid rel_info). split.
    + rewrite relations_of_set, String.eqb_refl. simpl.
      apply elem_of_app. right. left.
    + unfold is_mirror, mirror_of. simpl. auto.
Qed.

(** A loop whose steps keep [Q] and, under [Q], keep [P]: once the step at
    [x] has established [P], the loop ends with it. *)
Lemma fold_left_establish {A St} (f : St → A → St) (P Q : St → Prop) l x s :
  x ∈ l →
  (∀ s a, Q s → Q (f s a)) →
  (∀ s a, P s → P (f s a)) →
  (∀ s, Q s → P (f s x)) →
  Q s → P (fold_left f l s).
Proof.
  intros Hx HQ HP Hest. revert s.
  assert (∀ l s, P s → P (fold_left f l s)) as Hkeep.
  { intros l'. induction l' as [|a l' IH]; intros s Hs; simpl; [exact Hs|].
    apply IH, HP, Hs. }
  induction l as [|a l IH]; intros s Hs; [inversion Hx|].
  simpl. apply elem_of_cons in Hx as [<-|Hx].
  - apply Hkeep, Hest, Hs.
  - apply IH; [exact Hx|]. apply HQ, Hs.
Qed.

Lemma mirror_relations_present raw ents eid info rel_info :
  (eid, info) ∈ kb_entities raw → rel_info ∈ e_relations info →
  dict_mem (r_object rel_info) (kb_concepts raw) = true →
  r_object rel_info ∈ dict_keys ents →
  ∃ r', r' ∈ relations_of (mirror_relations raw ents) (r_object rel_info)
        ∧ is_mirror eid rel_info r'.
Proof.
  intros He Hr Hc Hin. unfold mirror_relations.
  set (inner := fun (p : string * Entity RawValue) ents rel_info =>
                  if dict_mem (r_object rel_info) (kb_concepts raw)
                  then add_mirror (r_object rel_info) (mirror_of (fst p) rel_info) ents
                  else ents).
  set (P := fun ents : Store RawValue =>
              ∃ r', r' ∈ relations_of ents (r_object rel_info)
                    ∧ is_mirror eid rel_info r').
  set (Q := fun ents' : Store RawValue => dict_keys ents' = dict_keys ents).
  assert (∀ p s a, Q s → Q (inner p s a)) as HQin.
  { intros p s a Hs. unfold inner, Q.
    destruct (dict_mem (r_object a) _); [|exact Hs]. now rewrite add_mirror_keys. }
  assert (∀ p s a, P s → P (inner p s a)) as HPin.
  { intros p s a (r' & Hr' & Hm). exists r'. split; [|exact Hm].
    unfold inner. destruct (dict_mem (r_object a) _); [|exact Hr'].
    now apply add_mirror_grows. }
  assert (∀ p l s, Q s → Q (fold_left (inner p) l s)) as HQ.
  { intros p l. induction l as [|a l IH]; intros s Hs; simpl; [exact Hs|].
    apply IH, HQin, Hs. }
  assert (∀ p l s, P s → P (fold_left (inner p) l s)) as HP.
  { intros p l. induction l as [|a l IH]; intros s Hs; simpl; [exact Hs|].
    apply IH, HPin, Hs. }
  apply (fold_left_establish
           (fun ents p => fold_left (inner p) (e_relations (snd p)) ents)
           P Q (kb_entities raw) (eid, info) ents He).
  - intros s p. apply HQ.
  - intros s p. apply HP.
  - intros s Hs. simpl.
    apply (fold_left_establish (inner (eid, info)) P Q (e_relations info) rel_info s Hr);
      [apply HQin|apply HPin| |exact Hs].
    intros s' Hs'. unfold inner, P. rewrite Hc. simpl.
    apply add_mirror_present. unfold Q in Hs'. now rewrite Hs'.
  - reflexivity.
Qed.

Section MirrorProperties.

Variable py_int : string → option Z.

(** X23. Construction mirrors relations onto concepts: for every relation
    of an input entity whose object is a concept, the concept holds, after
    construction, a relation with the same label, the opposite direction and
    the entity as object. *)
Theorem mirrored_on_concept raw kb eid info rel_info :
  KB_init py_int raw = Ok kb →
  (eid, info) ∈ kb_entities raw → rel_info ∈ e_relations info →
  dict_mem (r_object rel_info) (kb_concepts raw) = true →
  ∃ r', r' ∈ relations_of (entities kb) (r_object rel_info)
        ∧ is_mirror eid rel_info r'.
Proof.
  intros Hinit He Hr Hc.
  apply KB_init_parts in Hinit as (Hents & _).
  destruct (mirror_relations_present raw (merge_concepts raw) eid info rel_info
              He Hr Hc) as (r' & Hr' & Hm).
  { apply merge_concepts_keys. left. unfold dict_mem in Hc.
    apply dict_get_stored. destruct (dict_get _ _); [eauto|discriminate]. }
  destruct (parsed_attributes py_int _ _ (r_object rel_info) Hents) as [_ HR].
  apply list_elem_of_lookup in Hr' as [i Hi].
  destruct (Forall2_lookup_l _ _ _ _ _ HR Hi) as (r'' & Hi' & Hp).
  exists r''. split; [eapply list_elem_of_lookup_2; eauto|].
  apply parse_relation_skeleton in Hp as (E1 & E2 & E3).
  destruct Hm as (M1 & M2 & M3). unfold is_mirror. rewrite E1, E2, E3. auto.
Qed.

End MirrorProperties.

(** ** Qualifier filters *)

Lemma any_match_holds qvs tgt op :
  (∀ v, ∃ b, matches v tgt op = Ok b) →
  any_match qvs tgt op = Ok (existsb (fun qv => holds qv tgt op) qvs).
Proof.
  intros Hm. induction qvs as [|qv qvs IH]; simpl; [reflexivity|].
  destruct (Hm qv) as [b Hb].
  rewrite Hb, (holds_matches _ _ _ _ Hb). simpl. now destruct b.
Qed.

Lemma zip_elem_snd {A B} (l : list A) (l' : list B) x y :
  (x, y) ∈ zip l l' → y ∈ l'.
Proof.
  revert l'. induction l as [|a l IH]; intros [|b l'] H; simpl in H;
    try (now inversion H).
  apply elem_of_cons in H as [[= -> ->]|H]; [left|right; eauto].
Qed.

Lemma qualifier_loop_skip (quals : odict (list ValueClass)) key tgt op
    (i : string) (f : Fact) (res : list string * list Fact) :
  key ∉ dict_keys quals →
  rfor_each quals
    (fun '(qk, qvs) (res : list string * list Fact) =>
       if String.eqb qk key then
         let? b := any_match qvs tgt op in
         if b then Ok (fst res ++ [i], snd res ++ [f]) else Ok res
       else Ok res) res
  = Ok res.
Proof.
  unfold dict_keys. induction quals as [|[qk qvs] quals IH]; intros Hk; simpl;
    [reflexivity|].
  destruct (String.eqb_spec qk key) as [->|_].
  - exfalso. apply Hk. left.
  - simpl. apply IH. intros H. apply Hk. now right.
Qed.

Lemma qualifier_loop_once (quals : odict (list ValueClass)) key tgt op
    (i : string) (f : Fact) (res : list string * list Fact) :
  (∀ v, ∃ b, matches v tgt op = Ok b) →
  NoDup (dict_keys quals) →
  rfor_each quals
    (fun '(qk, qvs) (res : list string * list Fact) =>
       if String.eqb qk key then
         let? b := any_match qvs tgt op in
         if b then Ok (fst res ++ [i], snd res ++ [f]) else Ok res
       else Ok res) res
  = Ok (if existsb (fun q : string * list ValueClass =>
                      String.eqb (fst q) key
                      && existsb (fun qv => holds qv tgt op) (snd q)) quals
        then (fst res ++ [i], snd res ++ [f]) else res).
Proof.
  intros Hm. unfold dict_keys.
  induction quals as [|[qk qvs] quals IH]; intros Hnd; simpl; [reflexivity|].
  apply NoDup_cons in Hnd as [Hk Hnd].
  destruct (String.eqb_spec qk key) as [->|Hne]; simpl.
  - rewrite (any_match_holds _ _ _ Hm). simpl.
    assert (existsb (fun q : string * list ValueClass =>
                       String.eqb (fst q) key
                       && existsb (fun qv => holds qv tgt op) (snd q)) quals = false)
      as Hrest.
    { apply not_true_is_false. intros H. apply existsb_exists in H as ([k v] & Hin & H).
      apply andb_true_iff in H as [H _]. apply String.eqb_eq in H. simpl in H. subst k.
      apply Hk. apply list_elem_of_In. apply in_map_iff. exists (key, v). auto. }
    rewrite Hrest, orb_false_r.
    destruct (existsb _ qvs); now apply qualifier_loop_skip.
  - now apply IH.
Qed.

Section QualifierProperties.

Variable py_int : string → option Z.
Variable py_float : string → option float.


End QualifierProperties.

(** ** Values after construction *)

Lemma rfor_each_unit {A} (l : list A) (body : A → unit → result unit) st r :
  rfor_each l body st = Ok r → ∀ x, x ∈ l → body x tt = Ok tt.
Proof.
  revert st. induction l as [|a l IH]; intros [] H x Hx; [inversion Hx|].
  simpl in H. destruct (body a tt) as [[]|] eqn:E; simpl in H; [|discriminate].
  apply elem_of_cons in Hx as [->|Hx]; [exact E|eauto].
Qed.

Lemma hash_value_finite v : hash_value v = Ok tt → finite_value v.
Proof.
  destruct v; simpl; auto.
  destruct (PrimFloat.is_nan value); [discriminate|].
  destruct (PrimFloat.is_infinity value); [discriminate|auto].
Qed.

Lemma hash_qualifiers_finite quals :
  hash_qualifiers quals = Ok tt → finite_qualifiers quals.
Proof.
  intros H qk qvs qv Hq Hv. unfold hash_qualifiers in H.
  pose proof (rfor_each_unit _ _ _ _ H _ Hq) as H1. simpl in H1.
  pose proof (rfor_each_unit _ _ _ _ H1 _ Hv) as H2. simpl in H2.
  now apply hash_value_finite.
Qed.

Lemma dict_get_In {A} (d : odict A) k a : dict_get k d = Some a → (k, a) ∈ d.
Proof.
  induction d as [|[k' a'] d IH]; simpl; [discriminate|].
  destruct (String.eqb_spec k' k) as [->|_].
  - intros [= ->]. left.
  - intros H. right. auto.
Qed.

Lemma seen_values_finite ents e :
  seen_values ents = Ok tt →
  (∀ a, a ∈ attributes_of ents e
        → finite_value (a_value a) ∧ finite_qualifiers (a_qualifiers a))
  ∧ (∀ r, r ∈ relations_of ents e → finite_qualifiers (r_qualifiers r)).
Proof.
  intros H. unfold attributes_of, relations_of.
  destruct (dict_get e ents) as [info|] eqn:Hg.
  2:{ split; intros x Hx; inversion Hx. }
  apply dict_get_In in Hg. unfold seen_values in H.
  pose proof (rfor_each_unit _ _ _ _ H _ Hg) as H1. simpl in H1.
  destruct (rfor_each (e_attributes info) _ tt) as [[]|] eqn:Ha; simpl in H1;
    [|discriminate].
  split.
  - intros a Hin. pose proof (rfor_each_unit _ _ _ _ Ha _ Hin) as H2. simpl in H2.
    destruct (hash_value (a_value a)) as [[]|] eqn:Hv; simpl in H2; [|discriminate].
    split; [now apply hash_value_finite|now apply hash_qualifiers_finite].
  - intros r Hin. pose proof (rfor_each_unit _ _ _ _ H1 _ Hin) as H2. simpl in H2.
    now apply hash_qualifiers_finite.
Qed.

Section ValueProperties.

Variable py_int : string → option Z.

(** X25. Construction hashes every attribute value and every qualifier
    value, and hashing a quantity that is NaN or infinite raises: a
    constructed knowledge base holds only finite quantities. *)
Theorem stored_quantities_finite raw kb e :
  KB_init py_int raw = Ok kb →
  (∀ a, a ∈ attributes_of (entities kb) e
        → finite_value (a_value a) ∧ finite_qualifiers (a_qualifiers a))
  ∧ (∀ r, r ∈ relations_of (entities kb) e → finite_qualifiers (r_qualifiers r)).
Proof.
  unfold KB_init.
  destruct (scan_and_parse py_int _ empty_scan) as [[st parsed]|] eqn:Hs; simpl;
    [|discriminate].
  destruct (seen_values parsed) as [[]|] eqn:Hseen; simpl; [|discriminate].
  intros [= <-]. simpl. now apply seen_values_finite.
Qed.

End ValueProperties.
(** ** Selection *)

Lemma collect_candidates_consistent ids key cands kb :
  index_consistent kb →
  ∃ kb',
    collect_candidates ids key cands kb
    = (Ok (cands ++ flat_map (fun e => map (fun a => (e, a_value a))
                                (List.filter (fun a => String.eqb (a_key a) key)
                                             (attributes_of (entities kb) e))) ids), kb')
    ∧ kb_frame kb kb'.
Proof.
  intros Hc. unfold collect_candidates.
  destruct (attribute_index_loop key
              (fun ent_id attr_info candidates =>
                 ret (candidates ++ [(ent_id, a_value attr_info)]))
              (fun ent_id attr_info candidates =>
                 candidates ++ [(ent_id, a_value attr_info)])
              ids cands kb Hc) as (kb' & E & F); [reflexivity|].
  exists kb'. split; [|exact F]. rewrite E. f_equal. f_equal.
  apply (flat_map_nested
           (fun e => List.filter (fun a => String.eqb (a_key a) key)
                                 (attributes_of (entities kb) e))
           (fun e a => [(e, a_value a)])).
Qed.

Lemma count_incr_keys u cnt :
  u ∈ map fst (count_incr u cnt)
  ∧ ∀ u', u' ∈ map fst (count_incr u cnt) → u' = u ∨ u' ∈ map fst cnt.
Proof.
  induction cnt as [|[u0 n] cnt [IH1 IH2]]; simpl.
  - split; [left|]. intros u' H. apply list_elem_of_singleton in H. auto.
  - destruct (decide (u0 = u)) as [->|Hne]; simpl.
    + split; [left|]. intros u' H. now right.
    + split; [now right|]. intros u' H.
      apply elem_of_cons in H as [->|H]; [right; left|].
      destruct (IH2 u' H) as [->|H']; [now left|right; now right].
Qed.

Lemma unit_count_keys (l : list (string * ValueClass)) cnt u :
  u ∈ map fst (fold_left (fun cnt x => count_incr (unit_of (snd x)) cnt) l cnt) →
  u ∈ map fst cnt ∨ ∃ x, x ∈ l ∧ unit_of (snd x) = u.
Proof.
  revert cnt. induction l as [|x l IH]; intros cnt H; simpl in H; [now left|].
  destruct (IH _ H) as [H1|(y & Hy & Hu)].
  - destruct (proj2 (count_incr_keys _ _) _ H1) as [->|H2]; [|now left].
    right. exists x. split; [left|reflexivity].
  - right. exists y. split; [now right|exact Hu].
Qed.

Lemma unit_count_nonempty (l : list (string * ValueClass)) cnt :
  l ≠ [] ∨ cnt ≠ [] →
  fold_left (fun cnt x => count_incr (unit_of (snd x)) cnt) l cnt ≠ [].
Proof.
  revert cnt. induction l as [|x l IH]; intros cnt H; simpl.
  - destruct H as [H|H]; [congruence|exact H].
  - apply IH. right. intros E.
    pose proof (proj1 (count_incr_keys (unit_of (snd x)) cnt)) as Hin.
    rewrite E in Hin. inversion Hin.
Qed.

Lemma most_common_first_elem cnt :
  cnt ≠ [] → ∃ u n, most_common_first cnt = Some (u, n) ∧ u ∈ map fst cnt.
Proof.
  induction cnt as [|[u n] cnt IH]; intros Hne; [congruence|]. simpl.
  destruct cnt as [|p cnt'].
  - simpl. exists u, n. split; [reflexivity|left].
  - destruct IH as (u' & n' & -> & Hin); [discriminate|].
    destruct (n <? n')%nat.
    + exists u', n'. split; [reflexivity|now right].
    + exists u, n. split; [reflexivity|left].
Qed.

Lemma lt_same_unit (x y : ValueClass) cu :
  is_quantity x = true → unit_of x = cu → is_quantity y = true → unit_of y = cu →
  ∃ b, __lt__ x y = Ok b.
Proof.
  destruct x, y; simpl; try discriminate. intros _ <- _ [= ->].
  unfold __lt__. simpl. rewrite String.eqb_refl. simpl. eauto.
Qed.

Lemma sorted_insert_perm (P : string * ValueClass → Prop) x l :
  (∀ a b, P a → P b → ∃ r, __lt__ (snd a) (snd b) = Ok r) →
  P x → Forall P l →
  ∃ r, sorted_insert x l = Ok r ∧ r ≡ₚ x :: l.
Proof.
  intros Hlt Hx. induction 1 as [|y l Hy Hl IH]; simpl.
  - eauto.
  - destruct (Hlt x y Hx Hy) as [b ->]. simpl. destruct b; [eauto|].
    destruct IH as (r & -> & Hp). simpl. exists (y :: r). split; [reflexivity|].
    rewrite Hp. apply Permutation_swap.
Qed.

Lemma sorted_by_value_perm (P : string * ValueClass → Prop) l acc :
  (∀ a b, P a → P b → ∃ r, __lt__ (snd a) (snd b) = Ok r) →
  Forall P l → Forall P acc →
  ∃ r, sorted_by_value l acc = Ok r ∧ r ≡ₚ l ++ acc.
Proof.
  intros Hlt Hl. revert acc. induction Hl as [|x l Hx Hl IH]; intros acc Hacc; simpl.
  - eauto.
  - destruct (sorted_insert_perm P x acc Hlt Hx Hacc) as (acc' & -> & Hp). simpl.
    destruct (IH acc') as (r & -> & Hr).
    + rewrite Hp. now constructor.
    + exists r. split; [reflexivity|]. rewrite Hr, Hp.
      now rewrite Permutation_middle.
Qed.

(** The quantity candidates are ranked unless there is none; the ranking
    holds candidates only. *)
Lemma rank_candidates_spec (cands : list (string * ValueClass)) :
  let q := filter (fun x : string * ValueClass => is_quantity (snd x)) cands in
  (q = [] → rank_candidates cands = Raise IndexError)
  ∧ (q ≠ [] →
     ∃ c sort, rank_candidates cands = Ok (c, sort)
               ∧ sort ≠ [] ∧ sort ≡ₚ c ∧ ∀ x, x ∈ c → x ∈ q).
Proof.
  simpl. unfold rank_candidates, common_unit_of.
  set (q := filter (fun x : string * ValueClass => is_quantity (snd x)) cands).
  split.
  - intros ->. reflexivity.
  - intros Hq.
    destruct (most_common_first_elem
                (fold_left (fun cnt x => count_incr (unit_of (snd x)) cnt) q []))
      as (u & n & -> & Hu); [apply unit_count_nonempty; now left|].
    simpl.
    apply unit_count_keys in Hu as [Hu|(x & Hx & Hxu)]; [inversion Hu|].
    set (c := filter (fun x : string * ValueClass =>
                        bool_decide (unit_of (snd x) = u)) q).
    set (P := fun x : string * ValueClass =>
                is_quantity (snd x) = true ∧ unit_of (snd x) = u).
    assert (Forall P c) as Hc.
    { apply Forall_forall. intros y Hy. unfold c in Hy.
      apply list_elem_of_filter in Hy as [Hy1 Hy2].
      apply bool_decide_unpack in Hy1.
      unfold q in Hy2. apply list_elem_of_filter in Hy2 as [Hy2 _].
      split; [now apply Is_true_true|exact Hy1]. }
    destruct (sorted_by_value_perm P c []) as (sort & -> & Hp); [|exact Hc|constructor|].
    { intros a b [Ha1 Ha2] [Hb1 Hb2]. eapply lt_same_unit; eauto. }
    simpl. exists c, sort. split; [reflexivity|].
    rewrite app_nil_r in Hp.
    assert (x ∈ c) as Hxc.
    { unfold c. apply list_elem_of_filter. split; [|exact Hx].
      now apply bool_decide_pack. }
    split.
    + intros ->. apply Permutation_nil_l in Hp. rewrite <- Hp in Hxc. inversion Hxc.
    + split; [exact Hp|]. intros y Hy. unfold c in Hy.
      now apply list_elem_of_filter in Hy as [_ Hy].
Qed.

Lemma list_at_ends {A} (l : list A) (b : bool) :
  l ≠ [] → ∃ x, (if b then list_at l 0 else list_at l (length l - 1)) = Ok x ∧ x ∈ l.
Proof.
  intros Hne. unfold list_at. destruct b.
  - destruct l as [|x l]; [congruence|]. exists x. split; [reflexivity|left].
  - destruct (nth_error l (length l - 1)) as [x|] eqn:E.
    + exists x. split; [reflexivity|]. apply list_elem_of_In. eapply nth_error_In, E.
    + apply nth_error_None in E. destruct l; [congruence|]. simpl in E. lia.
Qed.

Lemma quantity_candidate_stored ents key ids x :
  x ∈ quantity_candidates ents key ids →
  fst x ∈ ids
  ∧ ∃ info a, dict_get (fst x) ents = Some info ∧ a ∈ e_attributes info
              ∧ a_key a = key ∧ a_value a = snd x ∧ is_quantity (snd x) = true.
Proof.
  unfold quantity_candidates. intros H.
  apply list_elem_of_filter in H as [Hq H]. apply Is_true_true in Hq.
  apply list_elem_of_In, in_flat_map in H as (e & He & H).
  apply in_map_iff in H as (a & <- & Ha). apply filter_In in Ha as [Ha Hk].
  simpl in *. split; [now apply list_elem_of_In|].
  unfold attributes_of in Ha. destruct (dict_get e ents) as [info|]; [|destruct Ha].
  exists info, a. apply String.eqb_eq in Hk. apply list_elem_of_In in Ha. auto.
Qed.

Section SelectionProperties.

Variable py_int : string → option Z.

(** X26. After construction, and whatever primitives have run since,
    [SelectBetween] raises [IndexError] when no entity of its two inputs has
    a quantity under the key; otherwise it returns the name of an entity of
    its inputs that has one. *)
Theorem select_between_candidate raw kb0 kb l r key op :
  KB_init py_int raw = Ok kb0 → kb_frame kb0 kb →
  (quantity_candidates (entities kb0) key (fst l ++ fst r) = []
   → fst (SelectBetween l r key op kb) = Raise IndexError)
  ∧ (quantity_candidates (entities kb0) key (fst l ++ fst r) ≠ []
     → ∃ x info,
         x ∈ quantity_candidates (entities kb0) key (fst l ++ fst r)
         ∧ dict_get (fst x) (entities kb0) = Some info
         ∧ fst (SelectBetween l r key op kb) = Ok (e_name info)).
Proof.
  intros Hinit Hframe.
  assert (index_consistent kb) as Hc.
  { eapply index_consistent_frame; [exact Hframe|]. eapply KB_init_consistent, Hinit. }
  rewrite <- (frame_entities _ _ Hframe). clear Hinit Hframe.
  unfold SelectBetween.
  destruct (collect_candidates_consistent (fst l) key [] kb Hc) as (kb1 & E1 & F1).
  destruct (collect_candidates_consistent (fst r) key
              ([] ++ flat_map (fun e => map (fun a => (e, a_value a))
                                 (List.filter (fun a => String.eqb (a_key a) key)
                                    (attributes_of (entities kb) e))) (fst l)) kb1)
    as (kb2 & E2 & F2); [eapply index_consistent_frame; eauto|].
  rewrite (frame_entities _ _ F1) in E2. simpl in E2.
  rewrite <- flat_map_app in E2.
  erewrite bind_ok by exact E1. erewrite bind_ok by exact E2.
  destruct (rank_candidates_spec
              (flat_map (fun e => map (fun a => (e, a_value a))
                           (List.filter (fun a => String.eqb (a_key a) key)
                              (attributes_of (entities kb) e))) (fst l ++ fst r)))
    as [Hnone Hsome].
  fold (quantity_candidates (entities kb) key (fst l ++ fst r)) in Hnone, Hsome.
  split.
  - intros Hq. unfold bind at 1, lift at 1. now rewrite (Hnone Hq).
  - intros Hq. destruct (Hsome Hq) as (c & sort & Hrank & Hne & Hp & Hsub).
    unfold bind at 1, lift at 1. rewrite Hrank. simpl.
    destruct (list_at_ends sort (String.eqb op "less") Hne) as (x & Hx & Hin).
    unfold bind at 1, lift at 1. rewrite Hx.
    assert (x ∈ quantity_candidates (entities kb) key (fst l ++ fst r)) as Hxq.
    { apply Hsub. now rewrite <- Hp. }
    destruct (quantity_candidate_stored _ _ _ _ Hxq) as (_ & info & _ & Hg & _).
    exists x, info. split; [exact Hxq|]. split; [exact Hg|].
    erewrite bind_ok; [reflexivity|]. apply entity_at_stored.
    now rewrite (frame_entities _ _ F2), (frame_entities _ _ F1).
Qed.

End SelectionProperties.

Lemma quantity_candidates_elem ents key ids x :
  x ∈ quantity_candidates ents key ids
  ↔ fst x ∈ ids
    ∧ is_quantity (snd x) = true
    ∧ ∃ a, a ∈ attributes_of ents (fst x) ∧ a_key a = key ∧ a_value a = snd x.
Proof.
  unfold quantity_candidates.
  rewrite list_elem_of_filter, Is_true_true, list_elem_of_In, in_flat_map. split.
  - intros (Hq & e & He & H). apply in_map_iff in H as (a & <- & Ha).
    apply filter_In in Ha as [Ha Hk]. simpl in *.
    split; [now apply list_elem_of_In|]. split; [exact Hq|].
    exists a. apply String.eqb_eq in Hk. apply list_elem_of_In in Ha. auto.
  - intros (He & Hq & a & Ha & Hk & Hv). split; [exact Hq|].
    exists (fst x). split; [now apply list_elem_of_In|].
    apply in_map_iff. exists a. split; [destruct x; simpl in *; congruence|].
    apply filter_In. split; [now apply list_elem_of_In|now apply String.eqb_eq].
Qed.

Lemma names_loop (c : list (string * ValueClass)) (v : ValueClass) acc kb :
  (∀ iv, iv ∈ c → is_Some (dict_get (fst iv) (entities kb))) →
  ∃ names,
    for_each c
      (fun iv names =>
         if __eq__ (snd iv) v
         then let! info := entity_at (fst iv) in ret (names ++ [e_name info])
         else ret names) acc kb
    = (Ok (acc ++ names), kb)
    ∧ ∀ n, n ∈ names
           → ∃ iv info, iv ∈ c ∧ dict_get (fst iv) (entities kb) = Some info
                        ∧ e_name info = n.
Proof.
  revert acc. induction c as [|iv c IH]; intros acc Hst; simpl.
  - exists []. rewrite app_nil_r. split; [reflexivity|]. intros n H. inversion H.
  - destruct (Hst iv) as [info Hg]; [left|].
    assert (∀ iv', iv' ∈ c → is_Some (dict_get (fst iv') (entities kb))) as Hst'.
    { intros iv' H. apply Hst. now right. }
    destruct (__eq__ (snd iv) v).
    + destruct (IH (acc ++ [e_name info]) Hst') as (names & E & Hn).
      exists (e_name info :: names). split.
      * erewrite bind_ok.
        2:{ erewrite bind_ok by (apply entity_at_stored; exact Hg). reflexivity. }
        rewrite E. now rewrite <- app_assoc.
      * intros n H. apply elem_of_cons in H as [->|H].
        -- exists iv, info. split; [left|auto].
        -- destruct (Hn n H) as (iv' & info' & H1 & H2). exists iv', info'.
           split; [now right|exact H2].
    + destruct (IH acc Hst') as (names & E & Hn).
      exists names. split; [exact E|].
      intros n H. destruct (Hn n H) as (iv' & info' & H1 & H2). exists iv', info'.
      split; [now right|exact H2].
Qed.

Section SelectAmongProperties.

Variable py_int : string → option Z.

(** X27. After construction, and whatever primitives have run since,
    [SelectAmong] raises [IndexError] when no entity of its input has a
    quantity under the key; otherwise it returns, without repetition, names
    of entities of its input that have one. *)
Theorem select_among_candidates raw kb0 kb ents key op :
  KB_init py_int raw = Ok kb0 → kb_frame kb0 kb →
  ((∀ x, x ∉ quantity_candidates (entities kb0) key (fst ents))
   → fst (SelectAmong ents key op kb) = Raise IndexError)
  ∧ ((∃ x, x ∈ quantity_candidates (entities kb0) key (fst ents))
     → ∃ names,
         fst (SelectAmong ents key op kb) = Ok names
         ∧ NoDup names
         ∧ ∀ n, n ∈ names
                → ∃ x info,
                    x ∈ quantity_candidates (entities kb0) key (fst ents)
                    ∧ dict_get (fst x) (entities kb0) = Some info
                    ∧ e_name info = n).
Proof.
  intros Hinit Hframe.
  assert (index_consistent kb) as Hc.
  { eapply index_consistent_frame; [exact Hframe|]. eapply KB_init_consistent, Hinit. }
  rewrite <- (frame_entities _ _ Hframe). clear Hinit Hframe.
  unfold SelectAmong.
  set (ids := elements (list_to_set (fst ents) : gset string)).
  assert (∀ x, x ∈ quantity_candidates (entities kb) key ids
               ↔ x ∈ quantity_candidates (entities kb) key (fst ents)) as Hsame.
  { intros x. rewrite !quantity_candidates_elem. unfold ids.
    now rewrite elem_of_elements, elem_of_list_to_set. }
  destruct (collect_candidates_consistent ids key [] kb Hc) as (kb1 & E1 & F1).
  simpl in E1. erewrite bind_ok by exact E1.
  destruct (rank_candidates_spec
              (flat_map (fun e => map (fun a => (e, a_value a))
                           (List.filter (fun a => String.eqb (a_key a) key)
                              (attributes_of (entities kb) e))) ids))
    as [Hnone Hsome].
  fold (quantity_candidates (entities kb) key ids) in Hnone, Hsome.
  split.
  - intros Hq. unfold bind at 1, lift at 1. rewrite Hnone; [reflexivity|].
    apply elem_of_nil_inv. intros x Hx. apply (Hq x), Hsame, Hx.
  - intros [x0 Hx0]. destruct Hsome as (c & sort & Hrank & Hne & Hp & Hsub).
    { intros E. apply Hsame in Hx0. rewrite E in Hx0. inversion Hx0. }
    unfold bind at 1, lift at 1. rewrite Hrank. simpl.
    destruct (list_at_ends sort (String.eqb op "smallest") Hne) as (x & Hx & _).
    unfold bind at 1, lift at 1. rewrite Hx.
    destruct (names_loop c (snd x) [] kb1) as (names & E & Hn).
    { intros iv Hiv. apply Hsub in Hiv.
      destruct (quantity_candidate_stored _ _ _ _ Hiv) as (_ & info & _ & Hg & _).
      rewrite (frame_entities _ _ F1). eauto. }
    erewrite bind_ok by exact E. simpl.
    eexists. split; [reflexivity|]. split; [apply NoDup_elements|].
    intros n Hin. apply elem_of_elements, elem_of_list_to_set in Hin.
    destruct (Hn n Hin) as (iv & info & Hiv & Hg & Hname).
    exists iv, info. split; [apply Hsame, Hsub, Hiv|].
    rewrite (frame_entities _ _ F1) in Hg. auto.
Qed.

(** X28. After construction, and whatever primitives have run since,
    [QueryName] of what [Find] returns for a name never raises: it returns
    that name once for every stored concept or entity that bears it. *)
Theorem query_name_find raw kb0 kb name :
  KB_init py_int raw = Ok kb0 → kb_frame kb0 kb →
  fst ((let! found := Find name in QueryName found) kb)
  = Ok (map (fun _ => name) (ids_named name (entities kb0))).
Proof.
  intros Hinit Hframe. unfold Find.
  destruct (name_to_id_at_read name kb) as (kb1 & E1 & F1).
  erewrite bind_ok.
  2:{ erewrite bind_ok by exact E1. reflexivity. }
  rewrite (read_list_ext _ _ _ (frame_name_to_id _ _ Hframe)).
  rewrite (KB_init_names _ _ _ _ Hinit).
  unfold QueryName. simpl.
  assert (entities kb1 = entities kb0) as He.
  { now rewrite (frame_entities _ _ F1), (frame_entities _ _ Hframe). }
  pose proof (KB_init_keys _ _ _ Hinit) as Hnd.
  rewrite query_name_loop.
  - simpl. f_equal. rewrite He.
    assert (∀ l, (∀ e, e ∈ l → e ∈ ids_named name (entities kb0)) →
                 omap (fun k => e_name <$> dict_get k (entities kb0)) l
                 = map (fun _ => name) l) as Hall.
    { induction l as [|e l IH]; intros Hl; simpl; [reflexivity|].
      destruct (proj1 (ids_named_elem name _ e Hnd)) as (info & Hg & Hn);
        [apply Hl; left|].
      rewrite Hg. simpl. rewrite Hn. f_equal. apply IH.
      intros e' H. apply Hl. now right. }
    apply Hall. auto.
  - intros k Hk. rewrite He.
    apply (ids_named_elem name _ k Hnd) in Hk as (info & Hg & _). eauto.
Qed.

End SelectAmongProperties.

(** * Examples *)


Lemma infer_dependency_assignment_witness :
  infer_dependency ["Find"; "Find"; "QueryRelation"]%string
  = Ok [[]; []; []; [1; 2]; []]
  ∧ bracket ["Find"; "Find"; "QueryRelation"]%string !! 3%nat
    = Some "QueryRelation"%string
  ∧ ∃ deps_before stack_before stack_after dep,
      infer_prefix 3 ["Find"; "Find"; "QueryRelation"]%string
      = Ok (deps_before, stack_before)
      ∧ infer_prefix 4 ["Find"; "Find"; "QueryRelation"]%string
        = Ok (deps_before ++ [dep], stack_after)
      ∧ [[]; []; []; [1; 2]; []] !! 3%nat = Some dep
      ∧ ("QueryRelation"%string ∈ ["<START>"; "<END>"; "<PAD>"]%string →
         dep = [] ∧ stack_after = stack_before)
      ∧ ("QueryRelation"%string ∈ ["FindAll"; "Find"]%string →
         dep = [] ∧ stack_after = stack_before ++ [Z.of_nat 3 - 1])
      ∧ ("QueryRelation"%string
           ∈ ["And"; "Or"; "SelectBetween"; "QueryRelation";
              "QueryRelationQualifier"]%string →
         ∃ top, last stack_before = Some top
                ∧ dep = [top; Z.of_nat 3 - 1]
                ∧ stack_after = removelast stack_before)
      ∧ ("QueryRelation"%string
           ∉ ["<START>"; "<END>"; "<PAD>"; "FindAll"; "Find"; "And"; "Or";
              "SelectBetween"; "QueryRelation"; "QueryRelationQualifier"]%string →
         dep = [Z.of_nat 3 - 1] ∧ stack_after = stack_before).
Proof.
  split; [reflexivity|]. split; [reflexivity|].
  apply (infer_dependency_assignment
           ["Find"; "Find"; "QueryRelation"]%string
           [[]; []; []; [1; 2]; []] 3 "QueryRelation"%string);
    reflexivity.
Defined.


Lemma key_type_last_observed_witness :
  ∃ kb,
    KB_init int_of_decimal example_raw = Ok kb
    ∧ key_type kb !! "birth_date"%string = Some TDate
    ∧ let ents := mirror_relations example_raw (merge_concepts example_raw) in
      key_type kb !! "birth_date"%string
      = normalise_type <$> last (observed_types "birth_date" ents)
      ∧ (∀ t, key_type kb !! "birth_date"%string = Some t →
              t ∈ [TString; TQuantity; TDate])
      ∧ (observed_types "birth_date" ents ≠ [] →
         is_Some (key_type kb !! "birth_date"%string))
      ∧ (key_type kb !! "birth_date"%string = Some TDate
         ↔ last (observed_types "birth_date" ents) = Some TDate
           ∨ last (observed_types "birth_date" ents) = Some TYear).
Proof.
  eexists. split; [vm_compute; reflexivity|]. split; [vm_compute; reflexivity|].
  apply (key_type_last_observed int_of_decimal example_raw _ "birth_date"%string).
  vm_compute; reflexivity.
Defined.

Lemma concept_to_entity_ancestry_witness :
  ∃ kb,
    KB_init int_of_decimal cyclic_raw = Ok kb
    ∧ default [] (concept_to_entity kb !! "C2"%string) = ["C1"; "C2"; "E"]%string
    ∧ ("E"%string ∈ default [] (concept_to_entity kb !! "C2"%string)
       ↔ tc (isA_step (entities kb)) "E"%string "C2"%string)
    ∧ ((∀ info, dict_get "E" (entities kb) = Some info → "E"%string ∉ e_isA info) →
       ("E"%string ∈ default [] (concept_to_entity kb !! "C2"%string)
        ↔ tc (isA_edge (entities kb)) "E"%string "C2"%string)).
Proof.
  eexists. split; [vm_compute; reflexivity|]. split; [vm_compute; reflexivity|].
  apply (concept_to_entity_ancestry int_of_decimal cyclic_raw _ "E"%string "C2"%string).
  vm_compute; reflexivity.
Defined.



(** C4 (as stated) fails: the key [inception] was observed with a year,
    yet its final type is [string], the type of the value observed last. *)
Lemma key_type_year_overwritten :
  ∃ kb,
    KB_init int_of_decimal mixed_raw = Ok kb
    ∧ TYear ∈ observed_types "inception"
                (mirror_relations mixed_raw (merge_concepts mixed_raw))
    ∧ key_type kb !! "inception"%string = Some TString.
Proof.
  eexists. split; [vm_compute; reflexivity|]. split.
  - vm_compute. left.
  - vm_compute; reflexivity.
Qed.


(** C7 (as stated) fails: a concept that lists itself in its own [isA] is
    in its own transitive [isA] closure, yet it is not listed under itself. *)
Lemma self_loop_not_indexed :
  ∃ kb,
    KB_init int_of_decimal self_loop_raw = Ok kb
    ∧ tc (isA_edge (entities kb)) "C"%string "C"%string
    ∧ "C"%string ∉ default [] (concept_to_entity kb !! "C"%string).
Proof.
  eexists. split; [vm_compute; reflexivity|]. split.
  - apply tc_once. eexists. split; [vm_compute; reflexivity|].
    split; [left|]. eexists. vm_compute. reflexivity.
  - vm_compute. intros H. inversion H.
Qed.

Lemma lt_gt_mirror_witness :
  __lt__ (VYear 1959) (VYear 1960) = Ok true
  ∧ __gt__ (VYear 1960) (VYear 1959) = true.
Proof.
  split; [reflexivity|].
  apply (lt_gt_mirror (VYear 1959) (VYear 1960) true). reflexivity.
Defined.



Lemma parse_error_first_witness :
  parsed_literal (CallFilterYear ([], None) "birth_date" "soon" "=")
  = Some (Some "birth_date", "soon", Some TYear)%string
  ∧ _parse_key_value int_of_decimal float_of_decimal empty_kb
      (Some "birth_date"%string) "soon" (Some TYear) = Raise ValueError
  ∧ run_prim int_of_decimal float_of_decimal
      (CallFilterYear ([], None) "birth_date" "soon" "=") empty_kb
    = (Raise ValueError, empty_kb).
Proof.
  split; [reflexivity|]. split; [reflexivity|].
  apply (parse_error_first int_of_decimal float_of_decimal
           (CallFilterYear ([], None) "birth_date" "soon" "=")
           (Some "birth_date"%string) "soon"%string (Some TYear) ValueError empty_kb);
    reflexivity.
Defined.

Lemma infer_dependency_backward_witness :
  infer_dependency ["Find"; "Find"; "QueryRelation"]%string
  = Ok [[]; []; []; [1; 2]; []]
  ∧ length [[]; []; []; [1; 2]; @nil Z]
    = S (S (length ["Find"; "Find"; "QueryRelation"]%string))
  ∧ ∀ (i : nat) dep x,
      [[]; []; []; [1; 2]; []] !! i = Some dep → x ∈ dep → 0 <= x < Z.of_nat i.
Proof.
  split; [reflexivity|].
  apply (infer_dependency_backward ["Find"; "Find"; "QueryRelation"]%string
           [[]; []; []; [1; 2]; []]).
  reflexivity.
Defined.

Lemma select_unknown_key_witness :
  unknown_key empty_kb "height"
  ∧ (∀ l_entities r_entities op,
        fst (SelectBetween l_entities r_entities "height" op empty_kb) = Raise IndexError)
  ∧ (∀ entities op, fst (SelectAmong entities "height" op empty_kb) = Raise IndexError).
Proof.
  assert (unknown_key empty_kb "height") as H.
  { intros ent_id. reflexivity. }
  split; [exact H|]. exact (select_unknown_key empty_kb "height"%string H).
Defined.

Lemma store_keys_witness :
  ∃ kb,
    KB_init int_of_decimal example_raw = Ok kb
    ∧ fst (FindAll kb) = Ok (dict_keys (entities kb), None)
    ∧ NoDup (dict_keys (entities kb))
    ∧ ∀ x, x ∈ dict_keys (entities kb)
           ↔ x ∈ dict_keys (kb_concepts example_raw)
             ∨ x ∈ dict_keys (kb_entities example_raw).
Proof.
  eexists. split; [vm_compute; reflexivity|].
  apply (store_keys int_of_decimal example_raw). vm_compute; reflexivity.
Defined.

Lemma find_by_name_witness :
  ∃ kb,
    KB_init int_of_decimal example_raw = Ok kb
    ∧ kb_frame kb kb
    ∧ fst (Find "Alice" kb) = Ok (ids_named "Alice" (entities kb), None)
    ∧ ∀ e, e ∈ ids_named "Alice" (entities kb)
           ↔ ∃ info, dict_get e (entities kb) = Some info
                     ∧ e_name info = "Alice"%string.
Proof.
  eexists. split; [vm_compute; reflexivity|].
  match goal with
  | |- kb_frame ?k _ ∧ _ =>
      split; [apply kb_frame_refl|];
      apply (find_by_name int_of_decimal example_raw k k
               "Alice"%string);
      [vm_compute; reflexivity|apply kb_frame_refl]
  end.
Defined.

Lemma indices_list_positions_witness :
  ∃ kb,
    KB_init int_of_decimal example_raw = Ok kb
    ∧ kb_frame kb kb
    ∧ index_consistent kb.
Proof.
  eexists. split; [vm_compute; reflexivity|].
  match goal with
  | |- kb_frame ?k _ ∧ _ =>
      split; [apply kb_frame_refl|];
      apply (indices_list_positions int_of_decimal example_raw k k);
      [vm_compute; reflexivity|apply kb_frame_refl]
  end.
Defined.

Lemma query_attr_values_witness :
  ∃ kb,
    KB_init int_of_decimal example_raw = Ok kb
    ∧ kb_frame kb kb
    ∧ fst (QueryAttr (["A"; "B"]%string, None) "height" kb)
      = Ok (flat_map (attribute_values (entities kb) "height") ["A"; "B"]%string).
Proof.
  eexists. split; [vm_compute; reflexivity|].
  match goal with
  | |- kb_frame ?k _ ∧ _ =>
      split; [apply kb_frame_refl|];
      apply (query_attr_values int_of_decimal example_raw k k
               (["A"; "B"]%string, None) "height"%string);
      [vm_compute; reflexivity|apply kb_frame_refl]
  end.
Defined.

Lemma query_relation_values_witness :
  ∃ kb,
    KB_init int_of_decimal example_raw = Ok kb
    ∧ kb_frame kb kb
    ∧ fst (QueryRelation (["A"]%string, None) (["B"]%string, None) kb)
      = Ok (flat_map (fun s => flat_map (fun t =>
              map r_relation (relations_between (entities kb) s t)) ["B"]%string)
              ["A"]%string)
    ∧ fst (QueryRelationQualifier (["A"]%string, None) (["B"]%string, None)
             "spouse" "start_time" kb)
      = Ok (flat_map (fun s => flat_map (fun t =>
              flat_map (fun r => if String.eqb (r_relation r) "spouse"
                                 then qualifier_values (r_qualifiers r) "start_time"
                                 else [])
                       (relations_between (entities kb) s t)) ["B"]%string)
              ["A"]%string).
Proof.
  eexists. split; [vm_compute; reflexivity|].
  match goal with
  | |- kb_frame ?k _ ∧ _ =>
      split; [apply kb_frame_refl|];
      apply (query_relation_values int_of_decimal example_raw k k
               (["A"]%string, None) (["B"]%string, None)
               "spouse"%string "start_time"%string);
      [vm_compute; reflexivity|apply kb_frame_refl]
  end.
Defined.

Lemma relate_objects_witness :
  ∃ kb,
    KB_init int_of_decimal example_raw = Ok kb
    ∧ kb_frame kb kb
    ∧ ∃ order,
        NoDup order
        ∧ (∀ e, e ∈ order → e ∈ ["A"; "B"]%string)
        ∧ (∀ e, e ∈ ["A"; "B"]%string → e ∉ order
                → relations_matching (entities kb) "spouse" "forward" e = [])
        ∧ fst (Relate (["A"; "B"]%string, None) "spouse" "forward" kb)
          = Ok (flat_map (fun e => map r_object
                            (relations_matching (entities kb) "spouse" "forward" e))
                         order,
                Some (flat_map (fun e => map FRel
                         (relations_matching (entities kb) "spouse" "forward" e))
                         order)).
Proof.
  eexists. split; [vm_compute; reflexivity|].
  match goal with
  | |- kb_frame ?k _ ∧ _ =>
      split; [apply kb_frame_refl|];
      apply (relate_objects int_of_decimal example_raw k k
               (["A"; "B"]%string, None) "spouse"%string "forward"%string);
      [vm_compute; reflexivity|apply kb_frame_refl]
  end.
Defined.




Lemma filter_concept_instances_witness :
  ∃ kb,
    KB_init int_of_decimal example_raw = Ok kb
    ∧ kb_frame kb kb
    ∧ ∃ result,
        fst (FilterConcept (["A"; "B"; "P"]%string, None) "person" kb)
        = Ok (result, None)
        ∧ NoDup result
        ∧ ∀ e, e ∈ result
               ↔ e ∈ ["A"; "B"; "P"]%string
                 ∧ ∃ c info, dict_get c (entities kb) = Some info
                             ∧ e_name info = "person"%string
                             ∧ tc (isA_step (entities kb)) e c.
Proof.
  eexists. split; [vm_compute; reflexivity|].
  match goal with
  | |- kb_frame ?k _ ∧ _ =>
      split; [apply kb_frame_refl|];
      apply (filter_concept_instances int_of_decimal example_raw k k
               (["A"; "B"; "P"]%string, None) "person"%string);
      [vm_compute; reflexivity|apply kb_frame_refl]
  end.
Defined.

Lemma mirrored_on_concept_witness :
  ∃ kb,
    KB_init int_of_decimal annotated_raw = Ok kb
    ∧ ∃ r', r' ∈ relations_of (entities kb) "W"
            ∧ is_mirror "A"
                (mkRelation "occupation" "forward" "W"
                            [("start_time", [RawYear "1990"])]%string) r'.
Proof.
  eexists. split; [vm_compute; reflexivity|].
  apply (mirrored_on_concept int_of_decimal annotated_raw _ "A"%string
           (mkEntity "Alice"
              [mkAttribute "height" (RawQuantity (float_of_Z 180) "cm")
                           [("point_in_time", [RawYear "2000"])]]
              [mkRelation "occupation" "forward" "W" [("start_time", [RawYear "1990"])]]
              ["W"])%string
           (mkRelation "occupation" "forward" "W"
                       [("start_time", [RawYear "1990"])]%string)).
  - vm_compute; reflexivity.
  - left.
  - left.
  - reflexivity.
Defined.


Lemma stored_quantities_finite_witness :
  ∃ kb,
    KB_init int_of_decimal example_raw = Ok kb
    ∧ (∀ a, a ∈ attributes_of (entities kb) "A"
            → finite_value (a_value a) ∧ finite_qualifiers (a_qualifiers a))
    ∧ (∀ r, r ∈ relations_of (entities kb) "A" → finite_qualifiers (r_qualifiers r)).
Proof.
  eexists. split; [vm_compute; reflexivity|].
  apply (stored_quantities_finite int_of_decimal example_raw _ "A"%string).
  vm_compute; reflexivity.
Defined.

Lemma select_between_candidate_witness :
  ∃ kb,
    KB_init int_of_decimal example_raw = Ok kb
    ∧ kb_frame kb kb
    ∧ (quantity_candidates (entities kb) "height" (["A"%string] ++ ["B"%string]) = []
       → fst (SelectBetween (["A"]%string, None) (["B"]%string, None) "height" "less" kb)
         = Raise IndexError)
    ∧ (quantity_candidates (entities kb) "height" (["A"%string] ++ ["B"%string]) ≠ []
       → ∃ x info,
           x ∈ quantity_candidates (entities kb) "height" (["A"%string] ++ ["B"%string])
           ∧ dict_get (fst x) (entities kb) = Some info
           ∧ fst (SelectBetween (["A"]%string, None) (["B"]%string, None)
                    "height" "less" kb)
             = Ok (e_name info)).
Proof.
  eexists. split; [vm_compute; reflexivity|].
  match goal with
  | |- kb_frame ?k _ ∧ _ =>
      split; [apply kb_frame_refl|];
      apply (select_between_candidate int_of_decimal example_raw k k
               (["A"]%string, None) (["B"]%string, None)
               "height"%string "less"%string);
      [vm_compute; reflexivity|apply kb_frame_refl]
  end.
Defined.

Lemma select_among_candidates_witness :
  ∃ kb,
    KB_init int_of_decimal example_raw = Ok kb
    ∧ kb_frame kb kb
    ∧ ((∀ x, x ∉ quantity_candidates (entities kb) "height" ["A"; "B"]%string)
       → fst (SelectAmong (["A"; "B"]%string, None) "height" "smallest" kb)
         = Raise IndexError)
    ∧ ((∃ x, x ∈ quantity_candidates (entities kb) "height" ["A"; "B"]%string)
       → ∃ names,
           fst (SelectAmong (["A"; "B"]%string, None) "height" "smallest" kb) = Ok names
           ∧ NoDup names
           ∧ ∀ n, n ∈ names
                  → ∃ x info,
                      x ∈ quantity_candidates (entities kb) "height" ["A"; "B"]%string
                      ∧ dict_get (fst x) (entities kb) = Some info
                      ∧ e_name info = n).
Proof.
  eexists. split; [vm_compute; reflexivity|].
  match goal with
  | |- kb_frame ?k _ ∧ _ =>
      split; [apply kb_frame_refl|];
      apply (select_among_candidates int_of_decimal example_raw k k
               (["A"; "B"]%string, None) "height"%string "smallest"%string);
      [vm_compute; reflexivity|apply kb_frame_refl]
  end.
Defined.

Lemma query_name_find_witness :
  ∃ kb,
    KB_init int_of_decimal example_raw = Ok kb
    ∧ kb_frame kb kb
    ∧ fst ((let! found := Find "Alice" in QueryName found) kb)
      = Ok (map (fun _ => "Alice"%string) (ids_named "Alice" (entities kb))).
Proof.
  eexists. split; [vm_compute; reflexivity|].
  match goal with
  | |- kb_frame ?k _ ∧ _ =>
      split; [apply kb_frame_refl|];
      apply (query_name_find int_of_decimal example_raw k k "Alice"%string);
      [vm_compute; reflexivity|apply kb_frame_refl]
  end.
Defined.
